(** * smarttoshi: the trade-text extraction core (smartParser)

    A shallow embedding of the smart parser (parseNumber, parseCustomDate,
    the six format detectors and parseTradeTextSmart) together with the
    properties its specification states about it.  The source holds two
    generations of the parser; this is the current one, with the
    length-sensitive comma rule and the detectors parseFormatTabular,
    parseFormatVN, parseFormatAivoraGrid, parseFormatBitunixMobile,
    parseFormatAivoraEn and parseFormatBitunixWeb.

    Conventions of the model.
    - A JavaScript string is the list of its UTF-16 code units ([text]).
    - A JavaScript number is kept as the exact decimal its digits denote
      ([number]); rounding to binary64 is not modelled.  Not-a-number and
      the infinities are values of their own.  The decimal [parseFloat]
      reads is kept as it is written, whatever its size; the integer
      [parseInt] reads becomes an infinity where a binary64 overflows
      ([number_of_int]).
    - A RegExp is a value of [regex]; matching is the backtracking
      matcher of ECMAScript restricted to the constructs the source uses
      (every quantifier of the source is greedy and ranges over a single
      character or character class, or is a [?] over a group).
    - Reading the clock and calling the Gemini collaborator are the two
      events of a small tree of actions ([io]).  Console tracing is left
      out. *)

From Stdlib Require Import String Ascii List NArith ZArith QArith Bool Lia.
Import ListNotations.

Set Implicit Arguments.

Close Scope Q_scope.

(* ===================================================================== *)
(** * Code units and strings *)
(* ===================================================================== *)

Module Js.

Local Open Scope N_scope.

Definition char := N.
Definition text := list char.

(** An ASCII literal of the source as a [text]. *)
Definition lit (s : string) : text :=
  map N_of_ascii (list_ascii_of_string s).

Definition TAB : char := 9%N.
Definition LF : char := 10%N.
Definition SP : char := 32%N.
Definition COMMA : char := 44%N.
Definition MINUS : char := 45%N.
Definition DOT : char := 46%N.
Definition SLASH : char := 47%N.
Definition COLON : char := 58%N.
Definition PLUS : char := 43%N.
Definition ZERO : char := 48%N.

Definition in_range (lo hi c : char) : bool :=
  (N.leb lo c && N.leb c hi)%bool.

(** [\d] *)
Definition is_digit (c : char) : bool := in_range 48 57 c.

(** WhiteSpace and LineTerminator of ECMAScript: what [\s] matches and
    what [trim] and [parseFloat] strip. *)
Definition is_space (c : char) : bool :=
  (in_range 9 13 c || N.eqb c 32 || N.eqb c 160 || N.eqb c 5760
   || in_range 8192 8202 c || N.eqb c 8232 || N.eqb c 8233
   || N.eqb c 8239 || N.eqb c 8287 || N.eqb c 12288 || N.eqb c 65279)%bool.

(** Upper-case mapping of a code unit: Basic Latin, Latin-1, U+0111 and
    the Vietnamese letters of Latin Extended Additional, which are the
    blocks the captions of the source are written in.  A code unit
    outside them maps to itself. *)
Definition to_upper (c : char) : char :=
  if in_range 97 122 c then (c - 32)%N
  else if (in_range 224 254 c && negb (N.eqb c 247))%bool then (c - 32)%N
  else if N.eqb c 273 then 272%N
  else if (in_range 7840 7935 c && N.odd c)%bool then (c - 1)%N
  else c.

Definition to_lower (c : char) : char :=
  if in_range 65 90 c then (c + 32)%N
  else if (in_range 192 222 c && negb (N.eqb c 215))%bool then (c + 32)%N
  else if N.eqb c 272 then 273%N
  else if (in_range 7840 7935 c && N.even c)%bool then (c + 1)%N
  else c.

(** [s.toUpperCase()] *)
Definition toUpperCase (s : text) : text := map to_upper s.

Fixpoint text_eqb (a b : text) : bool :=
  match a, b with
  | [], [] => true
  | x :: a', y :: b' => (N.eqb x y && text_eqb a' b')%bool
  | _, _ => false
  end.

(** [s.startsWith(p)] *)
Fixpoint startsWith (p s : text) : bool :=
  match p, s with
  | [], _ => true
  | x :: p', y :: s' => (N.eqb x y && startsWith p' s')%bool
  | _ :: _, [] => false
  end.

(** [s.includes(p)] *)
Fixpoint includes (p s : text) : bool :=
  (startsWith p s ||
   match s with
   | [] => false
   | _ :: s' => includes p s'
   end)%bool.

(** [s.lastIndexOf(c)] for a one-character [c]; -1 when absent. *)
Fixpoint lastIndexOf_from (c : char) (s : text) (i : Z) (found : Z) : Z :=
  match s with
  | [] => found
  | x :: s' => lastIndexOf_from c s' (i + 1) (if N.eqb x c then i else found)
  end.

Definition lastIndexOf (c : char) (s : text) : Z :=
  lastIndexOf_from c s 0 (-1).

(** [s.split(c)] for a one-character separator (also [s.split(/\t/)]):
    the result is never empty. *)
Fixpoint split (c : char) (s : text) : list text :=
  match s with
  | [] => [[]]
  | x :: s' =>
      if N.eqb x c then [] :: split c s'
      else match split c s' with
           | p :: ps => (x :: p) :: ps
           | [] => [[x]]
           end
  end.

(** [s.replace(/c/g, '')] *)
Definition remove_all (c : char) (s : text) : text :=
  filter (fun x => negb (N.eqb x c)) s.

(** [s.replace(/c/g, d)] *)
Definition replace_all (c d : char) (s : text) : text :=
  map (fun x => if N.eqb x c then d else x) s.

(** [s.replace(c, d)] with a string pattern: the first occurrence only. *)
Fixpoint replace_first (c d : char) (s : text) : text :=
  match s with
  | [] => []
  | x :: s' => if N.eqb x c then d :: s' else x :: replace_first c d s'
  end.

Fixpoint trimStart (s : text) : text :=
  match s with
  | c :: s' => if is_space c then trimStart s' else s
  | [] => []
  end.

(** [s.trim()] *)
Definition trim (s : text) : text :=
  rev (trimStart (rev (trimStart s))).

(** [s.padStart(2, '0')] *)
Definition padStart2 (s : text) : text :=
  repeat ZERO (2 - length s) ++ s.

(** Value of a run of decimal digits. *)
Definition digits_value (ds : text) : N :=
  fold_left (fun acc d => (10 * acc + (d - 48))%N) ds 0%N.

(** Longest prefix of characters satisfying [p], and the rest. *)
Fixpoint span (p : char -> bool) (s : text) : text * text :=
  match s with
  | c :: s' =>
      if p c then let (a, b) := span p s' in (c :: a, b) else ([], s)
  | [] => ([], [])
  end.

(** Decimal digits of a natural number, most significant first. *)
Fixpoint digits_of_fuel (fuel : nat) (n : N) (acc : text) : text :=
  match fuel with
  | O => acc
  | S fuel' =>
      let acc' := (48 + n mod 10)%N :: acc in
      if N.ltb n 10 then acc' else digits_of_fuel fuel' (n / 10)%N acc'
  end.

Definition digits_of (n : N) : text :=
  digits_of_fuel (S (N.to_nat (N.log2 n))) n [].

End Js.

Import Js.

(* ===================================================================== *)
(** * Regular expressions *)
(* ===================================================================== *)

Module Re.

(** Members of a character class [[...]]. *)
Inductive citem : Type :=
| CChar (c : char)
| CRange (lo hi : char)
| CDigit
| CSpace.

(** What matches one character. *)
Inductive atom : Type :=
| Lit (c : char)
| Digit                                   (* \d *)
| Space                                   (* \s *)
| Class (negated : bool) (items : list citem).

(** The constructs the patterns of the source are built from.  [Rep a
    min max] is the greedy quantifier [a{min,max}] ([max = None] for no
    upper bound); [Opt r] is the greedy [(r)?]; [Grp i r] is the [i]-th
    capturing group; [Bol] is [^] (the source never sets the multiline
    flag). *)
Inductive regex : Type :=
| Eps
| Atom (a : atom)
| Bol
| Seq (r1 r2 : regex)
| Alt (r1 r2 : regex)
| Grp (i : nat) (r : regex)
| Opt (r : regex)
| Rep (a : atom) (min : nat) (max : option nat).

(** Canonicalize of ECMAScript for a pattern without the [u] flag. *)
Definition canon (icase : bool) (c : char) : char :=
  if icase then to_upper c else c.

Definition item_match (icase : bool) (c : char) (it : citem) : bool :=
  match it with
  | CChar p => N.eqb (canon icase p) (canon icase c)
  | CRange lo hi =>
      in_range lo hi c
      || (icase && (in_range lo hi (to_upper c) || in_range lo hi (to_lower c)))
  | CDigit => is_digit c
  | CSpace => is_space c
  end.

Definition atom_match (icase : bool) (a : atom) (c : char) : bool :=
  match a with
  | Lit p => N.eqb (canon icase p) (canon icase c)
  | Digit => is_digit c
  | Space => is_space c
  | Class neg items => xorb neg (existsb (item_match icase c) items)
  end.

(** Captures: index 0 is the whole match, [None] is [undefined]. *)
Definition caps := list (option text).

Fixpoint set_cap (i : nat) (v : text) (cs : caps) : caps :=
  match i, cs with
  | O, _ :: cs' => Some v :: cs'
  | S i', c :: cs' => c :: set_cap i' v cs'
  | _, [] => []
  end.

Definition orelse {A} (x y : option A) : option A :=
  match x with
  | Some _ => x
  | None => y
  end.

Definition below (max : option nat) (n : nat) : bool :=
  match max with
  | None => true
  | Some m => Nat.ltb n m
  end.

Section Matcher.

Variable icase : bool.
Variable A : Type.

(** A continuation receives the position reached, the text that remains
    and the captures so far. *)
Definition cont := nat -> text -> caps -> option A.

(** Greedy repetition of an atom: [n] characters are already taken. *)
Fixpoint rep_atom (a : atom) (min : nat) (max : option nat) (n : nat)
    (pos : nat) (s : text) (cs : caps) (k : cont) {struct s} : option A :=
  orelse
    match s with
    | c :: s' =>
        if atom_match icase a c && below max n
        then rep_atom a min max (S n) (S pos) s' cs k
        else None
    | [] => None
    end
    (if Nat.leb min n then k pos s cs else None).

Fixpoint run (r : regex) (pos : nat) (s : text) (cs : caps) (k : cont)
    {struct r} : option A :=
  match r with
  | Eps => k pos s cs
  | Atom a =>
      match s with
      | c :: s' => if atom_match icase a c then k (S pos) s' cs else None
      | [] => None
      end
  | Bol => if Nat.eqb pos 0 then k pos s cs else None
  | Seq r1 r2 => run r1 pos s cs (fun p' s' cs' => run r2 p' s' cs' k)
  | Alt r1 r2 => orelse (run r1 pos s cs k) (run r2 pos s cs k)
  | Grp i r1 =>
      run r1 pos s cs
        (fun p' s' cs' => k p' s' (set_cap i (firstn (p' - pos) s) cs'))
  | Opt r1 =>
      orelse
        (run r1 pos s cs
           (fun p' s' cs' => if Nat.eqb p' pos then None else k p' s' cs'))
        (k pos s cs)
  | Rep a min max => rep_atom a min max 0 pos s cs k
  end.

End Matcher.

(** A compiled pattern: the body, the number of capturing groups and the
    [i] flag. *)
Record pattern : Type := Pattern {
  body : regex;
  ngroups : nat;
  ignoreCase : bool
}.

(** A successful match: where it starts and ends, and its captures. *)
Record found : Type := Found {
  index : nat;
  stop : nat;
  groups : caps
}.

Definition match_at (p : pattern) (pos : nat) (s : text) : option found :=
  run (ignoreCase p) (body p) pos s (repeat None (S (ngroups p)))
    (fun p' _ cs =>
       Some (Found pos p' (set_cap 0 (firstn (p' - pos) s) cs))).

(** Leftmost match at or after [pos], where [s] is the text from [pos]
    on. *)
Fixpoint search (p : pattern) (pos : nat) (s : text) : option found :=
  match match_at p pos s with
  | Some m => Some m
  | None =>
      match s with
      | [] => None
      | _ :: s' => search p (S pos) s'
      end
  end.

(** [s.match(p)] for a pattern without the [g] flag. *)
Definition exec (p : pattern) (s : text) : option found := search p 0 s.

(** [p.test(s)] *)
Definition test (p : pattern) (s : text) : bool :=
  match exec p s with
  | Some _ => true
  | None => false
  end.

(** [Array.from(s.matchAll(p))]: successive matches, each search
    resuming where the previous match stopped (one further on after an
    empty match), until a search fails or would start beyond the end of
    the text. *)
Fixpoint matchAll_from (fuel : nat) (p : pattern) (pos : nat) (s : text)
    : list found :=
  match fuel with
  | O => []
  | S fuel' =>
      match search p pos s with
      | None => []
      | Some m =>
          let next := if Nat.eqb (stop m) (index m) then S (stop m) else stop m in
          m :: (if Nat.ltb (length s) (next - pos) then []
                else matchAll_from fuel' p next (skipn (next - pos) s))
      end
  end.

Definition matchAll (p : pattern) (s : text) : list found :=
  matchAll_from (S (length s)) p 0 s.

(** [m[i]] of a match, for a group that took part in it. *)
Definition group (i : nat) (m : found) : text :=
  match nth i (groups m) None with
  | Some t => t
  | None => []
  end.

(** [m[i]] of a match, [None] for [undefined]. *)
Definition group_opt (i : nat) (m : found) : option text :=
  nth i (groups m) None.

(** Building blocks for transcribing patterns. *)
Fixpoint str (s : text) : regex :=
  match s with
  | [] => Eps
  | [c] => Atom (Lit c)
  | c :: s' => Seq (Atom (Lit c)) (str s')
  end.

Fixpoint seq (rs : list regex) : regex :=
  match rs with
  | [] => Eps
  | [r] => r
  | r :: rs' => Seq r (seq rs')
  end.

Definition star (a : atom) : regex := Rep a 0 None.
Definition plus (a : atom) : regex := Rep a 1 None.
Definition times (n : nat) (a : atom) : regex := Rep a n (Some n).
Definition maybe (a : atom) : regex := Rep a 0 (Some 1).

End Re.

Import Re.

(* ===================================================================== *)
(** * Numbers *)
(* ===================================================================== *)

(** A JavaScript number as the source produces it: not-a-number, an
    infinity, or the decimal [(-1)^neg * m * 10^e]. *)
Inductive number : Type :=
| NaN
| Inf (neg : bool)
| Dec (neg : bool) (m : N) (e : Z).

Definition int (n : N) : number := Dec false n 0.

(** The rational a finite number denotes. *)
Definition pow10 (e : Z) : Q :=
  match e with
  | Z0 => 1%Q
  | Zpos p => inject_Z (10 ^ Zpos p)
  | Zneg p => (1 # Pos.pow 10 p)%Q
  end.

Definition value (x : number) : option Q :=
  match x with
  | Dec neg m e =>
      Some (inject_Z (if neg then - Z.of_N m else Z.of_N m) * pow10 e)%Q
  | _ => None
  end.

Definition isNaN (x : number) : bool :=
  match x with
  | NaN => true
  | _ => false
  end.

(** ToBoolean of a number: false for NaN and for both zeros. *)
Definition truthy (x : number) : bool :=
  match x with
  | NaN => false
  | Inf _ => true
  | Dec _ m _ => negb (N.eqb m 0)
  end.

(** [x < 0] *)
Definition negative (x : number) : bool :=
  match x with
  | NaN => false
  | Inf neg => neg
  | Dec neg m _ => neg && negb (N.eqb m 0)
  end.

(** [x >= 0] *)
Definition nonnegative (x : number) : bool :=
  match x with
  | NaN => false
  | Inf neg => negb neg
  | Dec neg m _ => negb neg || N.eqb m 0
  end.

(** [Math.abs] *)
Definition abs (x : number) : number :=
  match x with
  | NaN => NaN
  | Inf _ => Inf false
  | Dec _ m e => Dec false m e
  end.

(** [(isNegative ? -1 : 1) * x] *)
Definition signed (isNegative : bool) (x : number) : number :=
  match x with
  | NaN => NaN
  | Inf neg => Inf (xorb isNegative neg)
  | Dec neg m e => Dec (xorb isNegative neg) m e
  end.

(** An optional sign in front of a numeric literal. *)
Definition take_sign (s : text) : bool * text :=
  match s with
  | c :: s' =>
      if N.eqb c MINUS then (true, s')
      else if N.eqb c PLUS then (false, s')
      else (false, s)
  | [] => (false, s)
  end.

(** ExponentPart of a decimal literal, 0 when there is none. *)
Definition exponent (s : text) : Z :=
  match s with
  | c :: s' =>
      if N.eqb c 101 || N.eqb c 69 then
        let (neg, s'') := take_sign s' in
        match fst (span is_digit s'') with
        | [] => 0%Z
        | ds => if neg then (- Z.of_N (digits_value ds))%Z
                else Z.of_N (digits_value ds)
        end
      else 0%Z
  | [] => 0%Z
  end.

(** [parseFloat]: leading white space is skipped, then the longest
    prefix that is a StrDecimalLiteral is read; NaN when there is none. *)
Definition parseFloat (s : text) : number :=
  let (neg, s1) := take_sign (trimStart s) in
  if startsWith (lit "Infinity") s1 then Inf neg
  else
    let (ip, r1) := span is_digit s1 in
    let (fp, r2) :=
      match r1 with
      | c :: r1' => if N.eqb c DOT then span is_digit r1' else ([], r1)
      | [] => ([], r1)
      end in
    match ip ++ fp with
    | [] => NaN
    | ds => Dec neg (digits_value ds) (exponent r2 - Z.of_nat (length fp))
    end.

(** [parseInt(s, 10)]: [None] is NaN. *)
Definition parseInt (s : text) : option Z :=
  let (neg, s1) := take_sign (trimStart s) in
  match fst (span is_digit s1) with
  | [] => None
  | ds => Some (if neg then - Z.of_N (digits_value ds)
                else Z.of_N (digits_value ds))%Z
  end.

(** The integers from this one on have no finite binary64 value: the
    largest finite one is 2^1024 - 2^971, and rounding to nearest takes
    what lies half a step above it to an infinity. *)
Definition overflows (m : N) : bool :=
  N.leb (N.shiftl 1 1024 - N.shiftl 1 970) m.

(** The number [parseInt] returns for the integer it has read: an
    infinity for an integer too large for a binary64, the integer itself
    otherwise. *)
Definition number_of_int (x : option Z) : number :=
  match x with
  | None => NaN
  | Some z =>
      if overflows (Z.abs_N z) then Inf (Z.ltb z 0)
      else Dec (Z.ltb z 0) (Z.abs_N z) 0
  end.

(** [h.toString()] of an integer-valued number or NaN. *)
Definition int_toString (x : option Z) : text :=
  match x with
  | None => lit "NaN"
  | Some z =>
      if Z.ltb z 0 then MINUS :: digits_of (Z.abs_N z)
      else digits_of (Z.abs_N z)
  end.

(* ===================================================================== *)
(** * The normalizers *)
(* ===================================================================== *)

(** [/^\d{4}-\d{2}-\d{2}/] *)
Definition re_iso_prefix : pattern :=
  Pattern (seq [Bol; times 4 Digit; Atom (Lit MINUS); times 2 Digit;
                Atom (Lit MINUS); times 2 Digit]) 0 false.

(** [/^\d{2}\/\d{2}\/\d{4}/] *)
Definition re_slash_prefix : pattern :=
  Pattern (seq [Bol; times 2 Digit; Atom (Lit SLASH); times 2 Digit;
                Atom (Lit SLASH); times 4 Digit]) 0 false.

(** [[^\d.,-]] *)
Definition not_numeric : atom :=
  Class true [CDigit; CChar DOT; CChar COMMA; CChar MINUS].

(** [str.replace(/[^\d.,-]/g, '')] *)
Definition strip (s : text) : text :=
  filter (fun c => negb (atom_match false not_numeric c)) s.

(** The separator heuristic of [parseNumber], on the cleaned string
    without its sign. *)
Definition separators (cleaned : text) : text :=
  let lastCommaIndex := lastIndexOf COMMA cleaned in
  let lastDotIndex := lastIndexOf DOT cleaned in
  if ((-1 <? lastCommaIndex) && (-1 <? lastDotIndex))%Z then
    if (lastDotIndex <? lastCommaIndex)%Z
    then replace_first COMMA DOT (remove_all DOT cleaned)
    else remove_all COMMA cleaned
  else if (-1 <? lastCommaIndex)%Z then
    let parts := split COMMA cleaned in
    let lastPart := last parts [] in
    if negb (Nat.eqb (length lastPart) 3)
    then replace_all COMMA DOT cleaned
    else remove_all COMMA cleaned
  else cleaned.

(** [cleaned.startsWith('-')] on the stripped string, and the cleaned
    string once [substring(1)] has dropped that sign. *)
Definition isNegative (str : text) : bool := startsWith [MINUS] (strip str).

Definition unsigned (str : text) : text :=
  if isNegative str then skipn 1 (strip str) else strip str.

Definition parseNumber (str : text) : number :=
  match str with
  | [] => int 0
  | _ =>
      if test re_iso_prefix str then int 0
      else if test re_slash_prefix str then int 0
      else signed (isNegative str) (parseFloat (separators (unsigned str)))
  end.

(** [/(\d{1,2})\/(\d{1,2})\/(\d{4})\s+(\d{1,2}):(\d{2}):(\d{2})\s*(SA|CH)?/i] *)
Definition re_custom_date : pattern :=
  Pattern
    (seq [Grp 1 (Rep Digit 1 (Some 2)); Atom (Lit SLASH);
          Grp 2 (Rep Digit 1 (Some 2)); Atom (Lit SLASH);
          Grp 3 (times 4 Digit); plus Space;
          Grp 4 (Rep Digit 1 (Some 2)); Atom (Lit COLON);
          Grp 5 (times 2 Digit); Atom (Lit COLON);
          Grp 6 (times 2 Digit); star Space;
          Opt (Grp 7 (Alt (str (lit "SA")) (str (lit "CH"))))])
    7 true.

(** The hour of [parseCustomDate] after the meridiem is applied. *)
Definition hour24 (h : option Z) (meridiem : option text) : option Z :=
  match meridiem with
  | None | Some [] => h
  | Some mer =>
      let h1 :=
        match h with
        | Some z =>
            if text_eqb (toUpperCase mer) (lit "CH") && (z <? 12)%Z
            then Some (z + 12)%Z else h
        | None => h
        end in
      match h1 with
      | Some z =>
          if text_eqb (toUpperCase mer) (lit "SA") && (z =? 12)%Z
          then Some 0%Z else h1
      | None => h1
      end
  end.

(** [None] is [undefined]. *)
Definition parseCustomDate (dateStr : text) : option text :=
  match exec re_custom_date dateStr with
  | Some m =>
      let day := group 1 m in
      let month := group 2 m in
      let year := group 3 m in
      let hour := group 4 m in
      let minute := group 5 m in
      let second := group 6 m in
      let meridiem := group_opt 7 m in
      let h := hour24 (parseInt hour) meridiem in
      Some (year ++ [MINUS] ++ padStart2 month ++ [MINUS] ++ padStart2 day
            ++ lit "T" ++ padStart2 (int_toString h)
            ++ [COLON] ++ minute ++ [COLON] ++ second)
  | None => None
  end.

(* ===================================================================== *)
(** * Trade records *)
(* ===================================================================== *)

(** [Partial<Trade>] as the detectors build it.  [None] is a key that is
    not set.  [openTime] and [closeTime] can be set to [undefined] (the
    result of [parseCustomDate]), which is [Some None]. *)
Module Partial.

Record t : Type := Make {
  leverage : option number;
  coin : option text;
  quantity : option number;
  openPrice : option number;
  closePrice : option number;
  openTime : option (option text);
  closeTime : option (option text);
  fee : option number;
  pnl : option number
}.

(** [{ leverage: 100 }] *)
Definition init : t :=
  Make (Some (int 100)) None None None None None None None None.

Definition set_leverage (v : number) (p : t) : t :=
  Make (Some v) (coin p) (quantity p) (openPrice p) (closePrice p)
       (openTime p) (closeTime p) (fee p) (pnl p).
Definition set_coin (v : text) (p : t) : t :=
  Make (leverage p) (Some v) (quantity p) (openPrice p) (closePrice p)
       (openTime p) (closeTime p) (fee p) (pnl p).
Definition set_quantity (v : number) (p : t) : t :=
  Make (leverage p) (coin p) (Some v) (openPrice p) (closePrice p)
       (openTime p) (closeTime p) (fee p) (pnl p).
Definition set_openPrice (v : number) (p : t) : t :=
  Make (leverage p) (coin p) (quantity p) (Some v) (closePrice p)
       (openTime p) (closeTime p) (fee p) (pnl p).
Definition set_closePrice (v : number) (p : t) : t :=
  Make (leverage p) (coin p) (quantity p) (openPrice p) (Some v)
       (openTime p) (closeTime p) (fee p) (pnl p).
Definition set_openTime (v : option text) (p : t) : t :=
  Make (leverage p) (coin p) (quantity p) (openPrice p) (closePrice p)
       (Some v) (closeTime p) (fee p) (pnl p).
Definition set_closeTime (v : option text) (p : t) : t :=
  Make (leverage p) (coin p) (quantity p) (openPrice p) (closePrice p)
       (openTime p) (Some v) (fee p) (pnl p).
Definition set_fee (v : number) (p : t) : t :=
  Make (leverage p) (coin p) (quantity p) (openPrice p) (closePrice p)
       (openTime p) (closeTime p) (Some v) (pnl p).
Definition set_pnl (v : number) (p : t) : t :=
  Make (leverage p) (coin p) (quantity p) (openPrice p) (closePrice p)
       (openTime p) (closeTime p) (fee p) (Some v).

End Partial.

(** The record [parseTradeTextSmart] resolves to.  [openTime] can hold
    [undefined] ([None]); [closePrice] and [closeTime] are optional
    keys. *)
Module Trade.

Record t : Type := Make {
  uid : text;
  leverage : number;
  openPrice : number;
  openTime : option text;
  quantity : number;
  coin : text;
  fee : number;
  pnl : number;
  closePrice : option number;
  closeTime : option (option text)
}.

End Trade.

(* ===================================================================== *)
(** * The format detectors *)
(* ===================================================================== *)

Module Detect.

(** [[\d.,]], [[-\d.,]], [[+-\d.,]], [[A-Z]], [[^\n]] *)
Definition num : atom := Class false [CDigit; CChar DOT; CChar COMMA].
Definition fee_num : atom :=
  Class false [CChar MINUS; CDigit; CChar DOT; CChar COMMA].
Definition pnl_num : atom :=
  Class false [CChar PLUS; CChar MINUS; CDigit; CChar DOT; CChar COMMA].
Definition AZ : atom := Class false [CRange 65%N 90%N].
Definition not_LF : atom := Class true [CChar LF].

(** [\s*\n\s*] *)
Definition nl : regex := seq [star Space; Atom (Lit LF); star Space].

(** [\d{4}-\d{2}-\d{2}] then [sep] then [\d{2}:\d{2}:\d{2}] *)
Definition iso_stamp (sep : regex) : regex :=
  seq [times 4 Digit; Atom (Lit MINUS); times 2 Digit; Atom (Lit MINUS);
       times 2 Digit; sep; times 2 Digit; Atom (Lit COLON); times 2 Digit;
       Atom (Lit COLON); times 2 Digit].

(** [if (m) trade = f(m, trade)] for [m = text.match(p)] *)
Definition on_match (p : pattern) (text : text)
    (f : found -> Partial.t -> Partial.t) (trade : Partial.t) : Partial.t :=
  match exec p text with
  | Some m => f m trade
  | None => trade
  end.

(** [captured.replace(' ', 'T')] *)
Definition toT (s : text) : text := replace_first SP 84%N s.

(** [!trade.coin] *)
Definition no_coin (trade : Partial.t) : bool :=
  match Partial.coin trade with
  | Some (_ :: _) => false
  | _ => true
  end.

(** ** Captions written outside ASCII *)

(** 'Giá Mở', 'Giá Đóng', 'Ngày', 'Phí', 'Đòn Bẩy' *)
Definition GiaMo : text := [71; 105; 225; 32; 77; 7903]%N.
Definition GiaDong : text := [71; 105; 225; 32; 272; 243; 110; 103]%N.
Definition Ngay : text := [78; 103; 224; 121]%N.
Definition Phi : text := [80; 104; 237]%N.
Definition DonBay : text := [272; 242; 110; 32; 66; 7849; 121]%N.

(** ** 1. Aivora VN *)

(** [/Coin\s*\n\s*([A-Z]+)/i] *)
Definition vn_coin : pattern :=
  Pattern (seq [str (lit "Coin"); nl; Grp 1 (plus AZ)]) 1 true.
(** [/SL\s*\n\s*([\d.,]+)/i] *)
Definition vn_qty : pattern :=
  Pattern (seq [str (lit "SL"); nl; Grp 1 (plus num)]) 1 true.
(** [/Giá Mở\s*\n\s*([\d.,]+)/i] *)
Definition vn_openPrice : pattern :=
  Pattern (seq [str GiaMo; nl; Grp 1 (plus num)]) 1 true.
(** [/Giá Đóng\s*\n\s*([\d.,]+)/i] *)
Definition vn_closePrice : pattern :=
  Pattern (seq [str GiaDong; nl; Grp 1 (plus num)]) 1 true.
(** [/Ngày\s*\n\s*(\d{2}\/\d{2}\/\d{4}\s+\d{2}:\d{2}:\d{2}\s*(?:SA|CH)?)/gi] *)
Definition vn_date : pattern :=
  Pattern
    (seq [str Ngay; nl;
          Grp 1 (seq [times 2 Digit; Atom (Lit SLASH); times 2 Digit;
                      Atom (Lit SLASH); times 4 Digit; plus Space;
                      times 2 Digit; Atom (Lit COLON); times 2 Digit;
                      Atom (Lit COLON); times 2 Digit; star Space;
                      Opt (Alt (str (lit "SA")) (str (lit "CH")))])])
    1 true.
(** [/Phí\s*\n\s*([-\d.,]+)/i] *)
Definition vn_fee : pattern :=
  Pattern (seq [str Phi; nl; Grp 1 (plus fee_num)]) 1 true.
(** [/PnL\s*\n\s*([+-\d.,]+)/i] *)
Definition vn_pnl : pattern :=
  Pattern (seq [str (lit "PnL"); nl; Grp 1 (plus pnl_num)]) 1 true.
(** [/Đòn Bẩy\s*\n\s*(\d+)/i] *)
Definition vn_lev : pattern :=
  Pattern (seq [str DonBay; nl; Grp 1 (plus Digit)]) 1 true.

Definition vn_dates (text : text) (trade : Partial.t) : Partial.t :=
  match matchAll vn_date text with
  | [] => trade
  | d0 :: rest =>
      let trade := Partial.set_openTime (parseCustomDate (group 1 d0)) trade in
      match rest with
      | d1 :: _ => Partial.set_closeTime (parseCustomDate (group 1 d1)) trade
      | [] => trade
      end
  end.

Definition parseFormatVN (text : text) : option Partial.t :=
  if negb (includes GiaMo text) && negb (includes GiaDong text) then None
  else
    let trade := Partial.init in
    let trade := on_match vn_coin text
      (fun m => Partial.set_coin (group 1 m)) trade in
    let trade := on_match vn_qty text
      (fun m => Partial.set_quantity (parseNumber (group 1 m))) trade in
    let trade := on_match vn_openPrice text
      (fun m => Partial.set_openPrice (parseNumber (group 1 m))) trade in
    let trade := on_match vn_closePrice text
      (fun m => Partial.set_closePrice (parseNumber (group 1 m))) trade in
    let trade := vn_dates text trade in
    let trade := on_match vn_fee text
      (fun m => Partial.set_fee (abs (parseNumber (group 1 m)))) trade in
    let trade := on_match vn_pnl text
      (fun m => Partial.set_pnl (parseNumber (group 1 m))) trade in
    let trade := on_match vn_lev text
      (fun m => Partial.set_leverage (number_of_int (parseInt (group 1 m))))
      trade in
    Some trade.

(** ** 2. Aivora English (grid) *)

(** [/Open Time\s*\n\s*Opening Average Price\s*\n\s*Close Time/i] *)
Definition grid_stacked : pattern :=
  Pattern (seq [str (lit "Open Time"); nl; str (lit "Opening Average Price");
                nl; str (lit "Close Time")]) 0 true.
(** The pattern, here broken over lines:
      /Open Time\s*\n\s*Opening Average Price\s*\n\s*Close Time\s*\n\s*
      (\d{4}-\d{2}-\d{2}\s\d{2}:\d{2}:\d{2})\s*\n\s*([\d.,]+)\s*\n\s*
      (\d{4}-\d{2}-\d{2}\s\d{2}:\d{2}:\d{2})/i
    *)
Definition grid_headerStack : pattern :=
  Pattern (seq [str (lit "Open Time"); nl; str (lit "Opening Average Price");
                nl; str (lit "Close Time"); nl;
                Grp 1 (iso_stamp (Atom Space)); nl; Grp 2 (plus num); nl;
                Grp 3 (iso_stamp (Atom Space))]) 3 true.
(** The pattern, here broken over lines:
      /Closing Average Price\s*\n\s*Position Size\s*\n\s*
      Funding Fee\s*\n\s*([\d.,]+)\s*\n\s*([\d.,]+)\s*([A-Z]+)/i
    *)
Definition grid_closeStack : pattern :=
  Pattern (seq [str (lit "Closing Average Price"); nl;
                str (lit "Position Size"); nl; str (lit "Funding Fee"); nl;
                Grp 1 (plus num); nl; Grp 2 (plus num); star Space;
                Grp 3 (plus AZ)]) 3 true.
(** The pattern, here broken over lines:
      /Fees\s*\n\s*Position PnL\s*\n\s*Realized PnL\s*\n\s*
      ([-\d.,]+)[^\n]*\n\s*([+-\d.,]+)/i
    *)
Definition grid_feePnl : pattern :=
  Pattern (seq [str (lit "Fees"); nl; str (lit "Position PnL"); nl;
                str (lit "Realized PnL"); nl; Grp 1 (plus fee_num);
                star not_LF; Atom (Lit LF); star Space;
                Grp 2 (plus pnl_num)]) 2 true.
(** The pattern, here broken over lines:
      /Open Time\s*\n\s*Opening Average Price\s*\n\s*
      (\d{4}-\d{2}-\d{2}\s\d{2}:\d{2}:\d{2})\s*\n\s*([\d.,]+)/i
    *)
Definition grid_openBlock : pattern :=
  Pattern (seq [str (lit "Open Time"); nl; str (lit "Opening Average Price");
                nl; Grp 1 (iso_stamp (Atom Space)); nl; Grp 2 (plus num)])
    2 true.
(** The pattern, here broken over lines:
      /Close Time\s*\n\s*Closing Average Price\s*\n\s*
      (\d{4}-\d{2}-\d{2}\s\d{2}:\d{2}:\d{2})\s*\n\s*([\d.,]+)/i
    *)
Definition grid_closeBlock : pattern :=
  Pattern (seq [str (lit "Close Time"); nl;
                str (lit "Closing Average Price"); nl;
                Grp 1 (iso_stamp (Atom Space)); nl; Grp 2 (plus num)])
    2 true.
(** [/Position Size\s*\n\s*Funding Fee\s*\n\s*([\d.,]+)\s*([A-Z]+)/i] *)
Definition grid_qtyBlock : pattern :=
  Pattern (seq [str (lit "Position Size"); nl; str (lit "Funding Fee"); nl;
                Grp 1 (plus num); star Space; Grp 2 (plus AZ)]) 2 true.
(** [/Fees\s*\n\s*Position PnL\s*\n\s*([-\d.,]+)[^\n]*\n\s*([+-\d.,]+)/i] *)
Definition grid_feePnlBlock : pattern :=
  Pattern (seq [str (lit "Fees"); nl; str (lit "Position PnL"); nl;
                Grp 1 (plus fee_num); star not_LF; Atom (Lit LF);
                star Space; Grp 2 (plus pnl_num)]) 2 true.
(** [/^([A-Z]+)USDT/i] *)
Definition usdt_coin : pattern :=
  Pattern (seq [Bol; Grp 1 (plus AZ); str (lit "USDT")]) 1 true.
(** [/(\d+)X/] and [/(\d+)X/i] *)
Definition lev_X : pattern :=
  Pattern (seq [Grp 1 (plus Digit); Atom (Lit 88%N)]) 1 false.
Definition lev_X_i : pattern :=
  Pattern (seq [Grp 1 (plus Digit); Atom (Lit 88%N)]) 1 true.

Definition parseFormatAivoraGrid (text : text) : option Partial.t :=
  if negb (includes (lit "Open Time") text) then None
  else
    let trade := Partial.init in
    let isFormatStacked := test grid_stacked text in
    let trade :=
      if isFormatStacked then
        let trade := on_match grid_headerStack text
          (fun m trade =>
             Partial.set_closeTime (Some (toT (group 3 m)))
               (Partial.set_openPrice (parseNumber (group 2 m))
                  (Partial.set_openTime (Some (toT (group 1 m))) trade)))
          trade in
        let trade := on_match grid_closeStack text
          (fun m trade =>
             Partial.set_coin (group 3 m)
               (Partial.set_quantity (parseNumber (group 2 m))
                  (Partial.set_closePrice (parseNumber (group 1 m)) trade)))
          trade in
        on_match grid_feePnl text
          (fun m trade =>
             Partial.set_pnl (parseNumber (group 2 m))
               (Partial.set_fee (abs (parseNumber (group 1 m))) trade))
          trade
      else
        let trade := on_match grid_openBlock text
          (fun m trade =>
             Partial.set_openPrice (parseNumber (group 2 m))
               (Partial.set_openTime (Some (toT (group 1 m))) trade))
          trade in
        let trade := on_match grid_closeBlock text
          (fun m trade =>
             Partial.set_closePrice (parseNumber (group 2 m))
               (Partial.set_closeTime (Some (toT (group 1 m))) trade))
          trade in
        let trade := on_match grid_qtyBlock text
          (fun m trade =>
             Partial.set_coin (group 2 m)
               (Partial.set_quantity (parseNumber (group 1 m)) trade))
          trade in
        on_match grid_feePnlBlock text
          (fun m trade =>
             Partial.set_pnl (parseNumber (group 2 m))
               (Partial.set_fee (abs (parseNumber (group 1 m))) trade))
          trade in
    let trade :=
      if no_coin trade
      then on_match usdt_coin text (fun m => Partial.set_coin (group 1 m)) trade
      else trade in
    let trade := on_match lev_X text
      (fun m => Partial.set_leverage (number_of_int (parseInt (group 1 m))))
      trade in
    Some trade.

(** ** 3. Aivora English (old style) *)

(** [/Opening Average Price\s*\n\s*([\d.,]+)/i] *)
Definition en_stdOpen : pattern :=
  Pattern (seq [str (lit "Opening Average Price"); nl; Grp 1 (plus num)])
    1 true.
(** [/(\d{4}-\d{2}-\d{2}\s+\d{2}:\d{2}:\d{2})/i] *)
Definition en_date : pattern :=
  Pattern (Grp 1 (iso_stamp (plus Space))) 1 true.
(** [/Closing Average Price\s*\n\s*([\d.,]+)/i] *)
Definition en_stdClose : pattern :=
  Pattern (seq [str (lit "Closing Average Price"); nl; Grp 1 (plus num)])
    1 true.
(** [/(?:Volume|Position Size)\s*\n?\s*([\d.,]+)\s+([A-Z]+)/i] *)
Definition en_vol : pattern :=
  Pattern (seq [Alt (str (lit "Volume")) (str (lit "Position Size"));
                star Space; maybe (Lit LF); star Space; Grp 1 (plus num);
                plus Space; Grp 2 (plus AZ)]) 2 true.
(** [/Fees\s*\n\s*([-\d.,]+)/i] *)
Definition en_fee : pattern :=
  Pattern (seq [str (lit "Fees"); nl; Grp 1 (plus fee_num)]) 1 true.
(** [/Position PnL\s*\n\s*([+-\d.,]+)/i] *)
Definition position_pnl : pattern :=
  Pattern (seq [str (lit "Position PnL"); nl; Grp 1 (plus pnl_num)]) 1 true.

Definition parseFormatAivoraEn (text : text) : option Partial.t :=
  if negb (includes (lit "Opening Average Price") text)
     || includes (lit "Time Opened") text
  then None
  else
    let trade := Partial.init in
    let trade := on_match en_stdOpen text
      (fun m => Partial.set_openPrice (parseNumber (group 1 m))) trade in
    let trade := on_match en_date text
      (fun m => Partial.set_openTime (Some (toT (group 1 m)))) trade in
    let trade := on_match en_stdClose text
      (fun m => Partial.set_closePrice (parseNumber (group 1 m))) trade in
    let trade := on_match en_vol text
      (fun m trade =>
         Partial.set_coin (group 2 m)
           (Partial.set_quantity (parseNumber (group 1 m)) trade))
      trade in
    let trade := on_match en_fee text
      (fun m => Partial.set_fee (abs (parseNumber (group 1 m)))) trade in
    let trade := on_match position_pnl text
      (fun m => Partial.set_pnl (parseNumber (group 1 m))) trade in
    let trade := on_match lev_X_i text
      (fun m => Partial.set_leverage (number_of_int (parseInt (group 1 m))))
      trade in
    Some trade.

(** ** 4. Bitunix mobile *)

(** [/Time Opened\s*\n\s*(\d{4}-\d{2}-\d{2}\s\d{2}:\d{2}:\d{2})/i] *)
Definition mob_openTime : pattern :=
  Pattern (seq [str (lit "Time Opened"); nl; Grp 1 (iso_stamp (Atom Space))])
    1 true.
(** [/Entry Price\s*\n\s*([\d.,]+)/i] *)
Definition entry_price : pattern :=
  Pattern (seq [str (lit "Entry Price"); nl; Grp 1 (plus num)]) 1 true.
(** [/Time Closed\s*\n\s*(\d{4}-\d{2}-\d{2}\s\d{2}:\d{2}:\d{2})/i] *)
Definition mob_closeTime : pattern :=
  Pattern (seq [str (lit "Time Closed"); nl; Grp 1 (iso_stamp (Atom Space))])
    1 true.
(** [/Close Price\s*\n\s*([\d.,]+)/i] *)
Definition mob_closePrice : pattern :=
  Pattern (seq [str (lit "Close Price"); nl; Grp 1 (plus num)]) 1 true.
(** [(?:Max held|Closed Qty\.?)] *)
Definition qty_caption : regex :=
  Alt (str (lit "Max held")) (seq [str (lit "Closed Qty"); maybe (Lit DOT)]).
(** [/(?:Max held|Closed Qty\.?)\s*\n\s*([\d.,]+)/i] *)
Definition mob_qty : pattern :=
  Pattern (seq [qty_caption; nl; Grp 1 (plus num)]) 1 true.
(** [/(?:Max held|Closed Qty\.?)\s*\n\s*[\d.,]+\s*\n\s*([A-Z]+)/i] *)
Definition mob_coinUnderQty : pattern :=
  Pattern (seq [qty_caption; nl; plus num; nl; Grp 1 (plus AZ)]) 1 true.
(** [/Closing PnL\s*\n\s*([+-\d.,]+)/i] *)
Definition closing_pnl : pattern :=
  Pattern (seq [str (lit "Closing PnL"); nl; Grp 1 (plus pnl_num)]) 1 true.
(** [/Fees?\s*\n\s*([-\d.,]+)/i] *)
Definition mob_fee : pattern :=
  Pattern (seq [str (lit "Fee"); maybe (Lit 115%N); nl; Grp 1 (plus fee_num)])
    1 true.

(** The PnL of the mobile layout: "Closing PnL" when it is there,
    "Position PnL" otherwise. *)
Definition mobile_pnl (text : text) (trade : Partial.t) : Partial.t :=
  match exec closing_pnl text with
  | Some closingPnlMatch =>
      Partial.set_pnl (parseNumber (group 1 closingPnlMatch)) trade
  | None =>
      on_match position_pnl text
        (fun m => Partial.set_pnl (parseNumber (group 1 m))) trade
  end.

Definition parseFormatBitunixMobile (text : text) : option Partial.t :=
  if negb (includes (lit "Time Opened") text) then None
  else
    let trade := Partial.init in
    let trade := on_match usdt_coin text
      (fun m => Partial.set_coin (group 1 m)) trade in
    let trade := on_match lev_X text
      (fun m => Partial.set_leverage (number_of_int (parseInt (group 1 m))))
      trade in
    let trade := on_match mob_openTime text
      (fun m => Partial.set_openTime (Some (toT (group 1 m)))) trade in
    let trade := on_match entry_price text
      (fun m => Partial.set_openPrice (parseNumber (group 1 m))) trade in
    let trade := on_match mob_closeTime text
      (fun m => Partial.set_closeTime (Some (toT (group 1 m)))) trade in
    let trade := on_match mob_closePrice text
      (fun m => Partial.set_closePrice (parseNumber (group 1 m))) trade in
    let trade := on_match mob_qty text
      (fun m => Partial.set_quantity (parseNumber (group 1 m))) trade in
    let trade :=
      if no_coin trade
      then on_match mob_coinUnderQty text
             (fun m => Partial.set_coin (group 1 m)) trade
      else trade in
    let trade := mobile_pnl text trade in
    let trade := on_match mob_fee text
      (fun m => Partial.set_fee (abs (parseNumber (group 1 m)))) trade in
    Some trade.

(** ** 5. Bitunix web *)

(** [/Exit Price\s*\n\s*([\d.,]+)/i] *)
Definition web_exit : pattern :=
  Pattern (seq [str (lit "Exit Price"); nl; Grp 1 (plus num)]) 1 true.
(** [/Open Time\s*\n\s*(\d{4}-\d{2}-\d{2}\s\d{2}:\d{2}:\d{2})/i] *)
Definition web_openTime : pattern :=
  Pattern (seq [str (lit "Open Time"); nl; Grp 1 (iso_stamp (Atom Space))])
    1 true.

Definition parseFormatBitunixWeb (text : text) : option Partial.t :=
  if negb (includes (lit "Entry Price") text)
     || negb (includes (lit "Time Opened") text)
  then None
  else
    let trade := Partial.init in
    let trade := on_match entry_price text
      (fun m => Partial.set_openPrice (parseNumber (group 1 m))) trade in
    let trade := on_match web_exit text
      (fun m => Partial.set_closePrice (parseNumber (group 1 m))) trade in
    let trade := on_match web_openTime text
      (fun m => Partial.set_openTime (Some (toT (group 1 m)))) trade in
    let trade := on_match position_pnl text
      (fun m => Partial.set_pnl (parseNumber (group 1 m))) trade in
    Some trade.

(** ** Tabular *)

(** [/^\d/] *)
Definition leading_digit : pattern := Pattern (seq [Bol; Atom Digit]) 0 false.

(** [parts[i]]; the detector reads it only for [i] below the length. *)
Definition part (i : nat) (parts : list text) : text := nth i parts [].

Definition parseFormatTabular (text : text) : option Partial.t :=
  let parts := split TAB text in
  if Nat.ltb (length parts) 8 then None
  else if negb (test leading_digit (trim (part 0 parts))) then None
  else
    let trade := Partial.init in
    let trade := Partial.set_openPrice (parseNumber (part 0 parts)) trade in
    let trade := Partial.set_closePrice (parseNumber (part 1 parts)) trade in
    let trade := Partial.set_openTime (parseCustomDate (part 2 parts)) trade in
    let trade := Partial.set_closeTime (parseCustomDate (part 3 parts)) trade in
    let trade := Partial.set_quantity (parseNumber (part 4 parts)) trade in
    let trade := Partial.set_coin (trim (part 5 parts)) trade in
    let trade := Partial.set_fee (abs (parseNumber (part 6 parts))) trade in
    let trade := Partial.set_pnl (parseNumber (part 7 parts)) trade in
    Some trade.

End Detect.

Import Detect.

(* ===================================================================== *)
(** * The cascade dispatcher *)
(* ===================================================================== *)

(** What the promise of the collaborator, and of [parseTradeTextSmart],
    settles to. *)
Inductive settled : Type :=
| Resolved (trade : Trade.t)
| Rejected (reason : text).

(** The actions of [parseTradeTextSmart]: it reads the clock
    ([new Date().toISOString()]) and it calls the Gemini collaborator
    ([parseWithGemini]). *)
Inductive io (A : Type) : Type :=
| Ret (a : A)
| Now (k : text -> io A)
| Gemini (request : text) (k : settled -> io A).

Arguments Ret {A} a.
Arguments Now {A} k.
Arguments Gemini {A} request k.

Inductive event : Type :=
| ReadClock
| CallGemini (request : text).

(** An environment answers the two actions. *)
Record env : Type := Env {
  clock : text;
  gemini : text -> settled
}.

Fixpoint result {A} (e : env) (p : io A) : A :=
  match p with
  | Ret a => a
  | Now k => result e (k (clock e))
  | Gemini request k => result e (k (gemini e request))
  end.

Fixpoint events {A} (e : env) (p : io A) : list event :=
  match p with
  | Ret _ => []
  | Now k => ReadClock :: events e (k (clock e))
  | Gemini request k => CallGemini request :: events e (k (gemini e request))
  end.

(** [a || b] on detector results: an object is always truthy. *)
Definition or_else (a b : option Partial.t) : option Partial.t :=
  match a with
  | Some _ => a
  | None => b
  end.

Definition smartParse (text : text) : option Partial.t :=
  or_else (parseFormatTabular text)
    (or_else (parseFormatVN text)
       (or_else (parseFormatAivoraGrid text)
          (or_else (parseFormatBitunixMobile text)
             (or_else (parseFormatAivoraEn text)
                (parseFormatBitunixWeb text))))).

Definition truthy_number (x : option number) : bool :=
  match x with
  | Some v => truthy v
  | None => false
  end.

Definition truthy_text (x : option text) : bool :=
  match x with
  | Some (_ :: _) => true
  | _ => false
  end.

(** [smartParse.openPrice && (smartParse.quantity || smartParse.coin)] *)
Definition gate (p : Partial.t) : bool :=
  truthy_number (Partial.openPrice p)
  && (truthy_number (Partial.quantity p) || truthy_text (Partial.coin p)).

Definition or_default {A} (x : option A) (d : A) : A :=
  match x with
  | Some v => v
  | None => d
  end.

(** [{ uid: '', leverage: 100, openPrice: 0, openTime: now, quantity: 0,
      coin: 'ETH', fee: 0, pnl: 0, ...smartParse }] *)
Definition merge (now : text) (p : Partial.t) : Trade.t :=
  Trade.Make []
    (or_default (Partial.leverage p) (int 100))
    (or_default (Partial.openPrice p) (int 0))
    (or_default (Partial.openTime p) (Some now))
    (or_default (Partial.quantity p) (int 0))
    (or_default (Partial.coin p) (lit "ETH"))
    (or_default (Partial.fee p) (int 0))
    (or_default (Partial.pnl p) (int 0))
    (Partial.closePrice p)
    (Partial.closeTime p).

Definition parseTradeTextSmart (text : text) : io settled :=
  match smartParse text with
  | Some p =>
      if gate p
      then Now (fun now => Ret (Resolved (merge now p)))
      else Gemini text (fun reply => Ret reply)
  | None => Gemini text (fun reply => Ret reply)
  end.


(* ===================================================================== *)
(** * Notions the statements are written with *)
(* ===================================================================== *)

(** ** Positions in a text *)

(** [s'] is what remains of [s] at position [p'], when [s] starts at
    position [pos]. *)
Definition reached (pos : nat) (s : text) (p' : nat) (s' : text) : Prop :=
  exists n, n <= length s /\ p' = pos + n /\ s' = skipn n s.

(** ** Shapes of tokens *)

(** What [strip] keeps. *)
Definition numeric (c : char) : bool :=
  is_digit c || N.eqb c DOT || N.eqb c COMMA || N.eqb c MINUS.


(** The first ten characters read YYYY-MM-DD. *)
Definition iso_shape (s : text) : bool :=
  match s with
  | y1 :: y2 :: y3 :: y4 :: a :: m1 :: m2 :: b :: d1 :: d2 :: _ =>
      is_digit y1 && is_digit y2 && is_digit y3 && is_digit y4
      && N.eqb a MINUS && is_digit m1 && is_digit m2
      && N.eqb b MINUS && is_digit d1 && is_digit d2
  | _ => false
  end.

(** The first ten characters read DD/MM/YYYY. *)
Definition slash_shape (s : text) : bool :=
  match s with
  | d1 :: d2 :: a :: m1 :: m2 :: b :: y1 :: y2 :: y3 :: y4 :: _ =>
      is_digit d1 && is_digit d2 && N.eqb a SLASH
      && is_digit m1 && is_digit m2 && N.eqb b SLASH
      && is_digit y1 && is_digit y2 && is_digit y3 && is_digit y4
  | _ => false
  end.

Definition starts_iso_date (s : text) : Prop :=
  exists y m d rest,
    s = y ++ MINUS :: m ++ MINUS :: d ++ rest
    /\ length y = 4 /\ length m = 2 /\ length d = 2
    /\ forallb is_digit (y ++ m ++ d) = true.

Definition starts_slash_date (s : text) : Prop :=
  exists d m y rest,
    s = d ++ SLASH :: m ++ SLASH :: y ++ rest
    /\ length d = 2 /\ length m = 2 /\ length y = 4
    /\ forallb is_digit (d ++ m ++ y) = true.

(** ** Date tokens *)

(** No meridiem, or SA or CH in either case. *)
Definition meridiem_token (mer : text) : Prop :=
  mer = [] \/ toUpperCase mer = lit "SA" \/ toUpperCase mer = lit "CH".

(** The 24-hour value of hour [h] under a meridiem: CH adds 12 below 12,
    SA turns 12 into 0. *)
Definition hour_of (h : N) (mer : text) : N :=
  if text_eqb (toUpperCase mer) (lit "CH")
  then (if N.ltb h 12 then h + 12 else h)%N
  else if text_eqb (toUpperCase mer) (lit "SA")
  then (if N.eqb h 12 then 0 else h)%N
  else h.

(** A number below 100 written with two digits. *)
Definition two_digits (n : N) : text := [(48 + n / 10)%N; (48 + n mod 10)%N].

Section Token.

Variables day month year hour minute second ws1 ws2 mer : text.

(** D(D)/M(M)/YYYY H(H):MM:SS with an optional meridiem. *)
Definition date_token : text :=
  day ++ SLASH :: month ++ SLASH :: year ++ ws1 ++ hour ++ COLON ::
  minute ++ COLON :: second ++ ws2 ++ mer.

(** YYYY-MM-DDTHH:MM:SS *)
Definition canonical : text :=
  year ++ [MINUS] ++ two_digits (digits_value month)
  ++ [MINUS] ++ two_digits (digits_value day)
  ++ lit "T" ++ two_digits (hour_of (digits_value hour) mer)
  ++ [COLON] ++ minute ++ [COLON] ++ second.

End Token.

(** ** Captions and their values *)

(** [s] begins with [cap], letter case aside. *)
Fixpoint ci_prefix (cap s : text) : bool :=
  match cap, s with
  | [], _ => true
  | p :: cap', c :: s' => N.eqb (to_upper p) (to_upper c) && ci_prefix cap' s'
  | _ :: _, [] => false
  end.

(** [/cap\s*\n\s*(cls+)/i] *)
Definition labelled (cap : text) (cls : atom) : pattern :=
  Pattern (seq [str cap; nl; Grp 1 (plus cls)]) 1 true.

(** The first place where [text] reads [cap] (in any letter case) is at
    the end of [pre]; white space with a line break follows, and then
    the value [v], which is the whole run of [cls] characters there. *)
Definition first_labelled (cap : text) (cls : atom) (text pre v : text)
    : Prop :=
  exists cap' w1 w2 rest,
    text = pre ++ cap' ++ w1 ++ LF :: w2 ++ v ++ rest
    /\ length cap' = length cap
    /\ ci_prefix cap cap' = true
    /\ (forall i, i < length pre -> ci_prefix cap (skipn i text) = false)
    /\ forallb is_space w1 = true
    /\ forallb is_space w2 = true
    /\ ~ In LF w2
    /\ v <> []
    /\ forallb (atom_match true cls) v = true
    /\ match rest with
       | [] => True
       | c :: _ => atom_match true cls c = false
       end.

(** [text] reads [cap] nowhere. *)
Definition caption_absent (cap text : text) : Prop :=
  forall i, ci_prefix cap (skipn i text) = false.

(** ** Values *)

(** The finite number [x] is the rational [q]. *)
Definition denotes (x : number) (q : Q) : Prop :=
  match value x with
  | Some v => Qeq v q
  | None => False
  end.

Definition holds (x : option number) (q : Q) : Prop :=
  match x with
  | Some v => denotes v q
  | None => False
  end.

(** ** The cascade *)

Definition detector : Type := text -> option Partial.t.

(** The detectors in the order [parseTradeTextSmart] tries them. *)
Definition detectors : list detector :=
  [parseFormatTabular; parseFormatVN; parseFormatAivoraGrid;
   parseFormatBitunixMobile; parseFormatAivoraEn; parseFormatBitunixWeb].

(** The record the dispatcher accepts, if any: the answer of the chain
    of detectors when it passes the gate. *)
Definition accepted (text : text) : option Partial.t :=
  match smartParse text with
  | Some p => if gate p then Some p else None
  | None => None
  end.

Fixpoint first_match (ds : list detector) (text : text) : option Partial.t :=
  match ds with
  | [] => None
  | d :: ds' => or_else (d text) (first_match ds' text)
  end.

(** The cascade as the specification words it: the gate is applied to
    the result of each detector, and a result that fails it counts as no
    match, so that the next detector is tried. *)
Definition gated (d : detector) : detector :=
  fun text =>
    match d text with
    | Some p => if gate p then Some p else None
    | None => None
    end.

Definition gated_cascade (text : text) : option Partial.t :=
  first_match (map gated detectors) text.

(** No detector yields a result that passes the gate. *)
Definition none_passes (text : text) : bool :=
  forallb (fun d : detector =>
             match d text with
             | Some p => negb (gate p)
             | None => true
             end) detectors.

(** The fee of a partial record, when set, is an absolute value. *)
Definition fee_abs (p : Partial.t) : Prop :=
  match Partial.fee p with
  | Some f => exists x, f = abs x
  | None => True
  end.

(** ** Sample inputs *)

Definition lines (ls : list text) : text :=
  concat (map (fun l => l ++ [LF]) (removelast ls)) ++ last ls [].

Definition tabbed (fields : list text) : text :=
  concat (map (fun f => f ++ [TAB]) (removelast fields)) ++ last fields [].

(** The row of the specification. *)
Definition sample_row : text :=
  tabbed [lit "2860,90"; lit "2827,45"; lit "1/12/2025 10:19:16";
          lit "1/12/2025 10:39:12"; lit "15,00"; lit "ETH"; lit "42,66";
          lit "-501,75"].

(** The same row with a ninth column. *)
Definition nine_fields : text :=
  tabbed [lit "2860,90"; lit "2827,45"; lit "1/12/2025 10:19:16";
          lit "1/12/2025 10:39:12"; lit "15,00"; lit "ETH"; lit "42,66";
          lit "-501,75"; lit "note"].

(** The same row with a blank before the first price. *)
Definition padded_row : text := SP :: sample_row.

(** The same row with a fee that is not a number. *)
Definition unreadable_fee : text :=
  tabbed [lit "2860,90"; lit "2827,45"; lit "1/12/2025 10:19:16";
          lit "1/12/2025 10:39:12"; lit "15,00"; lit "ETH"; lit "n/a";
          lit "-501,75"].

(** A text with the anchor of the grid layout ("Open Time") and a
    complete mobile layout below it. *)
Definition grid_then_mobile : text :=
  lines [lit "Open Time"; lit "Time Opened"; lit "2025-01-01 10:00:00";
         lit "Entry Price"; lit "100"; lit "Max held"; lit "2"].

(** A mobile layout with both PnL captions, "Position PnL" first. *)
Definition two_pnl : text :=
  lines [lit "ETHUSDT 20X"; lit "Time Opened"; lit "2025-01-01 10:00:00";
         lit "Entry Price"; lit "100"; lit "Max held"; lit "2";
         lit "Position PnL"; lit "+7 USDT"; lit "Closing PnL";
         lit "-5,5 USDT"; lit "Fees"; lit "-0.3"].

(** A mobile layout without its opening time. *)
Definition mobile_no_time : text :=
  lines [lit "Time Opened"; lit "Entry Price"; lit "100"; lit "Max held";
         lit "2"].

Definition refuse : text -> settled := fun _ => Rejected [].

Definition morning : env := Env (lit "2025-01-01T08:00:00.000Z") refuse.

(* ===================================================================== *)
(** * The earlier generation of the parser *)
(* ===================================================================== *)

(** The source keeps the previous generation of the parser next to the
    current one.  Its [parseNumber] differs in the branch for a token
    with commas and no dot, where it always removes the commas.  Its
    chain of detectors ends with [parseFormatFixed] and
    [parseFormatBitunix]. *)
Module Legacy.

Definition separators (cleaned : text) : text :=
  let lastCommaIndex := lastIndexOf COMMA cleaned in
  let lastDotIndex := lastIndexOf DOT cleaned in
  if ((-1 <? lastCommaIndex) && (-1 <? lastDotIndex))%Z then
    if (lastDotIndex <? lastCommaIndex)%Z
    then replace_first COMMA DOT (remove_all DOT cleaned)
    else remove_all COMMA cleaned
  else if (-1 <? lastCommaIndex)%Z then remove_all COMMA cleaned
  else cleaned.

Definition parseNumber (str : text) : number :=
  match str with
  | [] => int 0
  | _ =>
      if test re_iso_prefix str then int 0
      else if test re_slash_prefix str then int 0
      else signed (isNegative str) (parseFloat (separators (unsigned str)))
  end.

(** The two last detectors of the earlier chain.  They read the same
    captions as the current mobile and web detectors where the pattern
    is the same, and they call the earlier [parseNumber]. *)

(** The pattern, here broken over lines:
      /Closed Qty\.?\s*\n\s*([\d.,]+)
       (?:\s*\n\s*|\s+)([A-Z]+)/i
    *)
Definition fixed_qty : pattern :=
  Pattern (seq [str (lit "Closed Qty"); maybe (Lit DOT); nl; Grp 1 (plus num);
                Alt nl (plus Space); Grp 2 (plus AZ)]) 2 true.
(** [/Close Time\s*\n\s*(\d{4}-\d{2}-\d{2}\s\d{2}:\d{2}:\d{2})/i] *)
Definition bitunix_closeTime : pattern :=
  Pattern (seq [str (lit "Close Time"); nl; Grp 1 (iso_stamp (Atom Space))])
    1 true.
(** [/Quantity\s*\n\s*([\d.,]+)\s+([A-Z]+)/i] *)
Definition bitunix_qty : pattern :=
  Pattern (seq [str (lit "Quantity"); nl; Grp 1 (plus num); plus Space;
                Grp 2 (plus AZ)]) 2 true.
(** [/Trading Fee\s*\n\s*([-\d.,]+)/i] *)
Definition bitunix_fee : pattern :=
  Pattern (seq [str (lit "Trading Fee"); nl; Grp 1 (plus fee_num)]) 1 true.

Definition parseFormatFixed (text : text) : option Partial.t :=
  if negb (includes (lit "Time Opened") text)
     && negb (includes (lit "Entry Price") text)
  then None
  else
    let trade := Partial.init in
    let trade := on_match mob_openTime text
      (fun m => Partial.set_openTime (Some (toT (group 1 m)))) trade in
    let trade := on_match entry_price text
      (fun m => Partial.set_openPrice (parseNumber (group 1 m))) trade in
    let trade := on_match mob_closeTime text
      (fun m => Partial.set_closeTime (Some (toT (group 1 m)))) trade in
    let trade := on_match mob_closePrice text
      (fun m => Partial.set_closePrice (parseNumber (group 1 m))) trade in
    let trade := on_match fixed_qty text
      (fun m trade =>
         Partial.set_coin (group 2 m)
           (Partial.set_quantity (parseNumber (group 1 m)) trade))
      trade in
    let trade := on_match en_fee text
      (fun m => Partial.set_fee (abs (parseNumber (group 1 m)))) trade in
    let closingPnlMatch := exec closing_pnl text in
    let posPnlMatch := exec position_pnl text in
    let trade :=
      match closingPnlMatch with
      | Some m => Partial.set_pnl (parseNumber (group 1 m)) trade
      | None =>
          match posPnlMatch with
          | Some m => Partial.set_pnl (parseNumber (group 1 m)) trade
          | None => trade
          end
      end in
    let trade := on_match lev_X_i text
      (fun m => Partial.set_leverage (number_of_int (parseInt (group 1 m))))
      trade in
    Some trade.

Definition parseFormatBitunix (text : text) : option Partial.t :=
  if negb (includes (lit "Entry Price") text)
     || includes (lit "Time Opened") text
  then None
  else
    let trade := Partial.init in
    let trade := on_match entry_price text
      (fun m => Partial.set_openPrice (parseNumber (group 1 m))) trade in
    let trade := on_match web_exit text
      (fun m => Partial.set_closePrice (parseNumber (group 1 m))) trade in
    let trade := on_match web_openTime text
      (fun m => Partial.set_openTime (Some (toT (group 1 m)))) trade in
    let trade := on_match bitunix_closeTime text
      (fun m => Partial.set_closeTime (Some (toT (group 1 m)))) trade in
    let trade := on_match bitunix_qty text
      (fun m trade =>
         Partial.set_coin (group 2 m)
           (Partial.set_quantity (parseNumber (group 1 m)) trade))
      trade in
    let trade := on_match bitunix_fee text
      (fun m => Partial.set_fee (abs (parseNumber (group 1 m)))) trade in
    let trade := on_match position_pnl text
      (fun m => Partial.set_pnl (parseNumber (group 1 m))) trade in
    let trade := on_match lev_X_i text
      (fun m => Partial.set_leverage (number_of_int (parseInt (group 1 m))))
      trade in
    Some trade.

End Legacy.

(* ===================================================================== *)
(** * Further notions *)
(* ===================================================================== *)

(** A whole part written in groups of digits: the first group, and each
    further group behind the separator [sep]. *)
Definition grouped (sep : char) (g0 : text) (gs : list text) : text :=
  g0 ++ concat (map (cons sep) gs).

(** The digits of all the groups. *)
Definition ungrouped (g0 : text) (gs : list text) : text := g0 ++ concat gs.



(** What [parseFloat] needs of a string of digits, dots, commas and
    minus signs to read a number: after one minus sign, if there is one,
    a digit, or a dot and a digit. *)
Definition reads_number (t : text) : bool :=
  let unsigned_part :=
    match t with
    | c :: t' => if N.eqb c MINUS then t' else t
    | [] => []
    end in
  match unsigned_part with
  | d :: rest =>
      is_digit d
      || (N.eqb d DOT
          && match rest with
             | d2 :: _ => is_digit d2
             | [] => false
             end)
  | [] => false
  end.


(** [s] begins with D(D)/M(M)/YYYY, white space and H(H):MM:SS. *)
Definition starts_date_token (s : text) : Prop :=
  exists day month year ws1 hour minute second tail,
    s = day ++ SLASH :: month ++ SLASH :: year ++ ws1 ++ hour ++ COLON ::
        minute ++ COLON :: second ++ tail
    /\ (forallb is_digit day = true /\ 1 <= length day <= 2)
    /\ (forallb is_digit month = true /\ 1 <= length month <= 2)
    /\ (forallb is_digit year = true /\ length year = 4)
    /\ (forallb is_space ws1 = true /\ ws1 <> [])
    /\ (forallb is_digit hour = true /\ 1 <= length hour <= 2)
    /\ (forallb is_digit minute = true /\ length minute = 2)
    /\ (forallb is_digit second = true /\ length second = 2).

(** The times of a partial record, when set, are strings. *)
Definition times_defined (p : Partial.t) : Prop :=
  Partial.openTime p <> Some None /\ Partial.closeTime p <> Some None.

(** At least eight tab-separated fields, the first of which begins with
    a digit once it is trimmed. *)
Definition tabular_shape (text : text) : bool :=
  Nat.leb 8 (length (split TAB text))
  && test leading_digit (trim (part 0 (split TAB text))).

(** [text] reads [cap] somewhere, letter case aside. *)
Definition mentions (cap text : text) : bool :=
  existsb (fun i => ci_prefix cap (skipn i text))
    (List.seq 0 (S (length text))).

(** The detectors that read captions, in their order. *)
Definition caption_detectors : list detector :=
  [parseFormatVN; parseFormatAivoraGrid; parseFormatBitunixMobile;
   parseFormatAivoraEn; parseFormatBitunixWeb].

(** A row whose third field is not a date. *)
Definition undated_row : text :=
  tabbed [lit "2860,90"; lit "2827,45"; lit "yesterday"; lit "today";
          lit "15,00"; lit "ETH"; lit "42,66"; lit "-501,75"].


(** The record the mobile detector makes of [mobile_no_time]. *)
Definition mobile_no_time_record : Partial.t :=
  Partial.Make (Some (int 100)) None (Some (int 2)) (Some (int 100)) None
    None None None None.

(** A text in the layout [Legacy.parseFormatBitunix] is written for. *)
Definition bitunix_standard : text :=
  lines [lit "ETHUSDT 20X"; lit "Entry Price"; lit "2860,5"; lit "Exit Price";
         lit "2827,4"; lit "Quantity"; lit "15 ETH"; lit "Trading Fee";
         lit "-0,3"].

(** A mobile layout whose closing PnL stands on the line of its caption. *)
Definition pnl_same_line : text :=
  lines [lit "Time Opened"; lit "2025-01-01 10:00:00"; lit "Entry Price";
         lit "100"; lit "Max held"; lit "2"; lit "Position PnL"; lit "+7 USDT";
         lit "Closing PnL -5 USDT"].

(** A mobile layout whose closing PnL stands behind a currency sign. *)
Definition pnl_currency : text :=
  lines [lit "Time Opened"; lit "2025-01-01 10:00:00"; lit "Entry Price";
         lit "100"; lit "Max held"; lit "2"; lit "Position PnL"; lit "+7";
         lit "Closing PnL"; lit "$-5.5"].

(** The two PnL captions and their values, without 'Time Opened'. *)
Definition pnl_no_anchor : text :=
  lines [lit "Position PnL"; lit "+7"; lit "Closing PnL"; lit "-5,5"].



(** A Vietnamese layout with its two dates. *)
Definition vn_sample : text :=
  lines [GiaMo; lit "2954,58"; Ngay; lit "17/12/2025 10:16:52 SA";
         Ngay; lit "17/12/2025 10:38:23 CH"; lit "SL"; lit "40,01"].

(** The record [parseFormatVN] makes of [vn_sample]. *)
Definition vn_sample_record : Partial.t :=
  Partial.Make (Some (int 100)) None (Some (Dec false 4001 (-2)))
    (Some (Dec false 295458 (-2))) None
    (Some (Some (lit "2025-12-17T10:16:52")))
    (Some (Some (lit "2025-12-17T22:38:23"))) None None.

(* ===================================================================== *)
(** * Facts about the matcher, the strings and the normalizers *)
(* ===================================================================== *)

Section MatcherFacts.

Variable icase : bool.
Variable A : Type.

Lemma orelse_None_r (x : option A) : orelse x None = x.
Proof. now destruct x. Qed.

(** An exact count [a{n}] takes the next [n] characters or fails. *)
Lemma rep_atom_exact a n :
  forall s c pos cs (k : cont A), c <= n ->
    rep_atom icase a n (Some n) c pos s cs k =
    if Nat.leb (n - c) (length s) && forallb (atom_match icase a) (firstn (n - c) s)
    then k (pos + (n - c)) (skipn (n - c) s) cs
    else None.
Proof.
  induction s as [|x s IH]; intros c pos cs k Hc; simpl rep_atom.
  - destruct (Nat.eq_dec c n) as [->|Hne].
    + rewrite Nat.leb_refl, Nat.sub_diag. simpl. now rewrite Nat.add_0_r.
    + replace (Nat.leb n c) with false by (symmetry; apply Nat.leb_gt; lia).
      replace (Nat.leb (n - c) (length (@nil char))) with false
        by (symmetry; apply Nat.leb_gt; simpl; lia).
      reflexivity.
  - destruct (Nat.eq_dec c n) as [->|Hne].
    + rewrite Nat.ltb_irrefl, andb_false_r, Nat.leb_refl, Nat.sub_diag.
      simpl. now rewrite Nat.add_0_r.
    + replace (Nat.leb n c) with false by (symmetry; apply Nat.leb_gt; lia).
      rewrite orelse_None_r.
      replace (n - c) with (S (n - S c)) by lia.
      replace (Nat.ltb c n) with true by (symmetry; apply Nat.ltb_lt; lia).
      rewrite andb_true_r. simpl firstn. simpl skipn. simpl forallb.
      simpl length. change (Nat.leb (S (n - S c)) (S (length s)))
        with (Nat.leb (n - S c) (length s)).
      destruct (atom_match icase a x).
      * rewrite IH by lia. simpl andb.
        replace (S pos + (n - S c)) with (pos + S (n - S c)) by lia.
        reflexivity.
      * simpl. now rewrite andb_false_r.
Qed.

Lemma run_times a n pos s cs (k : cont A) :
  run icase (times n a) pos s cs k =
  if Nat.leb n (length s) && forallb (atom_match icase a) (firstn n s)
  then k (pos + n) (skipn n s) cs
  else None.
Proof.
  unfold times. simpl run. rewrite rep_atom_exact by lia.
  now rewrite Nat.sub_0_r.
Qed.

(** A greedy quantifier that can take the whole run [ds], and no more,
    hands over to its continuation there first. *)
Lemma rep_atom_greedy a min max (k : cont A) r :
  forall ds rest n pos cs,
    forallb (atom_match icase a) ds = true ->
    (match max with Some m => n + length ds <= m | None => True end) ->
    (match rest with
     | [] => True
     | c :: _ => atom_match icase a c = false \/ max = Some (n + length ds)
     end) ->
    min <= n + length ds ->
    k (pos + length ds) rest cs = Some r ->
    rep_atom icase a min max n pos (ds ++ rest) cs k = Some r.
Proof.
  induction ds as [|d ds IH]; intros rest n pos cs Hds Hmax Hrest Hmin Hk.
  - simpl in *. rewrite Nat.add_0_r in *.
    assert (Hfirst :
      match rest with
      | c :: s' =>
          if atom_match icase a c && below max n
          then rep_atom icase a min max (S n) (S pos) s' cs k else None
      | [] => None
      end = None).
    { destruct rest as [|c rest']; [reflexivity|].
      destruct Hrest as [->| ->]; [reflexivity|].
      simpl. now rewrite Nat.ltb_irrefl, andb_false_r. }
    destruct rest; simpl rep_atom; rewrite ?Hfirst; simpl;
      (replace (Nat.leb min n) with true by (symmetry; apply Nat.leb_le; lia));
      assumption.
  - simpl in Hds. apply andb_true_iff in Hds as [Hd Hds].
    simpl app. simpl rep_atom. rewrite Hd.
    assert (Hb : below max n = true).
    { destruct max as [m|]; [|reflexivity]. simpl in *. apply Nat.ltb_lt. lia. }
    rewrite Hb. simpl andb.
    rewrite (IH rest (S n) (S pos) cs); simpl in *; try assumption.
    + reflexivity.
    + destruct max; [lia|exact I].
    + destruct rest; [exact I|]. destruct Hrest as [H|H]; [now left|right].
      rewrite H. f_equal. lia.
    + lia.
    + rewrite <- Hk. f_equal. lia.
Qed.

End MatcherFacts.

(** A pattern that begins with [^] matches at index 0 or not at all. *)
Lemma search_anchored p r :
  body p = Seq Bol r -> forall s pos, search p (S pos) s = None.
Proof.
  intros Hb. induction s as [|x s IH]; intros pos; simpl;
    unfold match_at; rewrite Hb; simpl; [reflexivity | apply IH].
Qed.

Lemma exec_anchored p r s :
  body p = Seq Bol r -> exec p s = match_at p 0 s.
Proof.
  intros Hb. unfold exec. destruct s as [|x s]; simpl.
  - now destruct (match_at p 0 []).
  - rewrite (@search_anchored p r Hb). now destruct (match_at p 0 (x :: s)).
Qed.

Ltac run_step :=
  first
    [ rewrite run_times
    | progress cbn [run seq body ignoreCase ngroups firstn skipn length forallb
                    Nat.leb Nat.eqb Nat.add andb atom_match canon] ].

Ltac bool_cases :=
  repeat match goal with
         | |- context [is_digit ?c] => destruct (is_digit c)
         | |- context [N.eqb ?a ?b] => destruct (N.eqb a b)
         end.

Lemma test_iso_prefix s : test re_iso_prefix s = iso_shape s.
Proof.
  unfold test. rewrite (@exec_anchored re_iso_prefix _ s eq_refl).
  unfold match_at, re_iso_prefix.
  do 10 (destruct s as [|? s]; [repeat run_step; bool_cases; reflexivity|]).
  repeat run_step. unfold iso_shape.
  rewrite !(N.eqb_sym MINUS). bool_cases; reflexivity.
Qed.

Lemma test_slash_prefix s : test re_slash_prefix s = slash_shape s.
Proof.
  unfold test. rewrite (@exec_anchored re_slash_prefix _ s eq_refl).
  unfold match_at, re_slash_prefix.
  do 10 (destruct s as [|? s]; [repeat run_step; bool_cases; reflexivity|]).
  repeat run_step. unfold slash_shape.
  rewrite !(N.eqb_sym SLASH). bool_cases; reflexivity.
Qed.

(** ** Positions *)

Lemma reached_refl pos s : reached pos s pos s.
Proof. exists 0. repeat split; [lia|lia]. Qed.

Lemma reached_step pos c s p' s' :
  reached (S pos) s p' s' -> reached pos (c :: s) p' s'.
Proof.
  intros (n & Hn & -> & ->). exists (S n). simpl. repeat split; lia.
Qed.

Lemma reached_trans pos s p1 s1 p2 s2 :
  reached pos s p1 s1 -> reached p1 s1 p2 s2 -> reached pos s p2 s2.
Proof.
  intros (n & Hn & -> & ->) (m & Hm & -> & ->).
  rewrite length_skipn in Hm.
  exists (n + m). repeat split; [lia|lia|].
  now rewrite skipn_skipn, Nat.add_comm.
Qed.

Section Reach.

Variable icase : bool.
Variable A : Type.
Implicit Types (k : cont A) (out : A).

Lemma rep_atom_reached a min max k out :
  forall s n pos cs,
    rep_atom icase a min max n pos s cs k = Some out ->
    exists p' s' cs', reached pos s p' s' /\ k p' s' cs' = Some out.
Proof.
  induction s as [|c s IH]; intros n pos cs; simpl rep_atom.
  - simpl. destruct (Nat.leb min n); [|discriminate].
    intros H. exists pos, [], cs. split; [apply reached_refl|assumption].
  - destruct (atom_match icase a c && below max n).
    + destruct (rep_atom icase a min max (S n) (S pos) s cs k) as [o|] eqn:E.
      * simpl. intros H. injection H as ->.
        destruct (IH _ _ _ E) as (p' & s' & cs' & Hr & Hk).
        exists p', s', cs'. split; [now apply reached_step|assumption].
      * simpl. destruct (Nat.leb min n); [|discriminate].
        intros H. exists pos, (c :: s), cs.
        split; [apply reached_refl|assumption].
    + simpl. destruct (Nat.leb min n); [|discriminate].
      intros H. exists pos, (c :: s), cs.
      split; [apply reached_refl|assumption].
Qed.

(** The matcher calls its continuation only further on in the text. *)
Lemma run_reached r :
  forall pos s cs k out,
    run icase r pos s cs k = Some out ->
    exists p' s' cs', reached pos s p' s' /\ k p' s' cs' = Some out.
Proof.
  induction r as [|a| |r1 IH1 r2 IH2|r1 IH1 r2 IH2|i r IH|r IH|a min max];
    intros pos s cs k out; cbn [run].
  - intros H. exists pos, s, cs. split; [apply reached_refl|assumption].
  - destruct s as [|c s]; [discriminate|].
    destruct (atom_match icase a c); [|discriminate].
    intros H. exists (S pos), s, cs. split; [|assumption].
    apply reached_step, reached_refl.
  - destruct (Nat.eqb pos 0); [|discriminate].
    intros H. exists pos, s, cs. split; [apply reached_refl|assumption].
  - intros H. destruct (IH1 _ _ _ _ _ H) as (p1 & s1 & cs1 & Hr1 & H1).
    destruct (IH2 _ _ _ _ _ H1) as (p2 & s2 & cs2 & Hr2 & H2).
    exists p2, s2, cs2. split; [|assumption].
    eapply reached_trans; eassumption.
  - destruct (run icase r1 pos s cs k) as [o|] eqn:E; simpl.
    + intros H. injection H as ->. now apply IH1 in E.
    + intros H. now apply IH2 in H.
  - intros H. destruct (IH _ _ _ _ _ H) as (p1 & s1 & cs1 & Hr1 & H1).
    eauto.
  - match goal with
    | |- orelse ?x _ = _ -> _ => destruct x as [o|] eqn:E
    end; simpl.
    + intros H. injection H as ->.
      destruct (IH _ _ _ _ _ E) as (p1 & s1 & cs1 & Hr1 & H1).
      destruct (Nat.eqb p1 pos); [discriminate|]. eauto.
    + intros H. exists pos, s, cs. split; [apply reached_refl|assumption].
  - apply rep_atom_reached.
Qed.

End Reach.

Lemma match_at_bounds p pos s m :
  match_at p pos s = Some m ->
  index m = pos /\ pos <= stop m <= pos + length s.
Proof.
  unfold match_at. intros H.
  apply run_reached in H as (p' & s' & cs' & (n & Hn & -> & _) & H).
  injection H as <-. simpl. lia.
Qed.

Lemma search_bounds p s :
  forall pos m,
    search p pos s = Some m ->
    pos <= index m /\ index m <= stop m <= pos + length s.
Proof.
  induction s as [|c s IH]; intros pos m; simpl.
  - destruct (match_at p pos []) as [m'|] eqn:E; [|discriminate].
    intros H. injection H as ->. apply match_at_bounds in E. simpl in E. lia.
  - destruct (match_at p pos (c :: s)) as [m'|] eqn:E.
    + intros H. injection H as ->. apply match_at_bounds in E. simpl in E. lia.
    + intros H. apply IH in H. lia.
Qed.

(** [matchAll] never runs out of the fuel it starts with: more fuel
    gives the same matches. *)
Lemma matchAll_from_fuel p :
  forall fuel fuel' pos s,
    length s < fuel -> length s < fuel' ->
    matchAll_from fuel p pos s = matchAll_from fuel' p pos s.
Proof.
  induction fuel as [|fuel IH]; intros fuel' pos s Hf Hf'; [lia|].
  destruct fuel' as [|fuel']; [lia|]. simpl.
  destruct (search p pos s) as [m|] eqn:E; [|reflexivity].
  apply search_bounds in E. f_equal.
  match goal with |- context [Nat.ltb ?a ?b] => destruct (Nat.ltb_spec a b) end;
    [reflexivity|].
  apply IH; rewrite length_skipn;
    destruct (Nat.eqb_spec (stop m) (index m)); lia.
Qed.

Lemma matchAll_enough p s fuel :
  length s < fuel -> matchAll_from fuel p 0 s = matchAll p s.
Proof. intros H. apply matchAll_from_fuel; [assumption|lia]. Qed.

(** ** Digits *)

Lemma is_digit_range c : is_digit c = true <-> (48 <= c <= 57)%N.
Proof.
  unfold is_digit, in_range. rewrite andb_true_iff, !N.leb_le. tauto.
Qed.

Lemma digit_not_space c : is_digit c = true -> is_space c = false.
Proof.
  intros H. apply is_digit_range in H. unfold is_space, in_range.
  repeat match goal with
         | |- context [N.eqb c ?k] =>
             replace (N.eqb c k) with false by (symmetry; apply N.eqb_neq; lia)
         end.
  replace (N.leb c 13) with false by (symmetry; apply N.leb_gt; lia).
  replace (N.leb 8192 c) with false by (symmetry; apply N.leb_gt; lia).
  now rewrite andb_false_r.
Qed.

Lemma digit_neq c k :
  is_digit c = true -> (k < 48 \/ 57 < k)%N -> N.eqb c k = false.
Proof.
  intros H Hk. apply is_digit_range in H. apply N.eqb_neq. lia.
Qed.

Lemma span_all p ds rest :
  forallb p ds = true ->
  match rest with [] => True | c :: _ => p c = false end ->
  span p (ds ++ rest) = (ds, rest).
Proof.
  intros Hds Hrest. induction ds as [|d ds IH]; simpl in *.
  - destruct rest as [|c rest]; [reflexivity|]. simpl. now rewrite Hrest.
  - apply andb_true_iff in Hds as [-> Hds]. now rewrite IH.
Qed.

Lemma span_head_digit d s :
  is_digit d = true -> exists a b, span is_digit (d :: s) = (d :: a, b).
Proof.
  intros H. simpl. rewrite H. destruct (span is_digit s) as [a b]. eauto.
Qed.

Lemma startsWith_cons x p y s :
  startsWith (x :: p) (y :: s) = N.eqb x y && startsWith p s.
Proof. reflexivity. Qed.

(** ** parseFloat *)

Lemma parseFloat_digit_first d s :
  is_digit d = true -> exists neg m e, parseFloat (d :: s) = Dec neg m e.
Proof.
  intros H. unfold parseFloat. simpl trimStart.
  rewrite (@digit_not_space d H). unfold take_sign.
  rewrite (@digit_neq d MINUS H), (@digit_neq d PLUS H) by (unfold MINUS, PLUS; lia).
  replace (startsWith (lit "Infinity") (d :: s)) with false.
  2:{ change (lit "Infinity") with (73%N :: lit "nfinity").
      rewrite startsWith_cons, N.eqb_sym, (@digit_neq d 73 H) by lia.
      reflexivity. }
  destruct (@span_head_digit d s H) as (a & b & ->).
  destruct (match b with
            | [] => ([], b)
            | c :: r1' => if N.eqb c DOT then span is_digit r1' else ([], b)
            end) as [fp r2].
  simpl. eauto.
Qed.

Lemma parseFloat_digits ds :
  ds <> [] -> forallb is_digit ds = true ->
  parseFloat ds = int (digits_value ds).
Proof.
  intros Hne Hds. destruct ds as [|d ds]; [congruence|].
  assert (Hd : is_digit d = true) by (simpl in Hds; now apply andb_true_iff in Hds).
  unfold parseFloat. simpl trimStart.
  rewrite (@digit_not_space d Hd). unfold take_sign.
  rewrite (@digit_neq d MINUS Hd), (@digit_neq d PLUS Hd) by (unfold MINUS, PLUS; lia).
  replace (startsWith (lit "Infinity") (d :: ds)) with false.
  2:{ change (lit "Infinity") with (73%N :: lit "nfinity").
      rewrite startsWith_cons, N.eqb_sym, (@digit_neq d 73 Hd) by lia.
      reflexivity. }
  rewrite <- (app_nil_r (d :: ds)) at 1.
  rewrite (@span_all is_digit (d :: ds) [] Hds I).
  rewrite app_nil_r. reflexivity.
Qed.

(** ** Separators *)

Lemma lastIndexOf_from_absent c s :
  forall i found, ~ In c s -> lastIndexOf_from c s i found = found.
Proof.
  induction s as [|x s IH]; intros i found Hn; simpl; [reflexivity|].
  destruct (N.eqb_spec x c) as [->|Hne].
  - exfalso. apply Hn. now left.
  - apply IH. intros Hin. apply Hn. now right.
Qed.

Lemma lastIndexOf_from_present c s :
  forall i found, In c s -> (0 <= i)%Z -> (found < i)%Z ->
    (i <= lastIndexOf_from c s i found)%Z.
Proof.
  induction s as [|x s IH]; intros i found Hin Hi Hf; [destruct Hin|].
  simpl. destruct (N.eqb_spec x c) as [->|Hne].
  - destruct (in_dec N.eq_dec c s) as [Hc|Hc].
    + specialize (IH (i + 1)%Z i Hc). lia.
    + rewrite lastIndexOf_from_absent by assumption. lia.
  - destruct Hin as [Heq|Hin]; [congruence|].
    specialize (IH (i + 1)%Z found Hin). lia.
Qed.

Lemma lastIndexOf_absent c s : ~ In c s -> lastIndexOf c s = (-1)%Z.
Proof. apply lastIndexOf_from_absent. Qed.

Lemma lastIndexOf_present c s : In c s -> (-1 <? lastIndexOf c s)%Z = true.
Proof.
  intros H. apply Z.ltb_lt.
  pose proof (@lastIndexOf_from_present c s 0%Z (-1)%Z H). unfold lastIndexOf. lia.
Qed.

Lemma split_no_sep c s : ~ In c s -> split c s = [s].
Proof.
  induction s as [|x s IH]; intros Hn; simpl; [reflexivity|].
  destruct (N.eqb_spec x c) as [->|Hne].
  - exfalso. apply Hn. now left.
  - rewrite IH; [reflexivity|]. intros Hin. apply Hn. now right.
Qed.

Lemma split_not_nil c s : split c s <> [].
Proof.
  destruct s as [|x s]; simpl; [discriminate|].
  destruct (N.eqb x c); [discriminate|]. now destruct (split c s).
Qed.

Lemma last_cons_nonempty {A} (x : A) l d : l <> [] -> last (x :: l) d = last l d.
Proof. destruct l; [congruence|reflexivity]. Qed.

(** The last piece of a split is what follows the last separator. *)
Lemma last_split c pre post :
  ~ In c post -> last (split c (pre ++ c :: post)) [] = post.
Proof.
  intros Hn. induction pre as [|x pre IH]; simpl.
  - rewrite N.eqb_refl. rewrite last_cons_nonempty by apply split_not_nil.
    now rewrite split_no_sep.
  - destruct (N.eqb x c).
    + rewrite last_cons_nonempty by apply split_not_nil. exact IH.
    + destruct (split c (pre ++ c :: post)) as [|p ps] eqn:E.
      * now destruct (@split_not_nil c _ E).
      * destruct ps as [|q qs]; [|exact IH].
        exfalso. simpl in IH. subst p.
        assert (Hlen : forall pre', length (split c (pre' ++ c :: post)) >= 2).
        { clear. induction pre' as [|y pre' IH']; simpl.
          - rewrite N.eqb_refl. simpl.
            pose proof (@split_not_nil c post). destruct (split c post); simpl; [congruence|lia].
          - destruct (N.eqb y c); simpl; [lia|].
            destruct (split c (pre' ++ c :: post)); simpl in *; lia. }
        specialize (Hlen pre). rewrite E in Hlen. simpl in Hlen. lia.
Qed.

Lemma separators_commas_only cleaned pre post :
  cleaned = pre ++ COMMA :: post -> ~ In COMMA post -> ~ In DOT cleaned ->
  separators cleaned =
  if Nat.eqb (length post) 3 then remove_all COMMA cleaned
  else replace_all COMMA DOT cleaned.
Proof.
  intros Hc Hpost Hdot. unfold separators.
  rewrite (@lastIndexOf_absent DOT cleaned Hdot).
  rewrite lastIndexOf_present by (subst; apply in_elt).
  simpl. rewrite Hc at 1. rewrite last_split by assumption.
  now destruct (Nat.eqb (length post) 3).
Qed.

Lemma separators_plain cleaned :
  ~ In COMMA cleaned -> ~ In DOT cleaned -> separators cleaned = cleaned.
Proof.
  intros Hc Hd. unfold separators.
  now rewrite (@lastIndexOf_absent COMMA cleaned Hc), (@lastIndexOf_absent DOT cleaned Hd).
Qed.

(** The separator pass never touches a leading digit. *)
Lemma separators_head_digit d s :
  is_digit d = true -> exists s', separators (d :: s) = d :: s'.
Proof.
  intros H.
  assert (Hc : N.eqb d COMMA = false) by (apply digit_neq; [assumption|unfold COMMA, DOT; lia]).
  assert (Hd : N.eqb d DOT = false) by (apply digit_neq; [assumption|unfold COMMA, DOT; lia]).
  unfold separators, remove_all, replace_all. simpl filter. simpl map.
  simpl replace_first. rewrite Hc, Hd. simpl. rewrite Hc.
  repeat match goal with |- context [if ?b then _ else _] => destruct b end;
    eauto.
Qed.

(** ** Stripping *)

Lemma strip_filter s : strip s = filter numeric s.
Proof.
  unfold strip. apply filter_ext. intros c. unfold numeric, not_numeric.
  cbn [atom_match existsb item_match canon xorb].
  rewrite (N.eqb_sym DOT), (N.eqb_sym COMMA), (N.eqb_sym MINUS).
  destruct (is_digit c), (N.eqb c DOT), (N.eqb c COMMA), (N.eqb c MINUS);
    reflexivity.
Qed.


Lemma strip_numeric s : forallb numeric s = true -> strip s = s.
Proof.
  intros H. rewrite strip_filter. induction s as [|c s IH]; [reflexivity|].
  simpl in *. apply andb_true_iff in H as [-> H]. now rewrite IH.
Qed.


Lemma digits_no c s :
  forallb is_digit s = true -> (c < 48 \/ 57 < c)%N -> ~ In c s.
Proof.
  intros H Hc Hin. rewrite forallb_forall in H. apply H in Hin.
  apply is_digit_range in Hin. lia.
Qed.

Lemma parseNumber_unguarded str :
  str <> [] -> test re_iso_prefix str = false ->
  test re_slash_prefix str = false ->
  parseNumber str =
  signed (isNegative str) (parseFloat (separators (unsigned str))).
Proof.
  intros Hne H1 H2. unfold parseNumber. rewrite H1, H2.
  destruct str; [congruence|reflexivity].
Qed.

(** ** Where the guards fire *)

Ltac explode l :=
  repeat match goal with
         | H : length l = S _ |- _ =>
             destruct l as [|? l]; [discriminate H|]; simpl in H;
             apply Nat.succ_inj in H
         | H : length l = 0 |- _ => destruct l; [clear H|discriminate H]
         end.

Lemma iso_shape_spec s : iso_shape s = true <-> starts_iso_date s.
Proof.
  split.
  - intros H.
    do 10 (destruct s as [|? s]; [discriminate H|]).
    unfold iso_shape in H.
    repeat match type of H with
           | (_ && _) = true => let H' := fresh "H" in
                                apply andb_true_iff in H as [H H']
           end.
    repeat match goal with
           | E : N.eqb _ MINUS = true |- _ => apply N.eqb_eq in E; subst
           end.
    exists [c; c0; c1; c2], [c4; c5], [c7; c8], s.
    repeat split; simpl.
    repeat match goal with E : is_digit _ = true |- _ => rewrite E; clear E end.
    reflexivity.
  - intros (y & m & d & rest & -> & Hy & Hm & Hd & Hall).
    explode y. explode m. explode d.
    simpl in *. rewrite ?N.eqb_refl, ?andb_true_r.
    rewrite ?andb_true_r in Hall. rewrite <- Hall.
    now rewrite ?andb_assoc.
Qed.

Lemma slash_shape_spec s : slash_shape s = true <-> starts_slash_date s.
Proof.
  split.
  - intros H.
    do 10 (destruct s as [|? s]; [discriminate H|]).
    unfold slash_shape in H.
    repeat match type of H with
           | (_ && _) = true => let H' := fresh "H" in
                                apply andb_true_iff in H as [H H']
           end.
    repeat match goal with
           | E : N.eqb _ SLASH = true |- _ => apply N.eqb_eq in E; subst
           end.
    exists [c; c0], [c2; c3], [c5; c6; c7; c8], s.
    repeat split; simpl.
    repeat match goal with E : is_digit _ = true |- _ => rewrite E; clear E end.
    reflexivity.
  - intros (d & m & y & rest & -> & Hd & Hm & Hy & Hall).
    explode y. explode m. explode d.
    simpl in *. rewrite ?N.eqb_refl, ?andb_true_r.
    rewrite ?andb_true_r in Hall. rewrite <- Hall.
    now rewrite ?andb_assoc.
Qed.

Lemma parseFloat_decimal a b :
  a <> [] -> forallb is_digit a = true -> forallb is_digit b = true ->
  parseFloat (a ++ DOT :: b) =
  Dec false (digits_value (a ++ b)) (- Z.of_nat (length b)).
Proof.
  intros Hne Ha Hb. destruct a as [|d a]; [congruence|].
  assert (Hd : is_digit d = true) by (simpl in Ha; now apply andb_true_iff in Ha).
  unfold parseFloat. simpl app. simpl trimStart.
  rewrite (@digit_not_space d Hd). unfold take_sign.
  rewrite (@digit_neq d MINUS Hd), (@digit_neq d PLUS Hd) by (unfold MINUS, PLUS; lia).
  replace (startsWith (lit "Infinity") (d :: a ++ DOT :: b)) with false.
  2:{ change (lit "Infinity") with (73%N :: lit "nfinity").
      rewrite startsWith_cons, N.eqb_sym, (@digit_neq d 73 Hd) by lia.
      reflexivity. }
  change (d :: a ++ DOT :: b) with ((d :: a) ++ DOT :: b).
  rewrite (@span_all is_digit (d :: a) (DOT :: b) Ha eq_refl).
  rewrite N.eqb_refl.
  rewrite <- (app_nil_r b) at 1.
  rewrite (@span_all is_digit b [] Hb I).
  simpl. reflexivity.
Qed.

Lemma iso_shape_minus s : iso_shape s = true -> In MINUS s.
Proof.
  intros H. apply iso_shape_spec in H as (y & m & d & rest & -> & _).
  apply in_elt.
Qed.

Lemma slash_shape_slash s : slash_shape s = true -> In SLASH s.
Proof.
  intros H. apply slash_shape_spec in H as (y & m & d & rest & -> & _).
  apply in_elt.
Qed.

Lemma not_iso_without_minus s : ~ In MINUS s -> test re_iso_prefix s = false.
Proof.
  intros H. rewrite test_iso_prefix. destruct (iso_shape s) eqn:E; [|reflexivity].
  now apply iso_shape_minus in E.
Qed.

Lemma not_slash_without_slash s : ~ In SLASH s -> test re_slash_prefix s = false.
Proof.
  intros H. rewrite test_slash_prefix. destruct (slash_shape s) eqn:E; [|reflexivity].
  now apply slash_shape_slash in E.
Qed.

Lemma remove_all_app c a b :
  remove_all c (a ++ b) = remove_all c a ++ remove_all c b.
Proof. apply filter_app. Qed.

Lemma replace_all_app c d a b :
  replace_all c d (a ++ b) = replace_all c d a ++ replace_all c d b.
Proof. apply map_app. Qed.

Lemma remove_all_digits l :
  forallb is_digit l = true -> remove_all COMMA l = l.
Proof.
  induction l as [|x l IH]; intros Hl; [reflexivity|].
  simpl in Hl. apply andb_true_iff in Hl as [Hx Hl].
  unfold remove_all in *. cbn [filter].
  rewrite (@digit_neq x COMMA Hx) by (unfold COMMA; lia). cbn [negb].
  now rewrite IH.
Qed.

Lemma replace_all_digits l :
  forallb is_digit l = true -> replace_all COMMA DOT l = l.
Proof.
  induction l as [|x l IH]; intros Hl; [reflexivity|].
  simpl in Hl. apply andb_true_iff in Hl as [Hx Hl].
  unfold replace_all in *. cbn [map].
  rewrite (@digit_neq x COMMA Hx) by (unfold COMMA; lia).
  now rewrite IH.
Qed.

Lemma filter_app_digits a b :
  forallb is_digit a = true -> forallb is_digit b = true ->
  remove_all COMMA (a ++ COMMA :: b) = a ++ b
  /\ replace_all COMMA DOT (a ++ COMMA :: b) = a ++ DOT :: b.
Proof.
  intros Ha Hb. rewrite remove_all_app, replace_all_app.
  change (remove_all COMMA (COMMA :: b)) with (remove_all COMMA b).
  change (replace_all COMMA DOT (COMMA :: b))
    with (DOT :: replace_all COMMA DOT b).
  now rewrite !remove_all_digits, !replace_all_digits.
Qed.

(** A token of two digit runs around one comma: the comma is a decimal
    point unless exactly three digits follow it. *)
Lemma parseNumber_one_comma a b :
  a <> [] -> forallb is_digit a = true -> forallb is_digit b = true ->
  parseNumber (a ++ COMMA :: b) =
  if Nat.eqb (length b) 3 then int (digits_value (a ++ b))
  else Dec false (digits_value (a ++ b)) (- Z.of_nat (length b)).
Proof.
  intros Hne Ha Hb.
  assert (HnoM : ~ In MINUS (a ++ COMMA :: b)).
  { intros Hin. apply in_app_or in Hin as [Hin|[Hin|Hin]].
    - revert Hin. apply digits_no; [assumption|unfold MINUS; lia].
    - discriminate Hin.
    - revert Hin. apply digits_no; [assumption|unfold MINUS; lia]. }
  assert (HnoS : ~ In SLASH (a ++ COMMA :: b)).
  { intros Hin. apply in_app_or in Hin as [Hin|[Hin|Hin]].
    - revert Hin. apply digits_no; [assumption|unfold SLASH; lia].
    - discriminate Hin.
    - revert Hin. apply digits_no; [assumption|unfold SLASH; lia]. }
  assert (HnoD : ~ In DOT (a ++ COMMA :: b)).
  { intros Hin. apply in_app_or in Hin as [Hin|[Hin|Hin]].
    - revert Hin. apply digits_no; [assumption|unfold DOT; lia].
    - discriminate Hin.
    - revert Hin. apply digits_no; [assumption|unfold DOT; lia]. }
  assert (HnoC : ~ In COMMA b) by (apply digits_no; [assumption|unfold COMMA; lia]).
  rewrite parseNumber_unguarded;
    [| destruct a; [congruence|discriminate]
     | now apply not_iso_without_minus
     | now apply not_slash_without_slash ].
  assert (Hstrip : strip (a ++ COMMA :: b) = a ++ COMMA :: b).
  { apply strip_numeric. rewrite forallb_app. simpl.
    assert (Hk : forall l, forallb is_digit l = true -> forallb numeric l = true).
    { intros l Hl. rewrite forallb_forall in *. intros x Hx. unfold numeric.
      now rewrite (Hl x Hx). }
    now rewrite (Hk a Ha), (Hk b Hb). }
  assert (Hneg : isNegative (a ++ COMMA :: b) = false).
  { unfold isNegative. rewrite Hstrip. destruct a as [|d a]; [congruence|].
    simpl in Ha. apply andb_true_iff in Ha as [Hd _].
    simpl app. rewrite startsWith_cons, N.eqb_sym.
    now rewrite (@digit_neq d MINUS Hd) by (unfold MINUS; lia). }
  unfold unsigned. rewrite Hneg, Hstrip.
  rewrite (@separators_commas_only _ a b eq_refl HnoC HnoD).
  destruct (filter_app_digits a b Ha Hb) as [-> ->].
  destruct (Nat.eqb (length b) 3).
  - rewrite parseFloat_digits; [reflexivity| |now rewrite forallb_app, Ha, Hb].
    destruct a; [congruence|discriminate].
  - now rewrite parseFloat_decimal.
Qed.




Section Stages.

Variable icase : bool.
Variable A : Type.
Implicit Types (k : cont A) (out : A).

Lemma firstn_cap (ds rest : text) pos :
  firstn (pos + length ds - pos) (ds ++ rest) = ds.
Proof.
  replace (pos + length ds - pos) with (length ds + 0) by lia.
  rewrite firstn_app_2. simpl. apply app_nil_r.
Qed.

Lemma run_seq (r1 r2 : regex) pos s cs k out :
  run icase r1 pos s cs (fun p' s' cs' => run icase r2 p' s' cs' k) = Some out ->
  run icase (Seq r1 r2) pos s cs k = Some out.
Proof. intros H. exact H. Qed.

Lemma run_atom a c pos s cs k out :
  atom_match icase a c = true ->
  k (S pos) s cs = Some out ->
  run icase (Atom a) pos (c :: s) cs k = Some out.
Proof. intros Hc Hk. simpl. now rewrite Hc. Qed.

Lemma run_rep a min max ds rest pos cs k out :
  forallb (atom_match icase a) ds = true ->
  (match max with Some m => length ds <= m | None => True end) ->
  (match rest with
   | [] => True
   | c :: _ => atom_match icase a c = false \/ max = Some (length ds)
   end) ->
  min <= length ds ->
  k (pos + length ds) rest cs = Some out ->
  run icase (Rep a min max) pos (ds ++ rest) cs k = Some out.
Proof.
  intros. simpl. apply rep_atom_greedy; auto.
Qed.

Lemma run_grp_rep i a min max ds rest pos cs k out :
  forallb (atom_match icase a) ds = true ->
  (match max with Some m => length ds <= m | None => True end) ->
  (match rest with
   | [] => True
   | c :: _ => atom_match icase a c = false \/ max = Some (length ds)
   end) ->
  min <= length ds ->
  k (pos + length ds) rest (set_cap i ds cs) = Some out ->
  run icase (Grp i (Rep a min max)) pos (ds ++ rest) cs k = Some out.
Proof.
  intros Hds Hmax Hrest Hmin Hk. cbn [run]. apply rep_atom_greedy; auto.
  now rewrite firstn_cap.
Qed.

End Stages.

Lemma in_range_spec lo hi c :
  in_range lo hi c = true <-> (lo <= c <= hi)%N.
Proof.
  unfold in_range. rewrite andb_true_iff, !N.leb_le. tauto.
Qed.

Lemma in_range_false lo hi c :
  in_range lo hi c = false <-> (c < lo \/ hi < c)%N.
Proof.
  unfold in_range. rewrite andb_false_iff, !N.leb_gt. tauto.
Qed.

(** Only a letter and its lower case have an upper case in A..Z. *)
Lemma to_upper_ascii c k :
  (65 <= k <= 90)%N -> to_upper c = k -> c = k \/ c = (k + 32)%N.
Proof.
  intros Hk. unfold to_upper.
  destruct (in_range 97%N 122%N c) eqn:E1.
  { apply in_range_spec in E1. intros. lia. }
  destruct (in_range 224%N 254%N c) eqn:E2.
  { apply in_range_spec in E2. destruct (negb (N.eqb c 247%N)); simpl; [lia|].
    destruct (N.eqb c 273%N); [lia|].
    destruct (in_range 7840%N 7935%N c) eqn:E4;
      [apply in_range_spec in E4; lia|simpl; lia]. }
  simpl. destruct (N.eqb c 273%N); [lia|].
  destruct (in_range 7840%N 7935%N c) eqn:E4.
  { apply in_range_spec in E4. destruct (N.odd c); simpl; lia. }
  simpl. lia.
Qed.

Lemma visible_not_space c : (33 <= c <= 159)%N -> is_space c = false.
Proof.
  intros H. unfold is_space.
  replace (in_range 9%N 13%N c) with false
    by (symmetry; apply in_range_false; lia).
  replace (in_range 8192%N 8202%N c) with false
    by (symmetry; apply in_range_false; lia).
  repeat match goal with
         | |- context [N.eqb c ?k] =>
             replace (N.eqb c k) with false by (symmetry; apply N.eqb_neq; lia)
         end.
  reflexivity.
Qed.

Lemma letter_not_space c k :
  (65 <= k <= 90)%N -> to_upper c = k -> is_space c = false.
Proof.
  intros Hk H. apply visible_not_space.
  destruct (@to_upper_ascii c k Hk H) as [->| ->]; lia.
Qed.

Lemma parseInt_digits ds :
  ds <> [] -> forallb is_digit ds = true ->
  parseInt ds = Some (Z.of_N (digits_value ds)).
Proof.
  intros Hne Hds. destruct ds as [|d ds]; [congruence|].
  assert (Hd : is_digit d = true) by (simpl in Hds; now apply andb_true_iff in Hds).
  unfold parseInt. simpl trimStart.
  rewrite (@digit_not_space d Hd). unfold take_sign.
  rewrite (@digit_neq d MINUS Hd), (@digit_neq d PLUS Hd) by (unfold MINUS, PLUS; lia).
  rewrite <- (app_nil_r (d :: ds)) at 1.
  rewrite (@span_all is_digit (d :: ds) [] Hds I). reflexivity.
Qed.

Lemma search_here p pos s m :
  match_at p pos s = Some m -> search p pos s = Some m.
Proof. intros H. destruct s; simpl; now rewrite H. Qed.

Section Optional.

Variable icase : bool.
Variable A : Type.
Implicit Types (k : cont A) (out : A).

Lemma run_opt_skip (r : regex) pos s cs k out :
  run icase r pos s cs
    (fun p' s' cs' => if Nat.eqb p' pos then None else k p' s' cs') = None ->
  k pos s cs = Some out ->
  run icase (Opt r) pos s cs k = Some out.
Proof. intros H1 H2. cbn [run]. now rewrite H1. Qed.

Lemma run_opt_take (r : regex) pos s cs k out :
  run icase r pos s cs
    (fun p' s' cs' => if Nat.eqb p' pos then None else k p' s' cs') = Some out ->
  run icase (Opt r) pos s cs k = Some out.
Proof. intros H1. cbn [run]. now rewrite H1. Qed.

End Optional.

Lemma upper_two mer a b :
  toUpperCase mer = [a; b] ->
  exists m1 m2, mer = [m1; m2] /\ to_upper m1 = a /\ to_upper m2 = b.
Proof.
  destruct mer as [|m1 [|m2 [|? ?]]]; try discriminate.
  intros H. injection H as H1 H2. eauto.
Qed.

Lemma upper_SA mer :
  toUpperCase mer = lit "SA" ->
  exists m1 m2, mer = [m1; m2] /\ to_upper m1 = 83%N /\ to_upper m2 = 65%N.
Proof. apply upper_two. Qed.

Lemma upper_CH mer :
  toUpperCase mer = lit "CH" ->
  exists m1 m2, mer = [m1; m2] /\ to_upper m1 = 67%N /\ to_upper m2 = 72%N.
Proof. apply upper_two. Qed.

Lemma custom_date_match day month year hour minute second ws1 ws2 mer :
  forallb is_digit day = true -> 1 <= length day <= 2 ->
  forallb is_digit month = true -> 1 <= length month <= 2 ->
  forallb is_digit year = true -> length year = 4 ->
  forallb is_space ws1 = true -> ws1 <> [] ->
  forallb is_digit hour = true -> 1 <= length hour <= 2 ->
  forallb is_digit minute = true -> length minute = 2 ->
  forallb is_digit second = true -> length second = 2 ->
  forallb is_space ws2 = true ->
  meridiem_token mer ->
  exists m,
    exec re_custom_date
      (day ++ SLASH :: month ++ SLASH :: year ++ ws1 ++ hour ++ COLON ::
       minute ++ COLON :: second ++ ws2 ++ mer) = Some m
    /\ group 1 m = day /\ group 2 m = month /\ group 3 m = year
    /\ group 4 m = hour /\ group 5 m = minute /\ group 6 m = second
    /\ group_opt 7 m = match mer with [] => None | _ => Some mer end.
Proof.
  intros Hday Lday Hmonth Lmonth Hyear Lyear Hws1 Nws1 Hhour Lhour
         Hmin Lmin Hsec Lsec Hws2 Hmer.
  assert (Hhead : exists h1 hour', hour = h1 :: hour' /\ is_space h1 = false).
  { destruct hour as [|h1 hour']; [simpl in Lhour; lia|].
    exists h1, hour'. split; [reflexivity|]. apply digit_not_space.
    simpl in Hhour. now apply andb_true_iff in Hhour. }
  assert (Hmhead : match mer with [] => True | c :: _ => is_space c = false end).
  { destruct Hmer as [->|[H|H]]; [exact I| |].
    - apply upper_SA in H as (m1 & m2 & -> & H1 & _).
      apply (@letter_not_space m1 83%N); [lia|assumption].
    - apply upper_CH in H as (m1 & m2 & -> & H1 & _).
      apply (@letter_not_space m1 67%N); [lia|assumption]. }
  assert (Hclose : forall p, Nat.eqb (S (S p)) p = false)
    by (intros p; apply Nat.eqb_neq; lia).
  assert (Htwo : forall p, S (S p) - p = 2) by (intros p; lia).
  change (str (lit "SA")) with (Seq (Atom (Lit 83%N)) (Atom (Lit 65%N))) in *.
  destruct Hmer as [->|[H|H]];
    [| apply upper_SA in H as (m1 & m2 & -> & H1 & H2)
     | apply upper_CH in H as (m1 & m2 & -> & H1 & H2)];
    (eexists; split;
     [ unfold exec; apply search_here; unfold match_at, re_custom_date;
       cbn [body ignoreCase ngroups seq repeat plus star times];
       apply run_seq, run_grp_rep;
         [assumption | lia | left; reflexivity | lia |];
       apply run_seq, run_atom; [reflexivity|];
       apply run_seq, run_grp_rep;
         [assumption | lia | left; reflexivity | lia |];
       apply run_seq, run_atom; [reflexivity|];
       apply run_seq, run_grp_rep;
         [assumption | lia
         | match goal with |- match ?l with _ => _ end =>
             destruct l; [exact I | right; now rewrite Lyear] end
         | lia |];
       apply run_seq, run_rep;
         [assumption | exact I
         | destruct Hhead as (h1 & hour' & -> & Hh); left; exact Hh
         | destruct ws1; [congruence|simpl; lia] |];
       apply run_seq, run_grp_rep;
         [assumption | lia | left; reflexivity | lia |];
       apply run_seq, run_atom; [reflexivity|];
       apply run_seq, run_grp_rep;
         [assumption | lia | left; reflexivity | lia |];
       apply run_seq, run_atom; [reflexivity|];
       apply run_seq, run_grp_rep;
         [assumption | lia
         | match goal with |- match ?l with _ => _ end =>
             destruct l; [exact I | right; now rewrite Lsec] end
         | lia |];
       apply run_seq, run_rep;
         [assumption | exact I | first [exact I | now left] | lia |];
       change (str (lit "SA")) with (Seq (Atom (Lit 83%N)) (Atom (Lit 65%N)));
       change (str (lit "CH")) with (Seq (Atom (Lit 67%N)) (Atom (Lit 72%N)));
       first
         [ apply run_opt_skip; reflexivity
         | apply run_opt_take; cbn [run atom_match canon]; rewrite H1, H2;
           change (to_upper 83%N) with 83%N; change (to_upper 65%N) with 65%N;
           change (to_upper 67%N) with 67%N; change (to_upper 72%N) with 72%N;
           change (N.eqb 83%N 67%N) with false;
           rewrite !N.eqb_refl; cbn [orelse]; rewrite Hclose, Htwo;
           reflexivity ]
     | repeat split ]).
Qed.

Lemma hour24_token h mer :
  meridiem_token mer ->
  hour24 (Some (Z.of_N h)) (match mer with [] => None | _ => Some mer end)
  = Some (Z.of_N (hour_of h mer)).
Proof.
  intros [->|[H|H]]; [reflexivity| |].
  - destruct (@upper_SA mer H) as (m1 & m2 & -> & _).
    unfold hour24, hour_of. rewrite H.
    change (text_eqb (lit "SA") (lit "CH")) with false.
    change (text_eqb (lit "SA") (lit "SA")) with true.
    cbn [andb].
    destruct (N.eqb_spec h 12) as [->|Hne]; [reflexivity|].
    replace (Z.of_N h =? 12)%Z with false; [reflexivity|].
    symmetry. apply Z.eqb_neq. lia.
  - destruct (@upper_CH mer H) as (m1 & m2 & -> & _).
    unfold hour24, hour_of. rewrite H.
    change (text_eqb (lit "CH") (lit "CH")) with true.
    change (text_eqb (lit "CH") (lit "SA")) with false.
    cbn [andb].
    destruct (N.ltb_spec h 12) as [Hlt|Hge].
    + replace (Z.of_N h <? 12)%Z with true by (symmetry; apply Z.ltb_lt; lia).
      f_equal. lia.
    + replace (Z.of_N h <? 12)%Z with false by (symmetry; apply Z.ltb_ge; lia).
      reflexivity.
Qed.

Lemma int_toString_N n : int_toString (Some (Z.of_N n)) = digits_of n.
Proof.
  unfold int_toString.
  replace (Z.of_N n <? 0)%Z with false by (symmetry; apply Z.ltb_ge; lia).
  now rewrite Zabs2N.id.
Qed.

Lemma two_digits_value ds :
  forallb is_digit ds = true -> 1 <= length ds <= 2 ->
  (digits_value ds < 100)%N.
Proof.
  intros Hd Hl.
  destruct ds as [|a [|b [|? ?]]]; simpl in Hl; try lia;
    simpl in Hd; rewrite ?andb_true_r in Hd.
  - apply is_digit_range in Hd. unfold digits_value. cbn [fold_left]. lia.
  - apply andb_true_iff in Hd as [Ha Hb].
    apply is_digit_range in Ha, Hb. unfold digits_value. cbn [fold_left]. lia.
Qed.

(** Padding a run of one or two digits writes its value with two
    digits. *)
Lemma padStart2_digits ds :
  forallb is_digit ds = true -> 1 <= length ds <= 2 ->
  padStart2 ds = two_digits (digits_value ds).
Proof.
  intros Hd Hl.
  destruct ds as [|a [|b [|? ?]]]; simpl in Hl; try lia;
    simpl in Hd; rewrite ?andb_true_r in Hd.
  - apply is_digit_range in Hd. unfold padStart2, two_digits, digits_value.
    cbn [fold_left length Nat.sub repeat app].
    replace (10 * 0 + (a - 48))%N with (a - 48)%N by lia.
    rewrite N.div_small, N.mod_small by lia.
    unfold ZERO. f_equal. f_equal. lia.
  - apply andb_true_iff in Hd as [Ha Hb].
    apply is_digit_range in Ha, Hb. unfold padStart2, two_digits, digits_value.
    cbn [fold_left length Nat.sub repeat app].
    assert (Hq : ((10 * (10 * 0 + (a - 48)) + (b - 48)) / 10 = a - 48)%N).
    { symmetry. apply N.div_unique with (r := (b - 48)%N); lia. }
    assert (Hr : ((10 * (10 * 0 + (a - 48)) + (b - 48)) mod 10 = b - 48)%N).
    { symmetry. apply N.mod_unique with (q := (a - 48)%N); lia. }
    rewrite Hq, Hr. f_equal; [lia|]. f_equal. lia.
Qed.

(** The decimal digits of a number below 100, padded. *)
Lemma padStart2_digits_of n :
  (n < 100)%N -> padStart2 (digits_of n) = two_digits n.
Proof.
  intros H.
  assert (Hall : forallb (fun k => text_eqb (padStart2 (digits_of (N.of_nat k)))
                                     (two_digits (N.of_nat k)))
                   (List.seq 0 100) = true)
    by (vm_compute; reflexivity).
  rewrite forallb_forall in Hall.
  specialize (Hall (N.to_nat n)). rewrite N2Nat.id in Hall.
  assert (Hin : In (N.to_nat n) (List.seq 0 100)) by (apply in_seq; lia).
  apply Hall in Hin. clear Hall.
  revert Hin. generalize (padStart2 (digits_of n)) (two_digits n).
  induction t as [|x t IH]; intros [|y u]; simpl; try discriminate; auto.
  intros Hxy. apply andb_true_iff in Hxy as [Hx Hu].
  apply N.eqb_eq in Hx. subst y. f_equal. now apply IH.
Qed.

Lemma hour_of_small h mer : (h < 100)%N -> (hour_of h mer < 100)%N.
Proof.
  intros H. unfold hour_of.
  destruct (text_eqb (toUpperCase mer) (lit "CH")).
  - destruct (N.ltb_spec h 12); lia.
  - destruct (text_eqb (toUpperCase mer) (lit "SA")); [|assumption].
    destruct (N.eqb h 12); lia.
Qed.

(** ** Tabular rows *)

Lemma test_leading_digit s :
  test leading_digit s = true <->
  exists d rest, s = d :: rest /\ is_digit d = true.
Proof.
  unfold test. rewrite (@exec_anchored leading_digit _ s eq_refl).
  unfold match_at, leading_digit. cbn [body ignoreCase ngroups seq run Nat.eqb].
  destruct s as [|d rest].
  - split; [discriminate|]. intros (? & ? & ? & _). discriminate.
  - cbn [atom_match]. destruct (is_digit d) eqn:E.
    + split; [eauto|reflexivity].
    + split; [discriminate|]. intros (? & ? & H & H'). injection H as <- _.
      congruence.
Qed.

Lemma tabular_some text :
  parseFormatTabular text <> None <->
  8 <= length (split TAB text)
  /\ exists d rest,
       trim (part 0 (split TAB text)) = d :: rest /\ is_digit d = true.
Proof.
  unfold parseFormatTabular. rewrite <- test_leading_digit.
  destruct (Nat.ltb_spec (length (split TAB text)) 8) as [Hlt|Hge].
  - split; [congruence|]. intros [H _]. lia.
  - destruct (test leading_digit (trim (part 0 (split TAB text)))); simpl.
    + split; [now split|discriminate].
    + split; [congruence|]. intros [_ H]. discriminate.
Qed.

Lemma tabular_record text trade :
  parseFormatTabular text = Some trade ->
  let parts := split TAB text in
  trade =
  Partial.Make (Some (int 100)) (Some (trim (part 5 parts)))
    (Some (parseNumber (part 4 parts)))
    (Some (parseNumber (part 0 parts)))
    (Some (parseNumber (part 1 parts)))
    (Some (parseCustomDate (part 2 parts)))
    (Some (parseCustomDate (part 3 parts)))
    (Some (abs (parseNumber (part 6 parts))))
    (Some (parseNumber (part 7 parts))).
Proof.
  unfold parseFormatTabular.
  destruct (Nat.ltb (length (split TAB text)) 8); [discriminate|].
  destruct (test leading_digit (trim (part 0 (split TAB text))));
    [|discriminate].
  simpl. intros H. injection H as <-. reflexivity.
Qed.

(** ** The cascade *)

Lemma or_else_None_r a : or_else a None = a.
Proof. now destruct a. Qed.

Lemma smartParse_first_match text :
  smartParse text = first_match detectors text.
Proof.
  unfold smartParse, detectors. cbn [first_match].
  now rewrite or_else_None_r.
Qed.

(** The first detector that answers decides the result of the chain. *)
Lemma first_match_split (pre : list detector) (d : detector)
    (post : list detector) (text : text) (p : Partial.t) :
  (forall d', In d' pre -> d' text = None) -> d text = Some p ->
  first_match (pre ++ d :: post) text = Some p.
Proof.
  intros Hpre Hd. induction pre as [|d0 pre IH]; simpl.
  - now rewrite Hd.
  - rewrite (Hpre d0) by now left. simpl. apply IH.
    intros d' Hin. apply Hpre. now right.
Qed.

Lemma first_match_In (ds : list detector) (text : text) (p : Partial.t) :
  first_match ds text = Some p -> exists d, In d ds /\ d text = Some p.
Proof.
  induction ds as [|d ds IH]; simpl; [discriminate|].
  destruct (d text) as [q|] eqn:E; simpl.
  - intros H. injection H as <-. exists d. split; [now left|assumption].
  - intros H. destruct (IH H) as (d' & Hin & Hd'). exists d'. split; [now right|assumption].
Qed.

Lemma parseTradeTextSmart_fallback text :
  accepted text = None ->
  parseTradeTextSmart text = Gemini text (fun reply => Ret reply).
Proof.
  unfold accepted, parseTradeTextSmart.
  destruct (smartParse text) as [p|]; [|reflexivity].
  now destruct (gate p).
Qed.

Lemma parseTradeTextSmart_accepted text p :
  accepted text = Some p ->
  parseTradeTextSmart text = Now (fun now => Ret (Resolved (merge now p))).
Proof.
  unfold accepted, parseTradeTextSmart.
  destruct (smartParse text) as [q|]; [|discriminate].
  destruct (gate q); [|discriminate].
  intros H. injection H as ->. reflexivity.
Qed.

Lemma none_passes_accepted text :
  none_passes text = true -> accepted text = None.
Proof.
  intros H. unfold accepted. rewrite smartParse_first_match.
  destruct (first_match detectors text) as [p|] eqn:E; [|reflexivity].
  destruct (@first_match_In detectors text p E) as (d & Hin & Hd).
  unfold none_passes in H. rewrite forallb_forall in H.
  specialize (H d Hin). rewrite Hd in H.
  now destruct (gate p).
Qed.

(** ** Fees *)

Lemma on_match_inv (P : Partial.t -> Prop) p text f trade :
  (forall m t, P t -> P (f m t)) -> P trade -> P (on_match p text f trade).
Proof.
  intros Hf Ht. unfold on_match. destruct (exec p text); auto.
Qed.

Ltac fee_step :=
  match goal with
  | |- fee_abs (on_match _ _ _ _) => apply on_match_inv; [intros ? ? ?|]
  | |- fee_abs (Partial.set_leverage _ ?t) => change (fee_abs t)
  | |- fee_abs (Partial.set_coin _ ?t) => change (fee_abs t)
  | |- fee_abs (Partial.set_quantity _ ?t) => change (fee_abs t)
  | |- fee_abs (Partial.set_openPrice _ ?t) => change (fee_abs t)
  | |- fee_abs (Partial.set_closePrice _ ?t) => change (fee_abs t)
  | |- fee_abs (Partial.set_openTime _ ?t) => change (fee_abs t)
  | |- fee_abs (Partial.set_closeTime _ ?t) => change (fee_abs t)
  | |- fee_abs (Partial.set_pnl _ ?t) => change (fee_abs t)
  | |- fee_abs (Partial.set_fee (abs ?x) _) => exists x; reflexivity
  | |- fee_abs (vn_dates _ _) => unfold vn_dates
  | |- fee_abs (mobile_pnl _ _) => unfold mobile_pnl
  | |- fee_abs (if ?b then _ else _) => destruct b
  | |- fee_abs (match ?x with _ => _ end) => destruct x
  | |- fee_abs Partial.init => exact I
  | H : fee_abs ?t |- fee_abs ?t => exact H
  end.

Lemma fee_abs_detectors d text p :
  In d detectors -> d text = Some p -> fee_abs p.
Proof.
  unfold detectors. intros Hin Hd.
  repeat destruct Hin as [<-|Hin]; [.. | destruct Hin].
  - rewrite (@tabular_record text p Hd). unfold fee_abs. cbn. eauto.
  - unfold parseFormatVN in Hd.
    destruct (negb (includes GiaMo text) && negb (includes GiaDong text));
      [discriminate|].
    cbv zeta in Hd. injection Hd as <-. repeat fee_step.
  - unfold parseFormatAivoraGrid in Hd.
    destruct (negb (includes (lit "Open Time") text)); [discriminate|].
    cbv zeta in Hd. injection Hd as <-. repeat fee_step.
  - unfold parseFormatBitunixMobile in Hd.
    destruct (negb (includes (lit "Time Opened") text)); [discriminate|].
    cbv zeta in Hd. injection Hd as <-. repeat fee_step.
  - unfold parseFormatAivoraEn in Hd.
    destruct (negb (includes (lit "Opening Average Price") text)
              || includes (lit "Time Opened") text); [discriminate|].
    cbv zeta in Hd. injection Hd as <-. repeat fee_step.
  - unfold parseFormatBitunixWeb in Hd.
    destruct (negb (includes (lit "Entry Price") text)
              || negb (includes (lit "Time Opened") text)); [discriminate|].
    cbv zeta in Hd. injection Hd as <-. repeat fee_step.
Qed.

Lemma accepted_In text p :
  accepted text = Some p ->
  gate p = true /\ exists d, In d detectors /\ d text = Some p.
Proof.
  unfold accepted. rewrite smartParse_first_match.
  destruct (first_match detectors text) as [q|] eqn:E; [|discriminate].
  destruct (gate q) eqn:G; [|discriminate].
  intros H. injection H as <-. split; [assumption|].
  now apply first_match_In.
Qed.

Lemma abs_not_negative x :
  negative (abs x) = false
  /\ (nonnegative (abs x) = true \/ isNaN (abs x) = true).
Proof. destruct x; simpl; auto. Qed.

(** ** Captions *)

(** A code unit below the letters is the upper case of itself only. *)
Lemma to_upper_low c k : (k < 65)%N -> to_upper c = k -> c = k.
Proof.
  intros Hk. unfold to_upper.
  destruct (in_range 97%N 122%N c) eqn:E1;
    [apply in_range_spec in E1; lia|].
  destruct (in_range 224%N 254%N c && negb (N.eqb c 247%N)) eqn:E2;
    [apply andb_true_iff in E2 as [E2 _]; apply in_range_spec in E2; lia|].
  destruct (N.eqb c 273%N); [lia|].
  destruct (in_range 7840%N 7935%N c && N.odd c) eqn:E4;
    [apply andb_true_iff in E4 as [E4 _]; apply in_range_spec in E4; lia|].
  congruence.
Qed.

Section Backtracking.

Variable icase : bool.
Variable A : Type.
Implicit Types (k : cont A) (out : A).

(** A quantifier whose continuation fails wherever it may stop fails. *)
Lemma rep_atom_none a min k :
  forall ds rest n pos cs,
    match rest with [] => True | c :: _ => atom_match icase a c = false end ->
    (forall x y, ds = x ++ y -> k (pos + length x) (y ++ rest) cs = None) ->
    rep_atom icase a min None n pos (ds ++ rest) cs k = None.
Proof.
  induction ds as [|d ds IH]; intros rest n pos cs Hrest Hk.
  - specialize (Hk [] [] eq_refl). simpl in Hk. rewrite Nat.add_0_r in Hk.
    simpl app. destruct rest as [|c rest]; simpl rep_atom.
    + rewrite Hk. now destruct (Nat.leb min n).
    + rewrite Hrest, Hk. simpl. now destruct (Nat.leb min n).
  - simpl app. simpl rep_atom.
    rewrite (IH rest (S n) (S pos) cs Hrest).
    + pose proof (Hk [] (d :: ds) eq_refl) as H0. simpl in H0.
      rewrite Nat.add_0_r in H0. rewrite H0.
      destruct (atom_match icase a d); simpl;
        now destruct (Nat.leb min n).
    + intros x y ->. specialize (Hk (d :: x) y eq_refl). simpl in Hk.
      rewrite <- Hk. f_equal. lia.
Qed.

(** A greedy quantifier gives back the run [ds2] when its continuation
    fails everywhere inside and after it, and succeeds in front of it. *)
Lemma rep_atom_give_back a min k out :
  forall ds1 ds2 rest n pos cs,
    forallb (atom_match icase a) ds1 = true ->
    match rest with [] => True | c :: _ => atom_match icase a c = false end ->
    (forall x y, ds2 = x ++ y -> x <> [] ->
       k (pos + length ds1 + length x) (y ++ rest) cs = None) ->
    min <= n + length ds1 ->
    k (pos + length ds1) (ds2 ++ rest) cs = Some out ->
    rep_atom icase a min None n pos (ds1 ++ ds2 ++ rest) cs k = Some out.
Proof.
  induction ds1 as [|d ds1 IH]; intros ds2 rest n pos cs H1 Hrest Hfail Hmin Hk.
  - simpl in *. rewrite Nat.add_0_r in *.
    replace (Nat.leb min n) with true in * by (symmetry; apply Nat.leb_le; lia).
    destruct ds2 as [|d2 ds2]; simpl app in *.
    + destruct rest as [|c rest]; simpl rep_atom;
        replace (Nat.leb min n) with true by (symmetry; apply Nat.leb_le; lia).
      * exact Hk.
      * rewrite Hrest. exact Hk.
    + simpl rep_atom.
      replace (Nat.leb min n) with true by (symmetry; apply Nat.leb_le; lia).
      rewrite (@rep_atom_none a min k ds2 rest (S n) (S pos) cs Hrest).
      * rewrite Hk. now destruct (atom_match icase a d2).
      * intros x y ->. specialize (Hfail (d2 :: x) y eq_refl).
        simpl in Hfail. rewrite <- Hfail by discriminate. f_equal. lia.
  - simpl in H1. apply andb_true_iff in H1 as [Hd H1].
    simpl app. simpl rep_atom. rewrite Hd. simpl.
    rewrite (IH ds2 rest (S n) (S pos) cs); try assumption.
    + reflexivity.
    + intros x y Hxy Hx. specialize (Hfail x y Hxy Hx). simpl in Hfail.
      rewrite <- Hfail. f_equal. lia.
    + simpl in Hmin. lia.
    + rewrite <- Hk. simpl. f_equal. lia.
Qed.

Lemma run_rep_give_back a min k out ds1 ds2 rest pos cs :
  forallb (atom_match icase a) ds1 = true ->
  match rest with [] => True | c :: _ => atom_match icase a c = false end ->
  (forall x y, ds2 = x ++ y -> x <> [] ->
     k (pos + length ds1 + length x) (y ++ rest) cs = None) ->
  min <= length ds1 ->
  k (pos + length ds1) (ds2 ++ rest) cs = Some out ->
  run icase (Rep a min None) pos (ds1 ++ ds2 ++ rest) cs k = Some out.
Proof. intros. cbn [run]. now apply rep_atom_give_back. Qed.

End Backtracking.

Section Literal.

Variable A : Type.
Implicit Types (k : cont A).

(** A literal under the [i] flag matches its text in any letter case,
    and nothing else. *)
Lemma run_str cap :
  forall s pos cs k,
    run true (str cap) pos s cs k =
    if ci_prefix cap s
    then k (pos + length cap) (skipn (length cap) s) cs
    else None.
Proof.
  induction cap as [|p cap IH]; intros s pos cs k.
  - simpl. now rewrite Nat.add_0_r.
  - destruct cap as [|q cap].
    + simpl str. cbn [run atom_match canon ci_prefix length skipn].
      destruct s as [|c s]; [reflexivity|].
      rewrite andb_true_r. replace (pos + 1) with (S pos) by lia.
      reflexivity.
    + change (str (p :: q :: cap)) with (Seq (Atom (Lit p)) (str (q :: cap))).
      cbn [run atom_match canon].
      destruct s as [|c s]; [reflexivity|].
      cbn [ci_prefix]. destruct (N.eqb (to_upper p) (to_upper c)); [|reflexivity].
      rewrite IH. cbn [andb].
      change (length (p :: q :: cap)) with (S (length (q :: cap))).
      cbn [skipn]. replace (S pos + length (q :: cap))
        with (pos + S (length (q :: cap))) by lia.
      reflexivity.
Qed.

End Literal.

Lemma ci_prefix_app cap cap' s :
  length cap' = length cap -> ci_prefix cap cap' = true ->
  ci_prefix cap (cap' ++ s) = true.
Proof.
  revert cap'. induction cap as [|p cap IH]; intros cap' Hl H; [reflexivity|].
  destruct cap' as [|c cap']; [discriminate|]. simpl in *.
  apply andb_true_iff in H as [-> H]. simpl. apply IH; [lia|assumption].
Qed.

Lemma skipn_length_app {X} (a b : list X) : skipn (length a) (a ++ b) = b.
Proof. induction a; simpl; auto. Qed.

Section Labelled.

Variables (cap : text) (cls : atom).

Hypothesis cls_visible :
  forall c, atom_match true cls c = true -> is_space c = false.

Lemma labelled_no_caption pos s :
  ci_prefix cap s = false -> match_at (labelled cap cls) pos s = None.
Proof.
  intros H. unfold match_at, labelled.
  cbn [body ignoreCase ngroups seq run]. now rewrite run_str, H.
Qed.

Lemma search_past (pre s : text) :
  forall pos,
    (forall i, i < length pre -> ci_prefix cap (skipn i (pre ++ s)) = false) ->
    search (labelled cap cls) pos (pre ++ s)
    = search (labelled cap cls) (pos + length pre) s.
Proof.
  induction pre as [|c pre IH]; intros pos H.
  - simpl. now rewrite Nat.add_0_r.
  - simpl app. simpl search.
    rewrite labelled_no_caption by (apply (H 0); simpl; lia).
    rewrite IH.
    + f_equal. simpl. lia.
    + intros i Hi. apply (H (S i)). simpl. lia.
Qed.

Lemma search_absent (s : text) :
  forall pos,
    (forall i, ci_prefix cap (skipn i s) = false) ->
    search (labelled cap cls) pos s = None.
Proof.
  induction s as [|c s IH]; intros pos H; simpl.
  - now rewrite labelled_no_caption by apply (H 0).
  - rewrite labelled_no_caption by apply (H 0).
    apply IH. intros i. apply (H (S i)).
Qed.

(** The pattern of a caption finds the value under the first caption. *)
Lemma labelled_exec text pre v :
  first_labelled cap cls text pre v ->
  exists m, exec (labelled cap cls) text = Some m /\ group 1 m = v.
Proof.
  intros (cap' & w1 & w2 & rest & -> & Hlen & Hcap & Hfirst & Hw1 & Hw2
          & Hlf & Hv & Hcls & Hrest).
  assert (Hvhead : match v ++ rest with
                   | [] => True
                   | c :: _ => is_space c = false
                   end).
  { destruct v as [|c v]; [congruence|]. simpl in *.
    apply andb_true_iff in Hcls as [Hc _]. now apply cls_visible. }
  unfold exec. rewrite search_past by exact Hfirst.
  eexists. split.
  - apply search_here. unfold match_at, labelled.
    cbn [body ignoreCase ngroups seq repeat].
    apply run_seq. rewrite run_str.
    rewrite ci_prefix_app by assumption.
    rewrite <- Hlen, skipn_length_app.
    apply run_seq. unfold nl. cbn [seq]. apply run_seq. unfold star.
    apply run_rep_give_back with (ds2 := LF :: w2).
    + exact Hw1.
    + exact Hvhead.
    + intros x y Hxy Hx.
      destruct x as [|x0 x]; [congruence|]. injection Hxy as _ Hxy.
      destruct y as [|y0 y].
      * simpl app. destruct (v ++ rest) as [|c t]; [reflexivity|].
        cbn [run atom_match canon]. change (to_upper LF) with LF.
        destruct (N.eqb_spec LF (to_upper c)) as [E|E]; [|reflexivity].
        symmetry in E. apply to_upper_low in E; [|unfold LF; lia].
        subst c. discriminate Hvhead.
      * cbn [run atom_match canon app]. change (to_upper LF) with LF.
        destruct (N.eqb_spec LF (to_upper y0)) as [E|E]; [|reflexivity].
        symmetry in E. apply to_upper_low in E; [|unfold LF; lia].
        exfalso. apply Hlf. rewrite Hxy. apply in_or_app. right.
        subst y0. now left.
    + lia.
    + cbv beta. change ((LF :: w2) ++ v ++ rest) with (LF :: w2 ++ v ++ rest).
      apply run_seq, run_atom; [reflexivity|].
      apply run_rep.
      * exact Hw2.
      * exact I.
      * destruct (v ++ rest) as [|c t]; [exact I|]. left. exact Hvhead.
      * lia.
      * unfold plus. apply run_grp_rep.
        -- exact Hcls.
        -- exact I.
        -- destruct rest; [exact I|now left].
        -- destruct v; [congruence|simpl; lia].
        -- reflexivity.
  - reflexivity.
Qed.

Lemma labelled_exec_absent text :
  caption_absent cap text -> exec (labelled cap cls) text = None.
Proof. intros H. apply search_absent. exact H. Qed.

End Labelled.

Lemma pnl_num_visible c : atom_match true pnl_num c = true -> is_space c = false.
Proof.
  unfold pnl_num. cbn [atom_match existsb item_match canon xorb].
  change (to_upper PLUS) with PLUS. change (to_upper MINUS) with MINUS.
  change (to_upper DOT) with DOT. change (to_upper COMMA) with COMMA.
  intros H.
  repeat (apply orb_true_iff in H as [H|H]); try discriminate H.
  - apply N.eqb_eq in H. symmetry in H.
    apply to_upper_low in H; [|unfold PLUS; lia]. now subst.
  - apply N.eqb_eq in H. symmetry in H.
    apply to_upper_low in H; [|unfold MINUS; lia]. now subst.
  - now apply digit_not_space.
  - apply N.eqb_eq in H. symmetry in H.
    apply to_upper_low in H; [|unfold DOT; lia]. now subst.
  - apply N.eqb_eq in H. symmetry in H.
    apply to_upper_low in H; [|unfold COMMA; lia]. now subst.
Qed.

(* ===================================================================== *)
(** * Further facts: what a match consists of *)
(* ===================================================================== *)

(** ** Reading a match backwards *)

Section Inversion.

Variable icase : bool.
Variable A : Type.
Implicit Types (k : cont A) (out : A).

Lemma run_atom_inv a pos s cs k out :
  run icase (Atom a) pos s cs k = Some out ->
  exists c s',
    s = c :: s' /\ atom_match icase a c = true /\ k (S pos) s' cs = Some out.
Proof.
  cbn [run]. destruct s as [|c s']; [discriminate|].
  destruct (atom_match icase a c) eqn:E; [|discriminate].
  intros H. exists c, s'. auto.
Qed.

(** A quantifier that succeeds has taken a run of matching characters,
    within its bounds, and its continuation succeeds after it. *)
Lemma rep_atom_inv a min max k out :
  forall s n pos cs,
    rep_atom icase a min max n pos s cs k = Some out ->
    exists ds rest,
      s = ds ++ rest
      /\ forallb (atom_match icase a) ds = true
      /\ min <= n + length ds
      /\ (forall m, max = Some m -> n <= m -> n + length ds <= m)
      /\ k (pos + length ds) rest cs = Some out.
Proof.
  induction s as [|c s IH]; intros n pos cs; simpl rep_atom.
  - simpl. destruct (Nat.leb_spec min n); [|discriminate].
    intros Hk. exists [], []. simpl. rewrite !Nat.add_0_r.
    repeat split; auto; try lia.
  - assert (Hstop :
      (if Nat.leb min n then k pos (c :: s) cs else None) = Some out ->
      exists ds rest,
        c :: s = ds ++ rest
        /\ forallb (atom_match icase a) ds = true
        /\ min <= n + length ds
        /\ (forall m, max = Some m -> n <= m -> n + length ds <= m)
        /\ k (pos + length ds) rest cs = Some out).
    { destruct (Nat.leb_spec min n); [|discriminate].
      intros H'. exists [], (c :: s). simpl. rewrite !Nat.add_0_r.
      repeat split; auto; try lia. }
    destruct (atom_match icase a c) eqn:Ec; [|exact Hstop].
    destruct (below max n) eqn:Eb; [|exact Hstop].
    simpl andb. cbv iota.
    destruct (rep_atom icase a min max (S n) (S pos) s cs k) as [o|] eqn:E;
      [|exact Hstop].
    simpl. intros H. injection H as ->.
    destruct (IH _ _ _ E) as (ds & rest & -> & Hds & Hmin & Hmax & Hk).
    exists (c :: ds), rest. simpl. rewrite Ec, Hds.
    repeat split; auto; try lia.
    + intros m Hm Hn. subst max. simpl in Eb. apply Nat.ltb_lt in Eb.
      specialize (Hmax m eq_refl). lia.
    + rewrite <- Hk. f_equal. lia.
Qed.

Lemma run_rep_inv a min max pos s cs k out :
  run icase (Rep a min max) pos s cs k = Some out ->
  exists ds rest,
    s = ds ++ rest
    /\ forallb (atom_match icase a) ds = true
    /\ min <= length ds
    /\ (forall m, max = Some m -> length ds <= m)
    /\ k (pos + length ds) rest cs = Some out.
Proof.
  cbn [run]. intros H.
  destruct (rep_atom_inv _ _ _ _ _ _ _ _ H)
    as (ds & rest & -> & Hds & Hmin & Hmax & Hk).
  exists ds, rest. repeat split; auto.
  intros m Hm. apply (Hmax m Hm). lia.
Qed.

Lemma run_grp_rep_inv i a min max pos s cs k out :
  run icase (Grp i (Rep a min max)) pos s cs k = Some out ->
  exists ds rest,
    s = ds ++ rest
    /\ forallb (atom_match icase a) ds = true
    /\ min <= length ds
    /\ (forall m, max = Some m -> length ds <= m)
    /\ k (pos + length ds) rest (set_cap i ds cs) = Some out.
Proof.
  cbn [run]. intros H.
  destruct (rep_atom_inv _ _ _ _ _ _ _ _ H)
    as (ds & rest & -> & Hds & Hmin & Hmax & Hk).
  exists ds, rest. rewrite firstn_cap in Hk. repeat split; auto.
  intros m Hm. apply (Hmax m Hm). lia.
Qed.

Lemma run_alt_inv (r1 r2 : regex) pos s cs k out :
  run icase (Alt r1 r2) pos s cs k = Some out ->
  run icase r1 pos s cs k = Some out \/ run icase r2 pos s cs k = Some out.
Proof.
  cbn [run]. destruct (run icase r1 pos s cs k); simpl; auto.
Qed.

Lemma run_opt_inv (r : regex) pos s cs k out :
  run icase (Opt r) pos s cs k = Some out ->
  run icase r pos s cs
    (fun p' s' cs' => if Nat.eqb p' pos then None else k p' s' cs') = Some out
  \/ k pos s cs = Some out.
Proof.
  cbn [run].
  match goal with |- orelse ?x _ = _ -> _ => destruct x end; simpl; auto.
Qed.

End Inversion.

(** A successful search is a match at some position of the text. *)
Lemma search_inv p s :
  forall pos m,
    search p pos s = Some m ->
    exists i, i <= length s /\ match_at p (pos + i) (skipn i s) = Some m.
Proof.
  induction s as [|c s IH]; intros pos m; simpl search.
  - destruct (match_at p pos []) eqn:E; [|discriminate].
    intros H. injection H as <-. exists 0. rewrite Nat.add_0_r. auto.
  - destruct (match_at p pos (c :: s)) eqn:E.
    + intros H. injection H as <-. exists 0. rewrite Nat.add_0_r.
      split; [lia|exact E].
    + intros H. destruct (IH _ _ H) as (i & Hi & Hm).
      exists (S i). simpl. split; [lia|].
      rewrite <- Hm. f_equal. lia.
Qed.

(** A match at some position makes the search succeed, there or
    earlier. *)
Lemma search_finds p pre s :
  forall pos,
    match_at p (pos + length pre) s <> None ->
    search p pos (pre ++ s) <> None.
Proof.
  induction pre as [|c pre IH]; intros pos H.
  - simpl in *. rewrite Nat.add_0_r in H.
    destruct s; simpl; destruct (match_at p pos _); congruence.
  - simpl app. simpl search.
    destruct (match_at p pos (c :: pre ++ s)); [discriminate|].
    apply IH.
    replace (S pos + length pre) with (pos + length (c :: pre))
      by (simpl; lia).
    exact H.
Qed.

Lemma some_lift {A} (x y : option A) :
  (forall out, y = Some out -> x = Some out) -> y <> None -> x <> None.
Proof.
  intros H Hy. destruct y as [out|]; [|congruence].
  rewrite (H out eq_refl). discriminate.
Qed.

Section Totality.

Variable icase : bool.
Variable A : Type.
Implicit Types (k : cont A).

(** A star in front of a continuation that cannot fail cannot fail. *)
Lemma rep_atom_total a max k :
  (forall p s cs, k p s cs <> None) ->
  forall s n pos cs, rep_atom icase a 0 max n pos s cs k <> None.
Proof.
  intros Hk. destruct s as [|c s]; intros n pos cs; simpl rep_atom.
  - simpl. apply Hk.
  - match goal with |- orelse ?x _ <> _ => destruct x end; simpl;
      [discriminate|apply Hk].
Qed.

Lemma run_opt_total (r : regex) k pos s cs :
  (forall p s cs, k p s cs <> None) -> run icase (Opt r) pos s cs k <> None.
Proof.
  intros Hk. cbn [run].
  match goal with |- orelse ?x _ <> _ => destruct x end; simpl;
    [discriminate|apply Hk].
Qed.

Lemma run_star_total a max k pos s cs :
  (forall p s cs, k p s cs <> None) ->
  run icase (Rep a 0 max) pos s cs k <> None.
Proof. intros Hk. cbn [run]. now apply rep_atom_total. Qed.

Lemma run_seq_total (r1 r2 : regex) k pos s cs :
  run icase r1 pos s cs (fun p' s' cs' => run icase r2 p' s' cs' k) <> None ->
  run icase (Seq r1 r2) pos s cs k <> None.
Proof. intros H. exact H. Qed.

End Totality.

Lemma run_seq_inv icase A (r1 r2 : regex) pos s cs (k : cont A) out :
  run icase (Seq r1 r2) pos s cs k = Some out ->
  run icase r1 pos s cs (fun p' s' cs' => run icase r2 p' s' cs' k) = Some out.
Proof. intros H. exact H. Qed.

Lemma to_upper_id_low k : (k < 65)%N -> to_upper k = k.
Proof.
  intros H. unfold to_upper.
  replace (in_range 97%N 122%N k) with false by (symmetry; apply in_range_false; lia).
  replace (in_range 224%N 254%N k) with false by (symmetry; apply in_range_false; lia).
  replace (N.eqb k 273%N) with false by (symmetry; apply N.eqb_neq; lia).
  replace (in_range 7840%N 7935%N k) with false by (symmetry; apply in_range_false; lia).
  reflexivity.
Qed.

(** Under the [i] flag a literal below the letters matches itself only. *)
Lemma lit_low icase k c :
  (k < 65)%N -> atom_match icase (Lit k) c = true -> c = k.
Proof.
  intros Hk. cbn [atom_match]. unfold canon. destruct icase.
  - rewrite (to_upper_id_low Hk). intros H. apply N.eqb_eq in H.
    symmetry in H. now apply to_upper_low in H.
  - intros H. apply N.eqb_eq in H. congruence.
Qed.

Lemma ci_prefix_two a b s :
  ci_prefix [a; b] s = true ->
  exists m1 m2 rest,
    s = m1 :: m2 :: rest /\ to_upper m1 = to_upper a /\ to_upper m2 = to_upper b.
Proof.
  destruct s as [|m1 [|m2 rest]]; simpl; try discriminate.
  - now rewrite andb_false_r.
  - rewrite andb_true_r. intros H. apply andb_true_iff in H as [H1 H2].
    apply N.eqb_eq in H1, H2. exists m1, m2, rest. auto.
Qed.

(** What a match of the date pattern consists of. *)
Lemma custom_date_inv pos s m :
  match_at re_custom_date pos s = Some m ->
  exists day month year hour minute second ws1 ws2 mer tail,
    s = date_token day month year hour minute second ws1 ws2 mer ++ tail
    /\ (forallb is_digit day = true /\ 1 <= length day <= 2)
    /\ (forallb is_digit month = true /\ 1 <= length month <= 2)
    /\ (forallb is_digit year = true /\ length year = 4)
    /\ (forallb is_space ws1 = true /\ ws1 <> [])
    /\ (forallb is_digit hour = true /\ 1 <= length hour <= 2)
    /\ (forallb is_digit minute = true /\ length minute = 2)
    /\ (forallb is_digit second = true /\ length second = 2)
    /\ forallb is_space ws2 = true
    /\ meridiem_token mer
    /\ group 1 m = day /\ group 2 m = month /\ group 3 m = year
    /\ group 4 m = hour /\ group 5 m = minute /\ group 6 m = second
    /\ group_opt 7 m = match mer with [] => None | _ => Some mer end.
Proof.
  unfold match_at, re_custom_date.
  cbn [body ignoreCase ngroups seq repeat plus star times].
  intros H.
  apply run_seq_inv, run_grp_rep_inv in H
    as (day & r1 & -> & Hday & Lday1 & Lday2 & H). cbv beta in H.
  apply run_seq_inv, run_atom_inv in H as (c1 & r2 & -> & Hc1 & H).
  apply lit_low in Hc1; [subst c1|unfold SLASH; lia]. cbv beta in H.
  apply run_seq_inv, run_grp_rep_inv in H
    as (month & r3 & -> & Hmonth & Lmonth1 & Lmonth2 & H). cbv beta in H.
  apply run_seq_inv, run_atom_inv in H as (c2 & r4 & -> & Hc2 & H).
  apply lit_low in Hc2; [subst c2|unfold SLASH; lia]. cbv beta in H.
  apply run_seq_inv, run_grp_rep_inv in H
    as (year & r5 & -> & Hyear & Lyear1 & Lyear2 & H). cbv beta in H.
  apply run_seq_inv, run_rep_inv in H
    as (ws1 & r6 & -> & Hws1 & Lws1 & _ & H). cbv beta in H.
  apply run_seq_inv, run_grp_rep_inv in H
    as (hour & r7 & -> & Hhour & Lhour1 & Lhour2 & H). cbv beta in H.
  apply run_seq_inv, run_atom_inv in H as (c3 & r8 & -> & Hc3 & H).
  apply lit_low in Hc3; [subst c3|unfold COLON; lia]. cbv beta in H.
  apply run_seq_inv, run_grp_rep_inv in H
    as (minute & r9 & -> & Hmin & Lmin1 & Lmin2 & H). cbv beta in H.
  apply run_seq_inv, run_atom_inv in H as (c4 & r10 & -> & Hc4 & H).
  apply lit_low in Hc4; [subst c4|unfold COLON; lia]. cbv beta in H.
  apply run_seq_inv, run_grp_rep_inv in H
    as (second & r11 & -> & Hsec & Lsec1 & Lsec2 & H). cbv beta in H.
  apply run_seq_inv, run_rep_inv in H
    as (ws2 & r12 & -> & Hws2 & _ & _ & H). cbv beta in H.
  specialize (Lday2 2 eq_refl). specialize (Lmonth2 2 eq_refl).
  specialize (Lyear2 4 eq_refl). specialize (Lhour2 2 eq_refl).
  specialize (Lmin2 2 eq_refl). specialize (Lsec2 2 eq_refl).
  assert (Hfacts :
    (forallb is_digit day = true /\ 1 <= length day <= 2)
    /\ (forallb is_digit month = true /\ 1 <= length month <= 2)
    /\ (forallb is_digit year = true /\ length year = 4)
    /\ (forallb is_space ws1 = true /\ ws1 <> [])
    /\ (forallb is_digit hour = true /\ 1 <= length hour <= 2)
    /\ (forallb is_digit minute = true /\ length minute = 2)
    /\ (forallb is_digit second = true /\ length second = 2)
    /\ forallb is_space ws2 = true).
  { repeat split; try assumption; try lia.
    intros ->. simpl in Lws1. lia. }
  apply run_opt_inv in H as [H|H].
  - cbn [run] in H. change (str (lit "SA"))
      with (str [83%N; 65%N]) in H.
    change (str (lit "CH")) with (str [67%N; 72%N]) in H.
    match type of H with
    | orelse ?x ?y = _ => destruct x as [o|] eqn:E; cbn [orelse] in H
    end.
    + injection H as ->. rewrite run_str in E.
      destruct (ci_prefix [83%N; 65%N] r12) eqn:Ep; [|discriminate].
      apply ci_prefix_two in Ep as (m1 & m2 & tail & -> & H1 & H2).
      cbn [length skipn] in E.
      match type of E with
      | (if Nat.eqb ?a ?b then _ else _) = _ =>
          replace (Nat.eqb a b) with false in E
            by (symmetry; apply Nat.eqb_neq; lia);
          replace (a - b) with 2 in E by lia
      end.
      injection E as <-.
      exists day, month, year, hour, minute, second, ws1, ws2, [m1; m2], tail.
      split; [unfold date_token; repeat (rewrite <- ?app_assoc; simpl);
              reflexivity|].
      repeat (split; [tauto|]).
      split; [right; left; unfold toUpperCase; simpl; now rewrite H1, H2|].
      repeat split.
    + rewrite run_str in H.
      destruct (ci_prefix [67%N; 72%N] r12) eqn:Ep; [|discriminate].
      apply ci_prefix_two in Ep as (m1 & m2 & tail & -> & H1 & H2).
      cbn [length skipn] in H.
      match type of H with
      | (if Nat.eqb ?a ?b then _ else _) = _ =>
          replace (Nat.eqb a b) with false in H
            by (symmetry; apply Nat.eqb_neq; lia);
          replace (a - b) with 2 in H by lia
      end.
      injection H as <-.
      exists day, month, year, hour, minute, second, ws1, ws2, [m1; m2], tail.
      split; [unfold date_token; repeat (rewrite <- ?app_assoc; simpl);
              reflexivity|].
      repeat (split; [tauto|]).
      split; [right; right; unfold toUpperCase; simpl; now rewrite H1, H2|].
      repeat split.
  - injection H as <-.
    exists day, month, year, hour, minute, second, ws1, ws2, [], r12.
    split; [unfold date_token; repeat (rewrite <- ?app_assoc; simpl);
            reflexivity|].
    repeat (split; [tauto|]).
    split; [now left|]. repeat split.
Qed.

(** The string [parseCustomDate] builds from a match. *)
Lemma custom_date_output dateStr m day month year hour minute second mer :
  exec re_custom_date dateStr = Some m ->
  forallb is_digit day = true -> 1 <= length day <= 2 ->
  forallb is_digit month = true -> 1 <= length month <= 2 ->
  forallb is_digit hour = true -> 1 <= length hour <= 2 ->
  meridiem_token mer ->
  group 1 m = day -> group 2 m = month -> group 3 m = year ->
  group 4 m = hour -> group 5 m = minute -> group 6 m = second ->
  group_opt 7 m = match mer with [] => None | _ => Some mer end ->
  parseCustomDate dateStr
  = Some (canonical day month year hour minute second mer).
Proof.
  intros Hm Hday Lday Hmonth Lmonth Hhour Lhour Hmer G1 G2 G3 G4 G5 G6 G7.
  unfold parseCustomDate. rewrite Hm, G1, G2, G3, G4, G5, G6, G7.
  rewrite parseInt_digits; [| destruct hour; [simpl in Lhour; lia|discriminate]
                            | assumption].
  rewrite hour24_token by assumption. rewrite int_toString_N.
  rewrite !padStart2_digits by assumption.
  rewrite padStart2_digits_of
    by (apply hour_of_small, two_digits_value; assumption).
  reflexivity.
Qed.

(** The date pattern matches wherever a date and a time stand, whatever
    follows them. *)
Lemma custom_date_found pos day month year hour minute second ws1 tail :
  forallb is_digit day = true -> 1 <= length day <= 2 ->
  forallb is_digit month = true -> 1 <= length month <= 2 ->
  forallb is_digit year = true -> length year = 4 ->
  forallb is_space ws1 = true -> ws1 <> [] ->
  forallb is_digit hour = true -> 1 <= length hour <= 2 ->
  forallb is_digit minute = true -> length minute = 2 ->
  forallb is_digit second = true -> length second = 2 ->
  match_at re_custom_date pos
    (day ++ SLASH :: month ++ SLASH :: year ++ ws1 ++ hour ++ COLON ::
     minute ++ COLON :: second ++ tail) <> None.
Proof.
  intros Hday Lday Hmonth Lmonth Hyear Lyear Hws1 Nws1 Hhour Lhour
         Hmin Lmin Hsec Lsec.
  assert (Hhead : exists h1 hour', hour = h1 :: hour' /\ is_space h1 = false).
  { destruct hour as [|h1 hour']; [simpl in Lhour; lia|].
    exists h1, hour'. split; [reflexivity|]. apply digit_not_space.
    simpl in Hhour. now apply andb_true_iff in Hhour. }
  unfold match_at, re_custom_date.
  cbn [body ignoreCase ngroups seq repeat plus star times].
  eapply some_lift.
  { intros out Hout. apply run_seq, run_grp_rep;
      [assumption | lia | left; reflexivity | lia | exact Hout]. }
  cbv beta. eapply some_lift.
  { intros out Hout. apply run_seq, run_atom; [reflexivity | exact Hout]. }
  cbv beta. eapply some_lift.
  { intros out Hout. apply run_seq, run_grp_rep;
      [assumption | lia | left; reflexivity | lia | exact Hout]. }
  cbv beta. eapply some_lift.
  { intros out Hout. apply run_seq, run_atom; [reflexivity | exact Hout]. }
  cbv beta. eapply some_lift.
  { intros out Hout. apply run_seq, run_grp_rep;
      [assumption | lia
      | match goal with |- match ?l with _ => _ end =>
          destruct l; [exact I | right; now rewrite Lyear] end
      | lia | exact Hout]. }
  cbv beta. eapply some_lift.
  { intros out Hout. apply run_seq, run_rep;
      [assumption | exact I
      | destruct Hhead as (h1 & hour' & -> & Hh); left; exact Hh
      | destruct ws1; [congruence|simpl; lia] | exact Hout]. }
  cbv beta. eapply some_lift.
  { intros out Hout. apply run_seq, run_grp_rep;
      [assumption | lia | left; reflexivity | lia | exact Hout]. }
  cbv beta. eapply some_lift.
  { intros out Hout. apply run_seq, run_atom; [reflexivity | exact Hout]. }
  cbv beta. eapply some_lift.
  { intros out Hout. apply run_seq, run_grp_rep;
      [assumption | lia | left; reflexivity | lia | exact Hout]. }
  cbv beta. eapply some_lift.
  { intros out Hout. apply run_seq, run_atom; [reflexivity | exact Hout]. }
  cbv beta. eapply some_lift.
  { intros out Hout. apply run_seq, run_grp_rep;
      [assumption | lia
      | match goal with |- match ?l with _ => _ end =>
          destruct l; [exact I | right; now rewrite Lsec] end
      | lia | exact Hout]. }
  cbv beta. apply run_seq_total, run_star_total.
  intros p s cs. apply run_opt_total. intros; discriminate.
Qed.

Lemma parseCustomDate_defined dateStr :
  exec re_custom_date dateStr <> None -> parseCustomDate dateStr <> None.
Proof.
  unfold parseCustomDate. destruct (exec re_custom_date dateStr);
    [discriminate|congruence].
Qed.

(** ** The anchors of the detectors *)

Lemma vn_anchor text :
  parseFormatVN text = None
  <-> includes GiaMo text = false /\ includes GiaDong text = false.
Proof.
  unfold parseFormatVN.
  destruct (includes GiaMo text), (includes GiaDong text); simpl;
    split; try discriminate; try tauto; intros [? ?]; discriminate.
Qed.

Lemma grid_anchor text :
  parseFormatAivoraGrid text = None <-> includes (lit "Open Time") text = false.
Proof.
  unfold parseFormatAivoraGrid.
  destruct (includes (lit "Open Time") text); simpl;
    split; try discriminate; tauto.
Qed.

Lemma mobile_anchor text :
  parseFormatBitunixMobile text = None
  <-> includes (lit "Time Opened") text = false.
Proof.
  unfold parseFormatBitunixMobile.
  destruct (includes (lit "Time Opened") text); simpl;
    split; try discriminate; tauto.
Qed.

Lemma en_anchor text :
  parseFormatAivoraEn text = None
  <-> includes (lit "Opening Average Price") text = false
      \/ includes (lit "Time Opened") text = true.
Proof.
  unfold parseFormatAivoraEn.
  destruct (includes (lit "Opening Average Price") text),
           (includes (lit "Time Opened") text); simpl;
    split; try discriminate; try tauto; intros [?|?]; discriminate.
Qed.

Lemma web_anchor text :
  parseFormatBitunixWeb text = None
  <-> includes (lit "Entry Price") text = false
      \/ includes (lit "Time Opened") text = false.
Proof.
  unfold parseFormatBitunixWeb.
  destruct (includes (lit "Entry Price") text),
           (includes (lit "Time Opened") text); simpl;
    split; try discriminate; try tauto; intros [?|?]; discriminate.
Qed.

Lemma or_else_None a b : or_else a b = None <-> a = None /\ b = None.
Proof. destruct a; simpl; split; try tauto; try discriminate; intros [? ?]; discriminate. Qed.

Lemma or_else_guard (b : bool) (x y : option Partial.t) :
  (x = None <-> b = false) -> or_else x y = if b then x else y.
Proof.
  destruct b, x; simpl; intros [H1 H2]; try reflexivity.
  - discriminate (H1 eq_refl).
  - discriminate (H2 eq_refl).
Qed.

Lemma tabular_anchor text :
  parseFormatTabular text = None <-> tabular_shape text = false.
Proof.
  unfold parseFormatTabular, tabular_shape.
  destruct (Nat.ltb_spec (length (split TAB text)) 8) as [Hl|Hl].
  - replace (Nat.leb 8 (length (split TAB text))) with false
      by (symmetry; apply Nat.leb_gt; lia).
    split; reflexivity.
  - replace (Nat.leb 8 (length (split TAB text))) with true
      by (symmetry; apply Nat.leb_le; lia).
    destruct (test leading_digit (trim (part 0 (split TAB text)))); simpl;
      split; try discriminate; reflexivity.
Qed.

(** ** Splitting *)

Lemma split_app c a b : split c (a ++ c :: b) = split c a ++ split c b.
Proof.
  induction a as [|x a IH]; simpl.
  - now rewrite N.eqb_refl.
  - destruct (N.eqb x c); [now rewrite IH|].
    rewrite IH. destruct (split c a) as [|p ps] eqn:E; [|reflexivity].
    now apply split_not_nil in E.
Qed.

Lemma part_app i (l l' : list text) : i < length l -> part i (l ++ l') = part i l.
Proof. intros H. unfold part. now apply app_nth1. Qed.

(** ** Positions of the separators *)

Lemma lastIndexOf_from_app c u :
  forall v i found,
    lastIndexOf_from c (u ++ v) i found
    = lastIndexOf_from c v (i + Z.of_nat (length u))
        (lastIndexOf_from c u i found).
Proof.
  induction u as [|x u IH]; intros v i found.
  - simpl. now rewrite Z.add_0_r.
  - cbn [app lastIndexOf_from length]. rewrite IH. f_equal. lia.
Qed.

Lemma lastIndexOf_from_lt c s :
  forall i found,
    (found < i)%Z -> (lastIndexOf_from c s i found < i + Z.of_nat (length s))%Z.
Proof.
  induction s as [|x s IH]; intros i found H.
  - simpl. lia.
  - cbn [lastIndexOf_from length].
    specialize (IH (i + 1)%Z (if N.eqb x c then i else found)).
    destruct (N.eqb x c); lia.
Qed.

Lemma lastIndexOf_last c u v :
  ~ In c v -> lastIndexOf c (u ++ c :: v) = Z.of_nat (length u).
Proof.
  intros H. unfold lastIndexOf. rewrite lastIndexOf_from_app.
  cbn [lastIndexOf_from]. rewrite N.eqb_refl.
  now rewrite lastIndexOf_from_absent.
Qed.

Lemma lastIndexOf_before c u v :
  In c u -> ~ In c v ->
  (-1 < lastIndexOf c (u ++ v) < Z.of_nat (length u))%Z.
Proof.
  intros Hu Hv. unfold lastIndexOf. rewrite lastIndexOf_from_app.
  rewrite lastIndexOf_from_absent by assumption.
  split.
  - pose proof (@lastIndexOf_from_present c u 0%Z (-1)%Z Hu). lia.
  - pose proof (@lastIndexOf_from_lt c u 0%Z (-1)%Z). lia.
Qed.

(** ** Runs of digits *)

Lemma digits_numeric l : forallb is_digit l = true -> forallb numeric l = true.
Proof.
  intros Hl. rewrite forallb_forall in *. intros x Hx. unfold numeric.
  now rewrite (Hl x Hx).
Qed.

Lemma remove_all_run c l :
  forallb is_digit l = true -> (c < 48 \/ 57 < c)%N -> remove_all c l = l.
Proof.
  intros Hl Hc. induction l as [|x l IH]; [reflexivity|].
  simpl in Hl. apply andb_true_iff in Hl as [Hx Hl].
  unfold remove_all in *. simpl.
  rewrite (@digit_neq x c Hx Hc). simpl. now rewrite IH.
Qed.

Lemma replace_first_run c d a b :
  forallb is_digit a = true -> (c < 48 \/ 57 < c)%N ->
  replace_first c d (a ++ c :: b) = a ++ d :: b.
Proof.
  intros Ha Hc. induction a as [|x a IH]; simpl.
  - now rewrite N.eqb_refl.
  - simpl in Ha. apply andb_true_iff in Ha as [Hx Ha].
    rewrite (@digit_neq x c Hx Hc). now rewrite IH.
Qed.

(** ** Groups of digits *)

Lemma concat_digits (gs : list text) :
  Forall (fun g => forallb is_digit g = true) gs ->
  forallb is_digit (concat gs) = true.
Proof.
  induction 1 as [|g l Hg Hl IH]; [reflexivity|].
  simpl. now rewrite forallb_app, Hg, IH.
Qed.

Lemma ungrouped_digits (g0 : text) (gs : list text) :
  forallb is_digit g0 = true ->
  Forall (fun g => forallb is_digit g = true) gs ->
  forallb is_digit (ungrouped g0 gs) = true.
Proof.
  intros H0 Hs. unfold ungrouped.
  now rewrite forallb_app, H0, (concat_digits Hs).
Qed.

Lemma remove_all_grouped (sep : char) (g0 : text) (gs : list text) :
  (sep < 48 \/ 57 < sep)%N ->
  forallb is_digit g0 = true ->
  Forall (fun g => forallb is_digit g = true) gs ->
  remove_all sep (grouped sep g0 gs) = ungrouped g0 gs.
Proof.
  intros sep_low H0 Hs. unfold grouped, ungrouped. rewrite remove_all_app.
  rewrite (@remove_all_run sep g0 H0 sep_low). f_equal.
  induction Hs as [|g l Hg Hl IH]; [reflexivity|].
  cbn [map concat]. rewrite remove_all_app, IH.
  unfold remove_all at 1. cbn [filter]. rewrite N.eqb_refl. cbn [negb].
  fold (remove_all sep g). now rewrite (@remove_all_run sep g Hg sep_low).
Qed.

Lemma grouped_other (sep : char) (g0 : text) (gs : list text) (c : char) :
  forallb is_digit g0 = true ->
  Forall (fun g => forallb is_digit g = true) gs ->
  c <> sep -> (c < 48 \/ 57 < c)%N -> ~ In c (grouped sep g0 gs).
Proof.
  intros H0 Hs Hne Hc Hin. unfold grouped in Hin.
  apply in_app_or in Hin as [Hin|Hin].
  - revert Hin. now apply digits_no.
  - induction Hs as [|g l Hg Hl IH]; [exact Hin|].
    cbn [map concat] in Hin. apply in_app_or in Hin as [[Hin|Hin]|Hin].
    + congruence.
    + revert Hin. now apply digits_no.
    + now apply IH.
Qed.

Lemma grouped_sep (sep : char) (g0 : text) (gs : list text) :
  gs <> [] -> In sep (grouped sep g0 gs).
Proof.
  intros Hne. unfold grouped. apply in_or_app. right.
  destruct gs as [|g l]; [congruence|]. simpl. now left.
Qed.

Lemma grouped_numeric (sep : char) (g0 : text) (gs : list text) :
  forallb is_digit g0 = true ->
  Forall (fun g => forallb is_digit g = true) gs ->
  (sep = DOT \/ sep = COMMA) -> forallb numeric (grouped sep g0 gs) = true.
Proof.
  intros H0 Hs Hsep. unfold grouped. rewrite forallb_app.
  rewrite (@digits_numeric g0 H0). simpl.
  induction Hs as [|g l Hg Hl IH]; [reflexivity|].
  cbn [map concat]. rewrite forallb_app, IH, andb_true_r.
  cbn [forallb]. rewrite (@digits_numeric g Hg), andb_true_r.
  unfold numeric. destruct Hsep as [->| ->]; reflexivity.
Qed.

(** ** [parseNumber] on a clean token *)

Lemma signed_false x : signed false x = x.
Proof. now destruct x. Qed.

(** A token of digits and separators that begins with a digit goes to
    the separator rules as it is. *)
Lemma parseNumber_clean s :
  match s with d :: _ => is_digit d = true | [] => False end ->
  forallb numeric s = true ->
  ~ In MINUS s ->
  parseNumber s = parseFloat (separators s).
Proof.
  destruct s as [|d s]; [intros []|]. intros Hd Hnum HnoM.
  assert (HnoS : ~ In SLASH (d :: s)).
  { intros Hin. rewrite forallb_forall in Hnum. apply Hnum in Hin.
    vm_compute in Hin. discriminate. }
  rewrite parseNumber_unguarded;
    [| discriminate
     | now apply not_iso_without_minus
     | now apply not_slash_without_slash ].
  assert (Hneg : isNegative (d :: s) = false).
  { unfold isNegative. rewrite (@strip_numeric (d :: s) Hnum).
    rewrite startsWith_cons, N.eqb_sym.
    now rewrite (@digit_neq d MINUS Hd) by (unfold MINUS; lia). }
  unfold unsigned. rewrite Hneg, (@strip_numeric (d :: s) Hnum).
  apply signed_false.
Qed.

(** ** The last separator decides *)

Lemma separators_comma_last u c :
  In DOT u -> ~ In COMMA c -> ~ In DOT c ->
  separators (u ++ COMMA :: c)
  = replace_first COMMA DOT (remove_all DOT (u ++ COMMA :: c)).
Proof.
  intros Hu Hc Hd. unfold separators.
  rewrite (@lastIndexOf_last COMMA u c Hc).
  assert (Hd' : ~ In DOT (COMMA :: c)) by (intros [E|E]; [discriminate E|tauto]).
  pose proof (@lastIndexOf_before DOT u (COMMA :: c) Hu Hd') as [H1 H2].
  replace (-1 <? Z.of_nat (length u))%Z with true by (symmetry; apply Z.ltb_lt; lia).
  replace (-1 <? lastIndexOf DOT (u ++ COMMA :: c))%Z with true
    by (symmetry; apply Z.ltb_lt; lia).
  replace (lastIndexOf DOT (u ++ COMMA :: c) <? Z.of_nat (length u))%Z with true
    by (symmetry; apply Z.ltb_lt; lia).
  reflexivity.
Qed.

Lemma separators_dot_last u c :
  In COMMA u -> ~ In COMMA c -> ~ In DOT c ->
  separators (u ++ DOT :: c) = remove_all COMMA (u ++ DOT :: c).
Proof.
  intros Hu Hc Hd. unfold separators.
  rewrite (@lastIndexOf_last DOT u c Hd).
  assert (Hc' : ~ In COMMA (DOT :: c)) by (intros [E|E]; [discriminate E|tauto]).
  pose proof (@lastIndexOf_before COMMA u (DOT :: c) Hu Hc') as [H1 H2].
  replace (-1 <? Z.of_nat (length u))%Z with true by (symmetry; apply Z.ltb_lt; lia).
  replace (-1 <? lastIndexOf COMMA (u ++ DOT :: c))%Z with true
    by (symmetry; apply Z.ltb_lt; lia).
  replace (Z.of_nat (length u) <? lastIndexOf COMMA (u ++ DOT :: c))%Z with false
    by (symmetry; apply Z.ltb_ge; lia).
  reflexivity.
Qed.

(** ** What the guards and the sign look at *)

(** A text that does not begin with a digit has neither date shape. *)
Lemma shape_head s :
  match s with c :: _ => is_digit c = false | [] => True end ->
  test re_iso_prefix s = false /\ test re_slash_prefix s = false.
Proof.
  rewrite test_iso_prefix, test_slash_prefix.
  destruct s as [|c s]; [split; reflexivity|]. intros H.
  split.
  - do 9 (destruct s as [|? s]; [reflexivity|]).
    unfold iso_shape. now rewrite H.
  - do 9 (destruct s as [|? s]; [reflexivity|]).
    unfold slash_shape. now rewrite H.
Qed.

Lemma numeric_digit c : numeric c = false -> is_digit c = false.
Proof. unfold numeric. destruct (is_digit c); [discriminate|reflexivity]. Qed.

Lemma filter_numeric_none pre :
  forallb (fun c => negb (numeric c)) pre = true -> filter numeric pre = [].
Proof.
  induction pre as [|x pre IH]; [reflexivity|]. simpl.
  intros H. apply andb_true_iff in H as [Hx H].
  destruct (numeric x); [discriminate|]. now apply IH.
Qed.

Lemma filter_numeric_digits y :
  forallb is_digit y = true -> filter numeric y = y.
Proof.
  intros H. rewrite <- strip_filter. apply strip_numeric.
  now apply digits_numeric.
Qed.

(** [parseFloat] stops at the first character that cannot continue the
    literal. *)
Lemma parseFloat_int_prefix y c r :
  y <> [] -> forallb is_digit y = true ->
  is_digit c = false -> c <> DOT -> c <> 101%N -> c <> 69%N ->
  parseFloat (y ++ c :: r) = int (digits_value y).
Proof.
  intros Hne Hy Hc Hdot He HE. destruct y as [|d y]; [congruence|].
  assert (Hd : is_digit d = true) by (simpl in Hy; now apply andb_true_iff in Hy).
  unfold parseFloat. simpl app. simpl trimStart.
  rewrite (@digit_not_space d Hd). unfold take_sign.
  rewrite (@digit_neq d MINUS Hd), (@digit_neq d PLUS Hd) by (unfold MINUS, PLUS; lia).
  replace (startsWith (lit "Infinity") (d :: y ++ c :: r)) with false.
  2:{ change (lit "Infinity") with (73%N :: lit "nfinity").
      rewrite startsWith_cons, N.eqb_sym, (@digit_neq d 73 Hd) by lia.
      reflexivity. }
  change (d :: y ++ c :: r) with ((d :: y) ++ c :: r).
  rewrite (@span_all is_digit (d :: y) (c :: r) Hy Hc).
  replace (N.eqb c DOT) with false by (symmetry; now apply N.eqb_neq).
  rewrite app_nil_r. unfold exponent.
  replace (N.eqb c 101) with false by (symmetry; now apply N.eqb_neq).
  replace (N.eqb c 69) with false by (symmetry; now apply N.eqb_neq).
  reflexivity.
Qed.

(** ** The earlier generation *)

Lemma legacy_unguarded str :
  str <> [] -> test re_iso_prefix str = false ->
  test re_slash_prefix str = false ->
  Legacy.parseNumber str =
  signed (isNegative str) (parseFloat (Legacy.separators (unsigned str))).
Proof.
  intros Hne H1 H2. unfold Legacy.parseNumber.
  destruct str; [congruence|]. now rewrite H1, H2.
Qed.

(** ** What the captures of a match are *)



Lemma matchAll_from_In p :
  forall fuel pos s m,
    In m (matchAll_from fuel p pos s) ->
    exists pos' s', match_at p pos' s' = Some m.
Proof.
  induction fuel as [|fuel IH]; intros pos s m; simpl; [intros []|].
  destruct (search p pos s) as [m0|] eqn:E; [|intros []].
  intros [<-|Hin].
  - apply search_inv in E as (i & _ & E). eauto.
  - match type of Hin with
    | In _ (if ?b then _ else _) => destruct b
    end; [destruct Hin|]. now apply IH in Hin.
Qed.

Lemma matchAll_In p s m :
  In m (matchAll p s) -> exists pos' s', match_at p pos' s' = Some m.
Proof. apply matchAll_from_In. Qed.





(** ** The leverage *)






(** ** The dates of the Vietnamese layout *)

Lemma run_grp_inv icase A i (r : regex) pos s cs (k : cont A) out :
  run icase (Grp i r) pos s cs k = Some out ->
  run icase r pos s cs
    (fun p' s' cs' => k p' s' (set_cap i (firstn (p' - pos) s) cs')) = Some out.
Proof. intros H. exact H. Qed.

Lemma some_inj {X} (a b : X) : Some a = Some b -> a = b.
Proof. intros H. now injection H. Qed.

(** What stands under 'Ngày' in a match of [vn_date] is read by
    [parseCustomDate]. *)
Lemma vn_date_parses pos s m :
  match_at vn_date pos s = Some m -> parseCustomDate (group 1 m) <> None.
Proof.
  unfold match_at, vn_date.
  cbn [body ignoreCase ngroups seq repeat plus star nl times].
  intros H. apply run_seq_inv in H. rewrite run_str in H.
  destruct (ci_prefix Ngay s); [|discriminate].
  do 2 apply run_seq_inv in H.
  apply run_rep_inv in H as (w1 & r1 & E1 & _ & _ & _ & H). cbv beta in H.
  apply run_seq_inv, run_atom_inv in H as (c & r2 & -> & _ & H).
  cbv beta in H.
  apply run_rep_inv in H as (w2 & r3 & -> & _ & _ & _ & H). cbv beta in H.
  apply run_grp_inv in H.
  apply run_seq_inv, run_rep_inv in H
    as (day & t1 & -> & Hday & Lday1 & Lday2 & H). cbv beta in H.
  apply run_seq_inv, run_atom_inv in H as (c1 & t2 & -> & Hc1 & H).
  apply lit_low in Hc1; [subst c1|unfold SLASH; lia]. cbv beta in H.
  apply run_seq_inv, run_rep_inv in H
    as (month & t3 & -> & Hmonth & Lmonth1 & Lmonth2 & H). cbv beta in H.
  apply run_seq_inv, run_atom_inv in H as (c2 & t4 & -> & Hc2 & H).
  apply lit_low in Hc2; [subst c2|unfold SLASH; lia]. cbv beta in H.
  apply run_seq_inv, run_rep_inv in H
    as (year & t5 & -> & Hyear & Lyear1 & Lyear2 & H). cbv beta in H.
  apply run_seq_inv, run_rep_inv in H
    as (ws1 & t6 & -> & Hws1 & Lws1 & _ & H). cbv beta in H.
  apply run_seq_inv, run_rep_inv in H
    as (hour & t7 & -> & Hhour & Lhour1 & Lhour2 & H). cbv beta in H.
  apply run_seq_inv, run_atom_inv in H as (c3 & t8 & -> & Hc3 & H).
  apply lit_low in Hc3; [subst c3|unfold COLON; lia]. cbv beta in H.
  apply run_seq_inv, run_rep_inv in H
    as (minute & t9 & -> & Hmin & Lmin1 & Lmin2 & H). cbv beta in H.
  apply run_seq_inv, run_atom_inv in H as (c4 & t10 & -> & Hc4 & H).
  apply lit_low in Hc4; [subst c4|unfold COLON; lia]. cbv beta in H.
  apply run_seq_inv, run_rep_inv in H
    as (second & t11 & -> & Hsec & Lsec1 & Lsec2 & H). cbv beta in H.
  apply run_seq_inv, run_rep_inv in H
    as (ws2 & t12 & -> & Hws2 & _ & _ & H). cbv beta in H.
  specialize (Lday2 2 eq_refl). specialize (Lmonth2 2 eq_refl).
  specialize (Lyear2 4 eq_refl). specialize (Lhour2 2 eq_refl).
  specialize (Lmin2 2 eq_refl). specialize (Lsec2 2 eq_refl).
  assert (Hws1' : ws1 <> []) by (intros ->; simpl in Lws1; lia).
  set (core := day ++ SLASH :: month ++ SLASH :: year ++ ws1 ++ hour ++ COLON ::
               minute ++ COLON :: second).
  assert (Hcore : forall t,
            day ++ SLASH :: month ++ SLASH :: year ++ ws1 ++ hour ++ COLON ::
            minute ++ COLON :: second ++ t = core ++ t).
  { intros t. unfold core. repeat (rewrite <- ?app_assoc; simpl). reflexivity. }
  assert (Hlen : length core
                 = length day + length month + length year + length ws1
                   + length hour + length minute + length second + 4).
  { unfold core. repeat (rewrite ?length_app; cbn [length]). lia. }
  assert (Hfound : forall t, parseCustomDate (core ++ t) <> None).
  { intros t. apply parseCustomDate_defined. unfold exec.
    apply (@search_finds re_custom_date [] (core ++ t) 0).
    rewrite <- Hcore. cbn [length Nat.add].
    apply custom_date_found; try assumption; lia. }
  rewrite Hcore in H.
  assert (Hend : forall p',
            length core <= p' -
              (S (pos + length Ngay + length w1) + length w2) ->
            exists t,
              firstn (p' - (S (pos + length Ngay + length w1) + length w2))
                (core ++ ws2 ++ t12) = core ++ t).
  { intros p' Hp. eexists. rewrite firstn_app. f_equal.
    now apply firstn_all2. }
  apply run_opt_inv in H as [H|H].
  - apply run_alt_inv in H as [H|H]; rewrite run_str in H;
      match type of H with
      | (if ?b then _ else _) = _ => destruct b; [|discriminate]
      end;
      match type of H with
      | (if ?b then _ else _) = _ => destruct b; [discriminate|]
      end;
      apply some_inj in H; rewrite <- H; unfold group; cbn [groups set_cap nth];
      match goal with
      | |- parseCustomDate (firstn (?p' - ?q) _) <> None =>
          destruct (Hend p') as [t ->];
            [rewrite Hlen; cbn [length lit map list_ascii_of_string]; lia
            |apply Hfound]
      end.
  - apply some_inj in H. rewrite <- H. unfold group. cbn [groups set_cap nth].
    match goal with
    | |- parseCustomDate (firstn (?p' - ?q) _) <> None =>
        destruct (Hend p') as [t ->];
          [rewrite Hlen; lia|apply Hfound]
    end.
Qed.

(** ** The times of the caption layouts *)

Lemma td_init : times_defined Partial.init.
Proof. split; discriminate. Qed.

Lemma td_open x t :
  times_defined t -> times_defined (Partial.set_openTime (Some x) t).
Proof. intros [_ H]. split; [discriminate|exact H]. Qed.

Lemma td_close x t :
  times_defined t -> times_defined (Partial.set_closeTime (Some x) t).
Proof. intros [H _]. split; [exact H|discriminate]. Qed.

Lemma td_vn_dates text t :
  times_defined t -> times_defined (vn_dates text t).
Proof.
  intros [Ho Hc]. unfold vn_dates.
  destruct (matchAll vn_date text) as [|d0 rest] eqn:E; [now split|].
  assert (H0 : parseCustomDate (group 1 d0) <> None).
  { destruct (@matchAll_In vn_date text d0) as (pos & s & Hm);
      [rewrite E; now left|].
    now apply vn_date_parses in Hm. }
  destruct rest as [|d1 rest].
  - split; [|exact Hc]. cbn. congruence.
  - assert (H1 : parseCustomDate (group 1 d1) <> None).
    { destruct (@matchAll_In vn_date text d1) as (pos & s & Hm);
        [rewrite E; right; now left|].
      now apply vn_date_parses in Hm. }
    split; cbn; congruence.
Qed.

Ltac td_step :=
  match goal with
  | |- times_defined (on_match _ _ _ _) => apply on_match_inv; [intros ? ? ?|]
  | |- times_defined (Partial.set_openTime (Some _) _) => apply td_open
  | |- times_defined (Partial.set_closeTime (Some _) _) => apply td_close
  | |- times_defined (vn_dates _ _) => apply td_vn_dates
  | |- times_defined (Partial.set_leverage _ ?t) => change (times_defined t)
  | |- times_defined (Partial.set_coin _ ?t) => change (times_defined t)
  | |- times_defined (Partial.set_quantity _ ?t) => change (times_defined t)
  | |- times_defined (Partial.set_openPrice _ ?t) => change (times_defined t)
  | |- times_defined (Partial.set_closePrice _ ?t) => change (times_defined t)
  | |- times_defined (Partial.set_pnl _ ?t) => change (times_defined t)
  | |- times_defined (Partial.set_fee _ ?t) => change (times_defined t)
  | |- times_defined (mobile_pnl _ _) => unfold mobile_pnl
  | |- times_defined (if ?b then _ else _) => destruct b
  | |- times_defined (match ?x with _ => _ end) => destruct x
  | |- times_defined Partial.init => exact td_init
  | H : times_defined ?t |- times_defined ?t => exact H
  end.

Lemma times_defined_detectors d text p :
  In d caption_detectors -> d text = Some p -> times_defined p.
Proof.
  unfold caption_detectors. intros Hin Hd.
  repeat destruct Hin as [<-|Hin]; [.. | destruct Hin].
  - unfold parseFormatVN in Hd.
    destruct (negb (includes GiaMo text) && negb (includes GiaDong text));
      [discriminate|].
    cbv zeta in Hd. injection Hd as <-. repeat td_step.
  - unfold parseFormatAivoraGrid in Hd.
    destruct (negb (includes (lit "Open Time") text)); [discriminate|].
    cbv zeta in Hd. injection Hd as <-. repeat td_step.
  - unfold parseFormatBitunixMobile in Hd.
    destruct (negb (includes (lit "Time Opened") text)); [discriminate|].
    cbv zeta in Hd. injection Hd as <-. repeat td_step.
  - unfold parseFormatAivoraEn in Hd.
    destruct (negb (includes (lit "Opening Average Price") text)
              || includes (lit "Time Opened") text); [discriminate|].
    cbv zeta in Hd. injection Hd as <-. repeat td_step.
  - unfold parseFormatBitunixWeb in Hd.
    destruct (negb (includes (lit "Entry Price") text)
              || negb (includes (lit "Time Opened") text)); [discriminate|].
    cbv zeta in Hd. injection Hd as <-. repeat td_step.
Qed.

(** ** Patterns that begin with a caption *)

Lemma mentions_absent cap text :
  mentions cap text = false -> caption_absent cap text.
Proof.
  unfold mentions, caption_absent. intros H i.
  destruct (ci_prefix cap (skipn i text)) eqn:E; [|reflexivity].
  rewrite <- H. symmetry. apply existsb_exists.
  destruct (Nat.le_gt_cases i (length text)) as [Hi|Hi].
  - exists i. split; [apply in_seq; lia|exact E].
  - exists (length text). split; [apply in_seq; lia|].
    rewrite skipn_all. now rewrite skipn_all2 in E by lia.
Qed.

Lemma caption_absent_tail cap c s :
  caption_absent cap (c :: s) -> caption_absent cap s.
Proof. intros H i. exact (H (S i)). Qed.

Lemma caption_search_absent p cap r :
  body p = Seq (str cap) r -> ignoreCase p = true ->
  forall s pos, caption_absent cap s -> search p pos s = None.
Proof.
  intros Hb Hi.
  assert (Hm : forall s pos, ci_prefix cap s = false -> match_at p pos s = None).
  { intros s pos H. unfold match_at. rewrite Hb, Hi. cbn [run].
    now rewrite run_str, H. }
  induction s as [|c s IH]; intros pos H; simpl.
  - now rewrite Hm by apply (H 0).
  - rewrite Hm by apply (H 0). apply IH. now apply caption_absent_tail in H.
Qed.

Lemma caption_exec_absent p cap r s :
  body p = Seq (str cap) r -> ignoreCase p = true ->
  caption_absent cap s -> exec p s = None.
Proof. intros Hb Hi H. unfold exec. now apply (caption_search_absent p Hb Hi). Qed.

(** ** When [parseFloat] reads a number *)

Lemma numeric_cases c :
  numeric c = true ->
  is_digit c = true \/ c = DOT \/ c = COMMA \/ c = MINUS.
Proof.
  unfold numeric. intros H.
  destruct (is_digit c); [now left|]. right.
  destruct (N.eqb_spec c DOT); [now left|]. right.
  destruct (N.eqb_spec c COMMA); [now left|]. right.
  destruct (N.eqb_spec c MINUS); [assumption|discriminate].
Qed.

Lemma numeric_not_space c : numeric c = true -> is_space c = false.
Proof.
  intros H. apply numeric_cases in H as [H|[->|[->| ->]]];
    [now apply digit_not_space|reflexivity..].
Qed.

Lemma numeric_not_I c : numeric c = true -> N.eqb 73 c = false.
Proof.
  intros H. apply numeric_cases in H as [H|[->|[->| ->]]];
    [|reflexivity..].
  rewrite N.eqb_sym. apply digit_neq; [assumption|lia].
Qed.

Lemma numeric_not_plus c : numeric c = true -> N.eqb c PLUS = false.
Proof.
  intros H. apply numeric_cases in H as [H|[->|[->| ->]]];
    [|reflexivity..].
  apply digit_neq; [assumption|unfold PLUS; lia].
Qed.

Lemma strip_is_numeric s : forallb numeric (strip s) = true.
Proof.
  rewrite strip_filter. apply forallb_forall. intros x Hx.
  now apply filter_In in Hx.
Qed.

Lemma skipn_numeric n s :
  forallb numeric s = true -> forallb numeric (skipn n s) = true.
Proof.
  rewrite !forallb_forall. intros H x Hx. apply H.
  rewrite <- (firstn_skipn n s). apply in_or_app. now right.
Qed.

Lemma unsigned_numeric str : forallb numeric (unsigned str) = true.
Proof.
  unfold unsigned. destruct (isNegative str).
  - apply skipn_numeric, strip_is_numeric.
  - apply strip_is_numeric.
Qed.

Lemma remove_all_numeric c s :
  forallb numeric s = true -> forallb numeric (remove_all c s) = true.
Proof.
  rewrite !forallb_forall. intros H x Hx. apply H.
  unfold remove_all in Hx. now apply filter_In in Hx.
Qed.

Lemma replace_all_numeric s :
  forallb numeric s = true -> forallb numeric (replace_all COMMA DOT s) = true.
Proof.
  induction s as [|x s IH]; [reflexivity|]. simpl.
  intros H. apply andb_true_iff in H as [Hx Hs].
  rewrite (IH Hs), andb_true_r. destruct (N.eqb x COMMA); [reflexivity|exact Hx].
Qed.

Lemma replace_first_numeric s :
  forallb numeric s = true -> forallb numeric (replace_first COMMA DOT s) = true.
Proof.
  induction s as [|x s IH]; [reflexivity|]. simpl.
  intros H. apply andb_true_iff in H as [Hx Hs].
  destruct (N.eqb x COMMA); simpl.
  - exact Hs.
  - now rewrite Hx, IH.
Qed.

Lemma separators_numeric r :
  forallb numeric r = true -> forallb numeric (separators r) = true.
Proof.
  intros H. unfold separators.
  repeat match goal with
         | |- context [if ?b then _ else _] => destruct b
         end;
    auto using remove_all_numeric, replace_all_numeric, replace_first_numeric.
Qed.

(** On a string of digits, dots, commas and minus signs [parseFloat]
    is not-a-number exactly when no number can be read at its start. *)
Lemma parseFloat_unsigned_nan neg s1 :
  forallb numeric s1 = true ->
  isNaN
    (if startsWith (lit "Infinity") s1 then Inf neg
     else
       let (ip, r1) := span is_digit s1 in
       let (fp, r2) :=
         match r1 with
         | c :: r1' => if N.eqb c DOT then span is_digit r1' else ([], r1)
         | [] => ([], r1)
         end in
       match ip ++ fp with
       | [] => NaN
       | ds => Dec neg (digits_value ds) (exponent r2 - Z.of_nat (length fp))
       end)
  = negb
      match s1 with
      | d :: rest =>
          is_digit d
          || (N.eqb d DOT
              && match rest with
                 | d2 :: _ => is_digit d2
                 | [] => false
                 end)
      | [] => false
      end.
Proof.
  intros H. destruct s1 as [|d rest]; [reflexivity|].
  simpl in H. apply andb_true_iff in H as [Hd Hrest].
  change (lit "Infinity") with (73%N :: lit "nfinity").
  rewrite startsWith_cons, (numeric_not_I _ Hd). cbn [andb].
  destruct (is_digit d) eqn:Ed.
  - destruct (@span_head_digit d rest Ed) as (a & b & ->).
    cbn [orb negb]. destruct (match b with
                              | [] => ([], b)
                              | c :: r1' =>
                                  if N.eqb c DOT then span is_digit r1'
                                  else ([], b)
                              end) as [fp r2].
    reflexivity.
  - cbn [span]. rewrite Ed. cbn [orb].
    destruct (N.eqb d DOT) eqn:Edot; cbn [andb].
    + destruct rest as [|d2 rest']; [reflexivity|].
      cbn [span]. destruct (is_digit d2) eqn:E2.
      * destruct (span is_digit rest') as [a b]. reflexivity.
      * reflexivity.
    + reflexivity.
Qed.

Lemma parseFloat_nan t :
  forallb numeric t = true ->
  isNaN (parseFloat t) = negb (reads_number t).
Proof.
  intros H. unfold parseFloat, reads_number.
  destruct t as [|c t]; [reflexivity|].
  pose proof H as H'. simpl in H'. apply andb_true_iff in H' as [Hc Ht].
  cbn [trimStart]. rewrite (numeric_not_space _ Hc). unfold take_sign.
  destruct (N.eqb c MINUS) eqn:Em.
  - now apply parseFloat_unsigned_nan.
  - rewrite (numeric_not_plus _ Hc). now apply parseFloat_unsigned_nan.
Qed.

(** ** Symbols around a token *)




(** ** Date tokens without sign or separator *)








(** ** The leftmost match *)

Lemma search_leftmost p s :
  forall pos m,
    search p pos s = Some m ->
    exists i,
      i <= length s
      /\ match_at p (pos + i) (skipn i s) = Some m
      /\ forall j, j < i -> match_at p (pos + j) (skipn j s) = None.
Proof.
  induction s as [|c s IH]; intros pos m; simpl search.
  - destruct (match_at p pos []) eqn:E; [|discriminate].
    intros H. injection H as <-. exists 0. rewrite Nat.add_0_r.
    repeat split; [lia|exact E|]. intros j Hj. lia.
  - destruct (match_at p pos (c :: s)) eqn:E.
    + intros H. injection H as <-. exists 0. rewrite Nat.add_0_r.
      repeat split; [lia|exact E|]. intros j Hj. lia.
    + intros H. destruct (IH _ _ H) as (i & Hi & Hm & Hbefore).
      exists (S i). simpl. repeat split; [lia| |].
      * rewrite <- Hm. f_equal. lia.
      * intros [|j] Hj.
        -- rewrite Nat.add_0_r. exact E.
        -- simpl. rewrite <- (Hbefore j) by lia. f_equal. lia.
Qed.

Lemma search_skip p pre s :
  forall pos,
    (forall j, j < length pre ->
       match_at p (pos + j) (skipn j (pre ++ s)) = None) ->
    search p pos (pre ++ s) = search p (pos + length pre) s.
Proof.
  induction pre as [|c pre IH]; intros pos H.
  - simpl. now rewrite Nat.add_0_r.
  - simpl app. simpl search.
    pose proof (H 0) as H0. rewrite Nat.add_0_r in H0. simpl in H0.
    rewrite H0 by lia. rewrite IH.
    + f_equal. simpl. lia.
    + intros j Hj. specialize (H (S j)). simpl in H.
      rewrite <- H by lia. f_equal. lia.
Qed.

Lemma span_spec (p : char -> bool) s :
  s = fst (span p s) ++ snd (span p s)
  /\ forallb p (fst (span p s)) = true
  /\ match snd (span p s) with [] => True | c :: _ => p c = false end.
Proof.
  induction s as [|c s IH]; [repeat split|].
  simpl. destruct (p c) eqn:E.
  - destruct (span p s) as [a b]. simpl in *.
    destruct IH as (-> & Ha & Hb). rewrite E. repeat split; assumption.
  - simpl. repeat split. exact E.
Qed.

(** ** A date token in its place *)

Lemma date_token_app day month year hour minute second ws1 ws2 mer tail :
  date_token day month year hour minute second ws1 ws2 mer ++ tail
  = day ++ SLASH :: month ++ SLASH :: year ++ ws1 ++ hour ++ COLON ::
    minute ++ COLON :: second ++ ws2 ++ mer ++ tail.
Proof.
  unfold date_token. repeat (rewrite <- ?app_assoc; simpl). reflexivity.
Qed.

(** The match of the date pattern at a token, whatever follows it: the
    white space behind the seconds is taken whole, and SA or CH when it
    stands there. *)
Lemma custom_date_match_at pos day month year hour minute second ws1 ws2 mer
    tail :
  forallb is_digit day = true -> 1 <= length day <= 2 ->
  forallb is_digit month = true -> 1 <= length month <= 2 ->
  forallb is_digit year = true -> length year = 4 ->
  forallb is_space ws1 = true -> ws1 <> [] ->
  forallb is_digit hour = true -> 1 <= length hour <= 2 ->
  forallb is_digit minute = true -> length minute = 2 ->
  forallb is_digit second = true -> length second = 2 ->
  forallb is_space ws2 = true ->
  meridiem_token mer ->
  (mer = [] ->
   match tail with [] => True | c :: _ => is_space c = false end
   /\ ci_prefix (lit "SA") tail = false
   /\ ci_prefix (lit "CH") tail = false) ->
  exists m,
    match_at re_custom_date pos
      (day ++ SLASH :: month ++ SLASH :: year ++ ws1 ++ hour ++ COLON ::
       minute ++ COLON :: second ++ ws2 ++ mer ++ tail) = Some m
    /\ group 1 m = day /\ group 2 m = month /\ group 3 m = year
    /\ group 4 m = hour /\ group 5 m = minute /\ group 6 m = second
    /\ group_opt 7 m = match mer with [] => None | _ => Some mer end.
Proof.
  intros Hday Lday Hmonth Lmonth Hyear Lyear Hws1 Nws1 Hhour Lhour
         Hmin Lmin Hsec Lsec Hws2 Hmer Htail.
  assert (Hhead : exists h1 hour', hour = h1 :: hour' /\ is_space h1 = false).
  { destruct hour as [|h1 hour']; [simpl in Lhour; lia|].
    exists h1, hour'. split; [reflexivity|]. apply digit_not_space.
    simpl in Hhour. now apply andb_true_iff in Hhour. }
  assert (Hclose : forall p, Nat.eqb (S (S p)) p = false)
    by (intros p; apply Nat.eqb_neq; lia).
  assert (Htwo : forall p, S (S p) - p = 2) by (intros p; lia).
  assert (Hrest : match mer ++ tail with
                  | [] => True
                  | c :: _ => atom_match true Space c = false \/ None = Some (length ws2)
                  end).
  { destruct Hmer as [->|[H|H]].
    - destruct (Htail eq_refl) as (Ht & _). simpl.
      destruct tail; [exact I|now left].
    - apply upper_SA in H as (m1 & m2 & -> & H1 & _). left.
      apply (@letter_not_space m1 83%N); [lia|assumption].
    - apply upper_CH in H as (m1 & m2 & -> & H1 & _). left.
      apply (@letter_not_space m1 67%N); [lia|assumption]. }
  destruct Hmer as [->|[H|H]];
    [ destruct (Htail eq_refl) as (_ & Hsa & Hch)
    | apply upper_SA in H as (m1 & m2 & -> & H1 & H2)
    | apply upper_CH in H as (m1 & m2 & -> & H1 & H2)];
    (eexists; split;
     [ unfold match_at, re_custom_date;
       cbn [body ignoreCase ngroups seq repeat plus star times];
       apply run_seq, run_grp_rep;
         [assumption | lia | left; reflexivity | lia |];
       apply run_seq, run_atom; [reflexivity|];
       apply run_seq, run_grp_rep;
         [assumption | lia | left; reflexivity | lia |];
       apply run_seq, run_atom; [reflexivity|];
       apply run_seq, run_grp_rep;
         [assumption | lia
         | match goal with |- match ?l with _ => _ end =>
             destruct l; [exact I | right; now rewrite Lyear] end
         | lia |];
       apply run_seq, run_rep;
         [assumption | exact I
         | destruct Hhead as (h1 & hour' & -> & Hh); left; exact Hh
         | destruct ws1; [congruence|simpl; lia] |];
       apply run_seq, run_grp_rep;
         [assumption | lia | left; reflexivity | lia |];
       apply run_seq, run_atom; [reflexivity|];
       apply run_seq, run_grp_rep;
         [assumption | lia | left; reflexivity | lia |];
       apply run_seq, run_atom; [reflexivity|];
       apply run_seq, run_grp_rep;
         [assumption | lia
         | match goal with |- match ?l with _ => _ end =>
             destruct l; [exact I | right; now rewrite Lsec] end
         | lia |];
       apply run_seq, run_rep;
         [assumption | exact I | exact Hrest | lia |];
       first
         [ apply run_opt_skip;
           [ cbn [run app]; rewrite !run_str, Hsa, Hch; reflexivity
           | reflexivity ]
         | change (str (lit "SA")) with (Seq (Atom (Lit 83%N)) (Atom (Lit 65%N)));
           change (str (lit "CH")) with (Seq (Atom (Lit 67%N)) (Atom (Lit 72%N)));
           apply run_opt_take; cbn [run atom_match canon app]; rewrite H1, H2;
           change (to_upper 83%N) with 83%N; change (to_upper 65%N) with 65%N;
           change (to_upper 67%N) with 67%N; change (to_upper 72%N) with 72%N;
           change (N.eqb 83%N 67%N) with false;
           rewrite !N.eqb_refl; cbn [orelse]; rewrite Hclose, Htwo;
           reflexivity ]
     | repeat split ]).
Qed.

(** ** The token [parseCustomDate] reads *)

Lemma starts_date_token_match pos s :
  starts_date_token s -> match_at re_custom_date pos s <> None.
Proof.
  intros (day & month & year & ws1 & hour & minute & second & tail & -> &
          [Hd Ld] & [Hm Lm] & [Hy Ly] & [Hw Nw] & [Hh Lh] & [Hmi Lmi] &
          [Hs Ls]).
  now apply custom_date_found.
Qed.

Lemma match_starts_date_token pos s m :
  match_at re_custom_date pos s = Some m -> starts_date_token s.
Proof.
  intros H. apply custom_date_inv in H
    as (day & month & year & hour & minute & second & ws1 & ws2 & mer & tail
        & -> & Fday & Fmonth & Fyear & Fws1 & Fhour & Fmin & Fsec & _).
  exists day, month, year, ws1, hour, minute, second, (ws2 ++ mer ++ tail).
  split; [apply date_token_app|]. tauto.
Qed.

(** What follows the seconds, split as the pattern takes it. *)
Lemma meridiem_split r :
  exists ws2 mer tail,
    r = ws2 ++ mer ++ tail
    /\ forallb is_space ws2 = true
    /\ meridiem_token mer
    /\ (mer = [] ->
        match tail with [] => True | c :: _ => is_space c = false end
        /\ ci_prefix (lit "SA") tail = false
        /\ ci_prefix (lit "CH") tail = false).
Proof.
  destruct (span_spec is_space r) as (Hr & Hws & Hhead).
  set (ws2 := fst (span is_space r)) in *.
  set (r' := snd (span is_space r)) in *.
  destruct (ci_prefix (lit "SA") r') eqn:Esa.
  - change (lit "SA") with [83%N; 65%N] in Esa.
    apply ci_prefix_two in Esa as (m1 & m2 & tail & E & H1 & H2).
    exists ws2, [m1; m2], tail. rewrite Hr, E. repeat split; try assumption.
    + right. left. unfold toUpperCase. simpl. now rewrite H1, H2.
    + discriminate.
    + discriminate.
    + discriminate.
  - destruct (ci_prefix (lit "CH") r') eqn:Ech.
    + change (lit "CH") with [67%N; 72%N] in Ech.
      apply ci_prefix_two in Ech as (m1 & m2 & tail & E & H1 & H2).
      exists ws2, [m1; m2], tail. rewrite Hr, E. repeat split; try assumption.
      * right. right. unfold toUpperCase. simpl. now rewrite H1, H2.
      * discriminate.
      * discriminate.
      * discriminate.
    + exists ws2, [], r'. repeat split; try assumption. now left.
Qed.

Lemma parseCustomDate_decompose dateStr out :
  parseCustomDate dateStr = Some out ->
  exists pre day month year hour minute second ws1 ws2 mer tail,
    dateStr
    = pre ++ date_token day month year hour minute second ws1 ws2 mer ++ tail
    /\ (forall i, i < length pre -> ~ starts_date_token (skipn i dateStr))
    /\ (forallb is_digit day = true /\ 1 <= length day <= 2)
    /\ (forallb is_digit month = true /\ 1 <= length month <= 2)
    /\ (forallb is_digit year = true /\ length year = 4)
    /\ (forallb is_space ws1 = true /\ ws1 <> [])
    /\ (forallb is_digit hour = true /\ 1 <= length hour <= 2)
    /\ (forallb is_digit minute = true /\ length minute = 2)
    /\ (forallb is_digit second = true /\ length second = 2)
    /\ forallb is_space ws2 = true
    /\ meridiem_token mer
    /\ (mer = [] ->
        match tail with [] => True | c :: _ => is_space c = false end
        /\ ci_prefix (lit "SA") tail = false
        /\ ci_prefix (lit "CH") tail = false)
    /\ out = canonical day month year hour minute second mer.
Proof.
  intros H.
  destruct (exec re_custom_date dateStr) as [m|] eqn:E;
    [|unfold parseCustomDate in H; rewrite E in H; discriminate].
  pose proof E as E'. unfold exec in E'.
  apply search_leftmost in E' as (i & Hi & Hm & Hbefore).
  pose proof Hm as Hinv. apply custom_date_inv in Hinv
    as (day & month & year & hour & minute & second & ws1 & ws0 & mer0 & tail0
        & Hs & Fday & Fmonth & Fyear & Fws1 & Fhour & Fmin & Fsec & _).
  rewrite date_token_app in Hs.
  destruct (meridiem_split (ws0 ++ mer0 ++ tail0))
    as (ws2 & mer & tail & Hr & Hws2 & Hmer & Htail).
  rewrite Hr in Hs.
  destruct (@custom_date_match_at (0 + i) day month year hour minute second
              ws1 ws2 mer tail)
    as (m' & Hm' & G1 & G2 & G3 & G4 & G5 & G6 & G7); try tauto.
  rewrite <- Hs, Hm in Hm'. injection Hm' as <-.
  exists (firstn i dateStr), day, month, year, hour, minute, second,
         ws1, ws2, mer, tail.
  split; [rewrite date_token_app, <- Hs; symmetry; apply firstn_skipn|].
  split.
  { intros j Hj Hstart. rewrite length_firstn in Hj.
    apply (@starts_date_token_match (0 + j)) in Hstart.
    apply Hstart, Hbefore. lia. }
  repeat (split; [assumption|]).
  rewrite (@custom_date_output dateStr m day month year hour minute second mer)
    in H; try tauto.
  now injection H.
Qed.

Lemma parseCustomDate_of_token
    pre day month year hour minute second ws1 ws2 mer tail :
  (forall i, i < length pre ->
     ~ starts_date_token
         (skipn i (pre ++ date_token day month year hour minute second
                            ws1 ws2 mer ++ tail))) ->
  forallb is_digit day = true -> 1 <= length day <= 2 ->
  forallb is_digit month = true -> 1 <= length month <= 2 ->
  forallb is_digit year = true -> length year = 4 ->
  forallb is_space ws1 = true -> ws1 <> [] ->
  forallb is_digit hour = true -> 1 <= length hour <= 2 ->
  forallb is_digit minute = true -> length minute = 2 ->
  forallb is_digit second = true -> length second = 2 ->
  forallb is_space ws2 = true ->
  meridiem_token mer ->
  (mer = [] ->
   match tail with [] => True | c :: _ => is_space c = false end
   /\ ci_prefix (lit "SA") tail = false
   /\ ci_prefix (lit "CH") tail = false) ->
  parseCustomDate
    (pre ++ date_token day month year hour minute second ws1 ws2 mer ++ tail)
  = Some (canonical day month year hour minute second mer).
Proof.
  intros Hleft Hday Lday Hmonth Lmonth Hyear Lyear Hws1 Nws1 Hhour Lhour
         Hmin Lmin Hsec Lsec Hws2 Hmer Htail.
  destruct (@custom_date_match_at (0 + length pre) day month year hour minute
              second ws1 ws2 mer tail)
    as (m & Hm & G1 & G2 & G3 & G4 & G5 & G6 & G7); try assumption.
  rewrite <- date_token_app in Hm.
  apply (@custom_date_output _ m day month year hour minute second mer);
    try assumption.
  unfold exec. rewrite search_skip.
  - now apply search_here.
  - intros j Hj.
    destruct (match_at re_custom_date (0 + j) _) as [m0|] eqn:E0;
      [|reflexivity].
    exfalso. apply (Hleft j Hj). now apply match_starts_date_token in E0.
Qed.

(* ===================================================================== *)
(** * The claims *)
(* ===================================================================== *)

(** C1, as stated, fails: on [grid_then_mobile] the grid detector answers
    with a record that fails the gate, the mobile detector below it would
    answer with a record that passes, the cascade of the specification
    finds that record, and [parseTradeTextSmart] goes to Gemini. *)
Lemma gate_failure_ends_cascade :
  (exists p, parseFormatAivoraGrid grid_then_mobile = Some p /\ gate p = false)
  /\ (exists q, parseFormatBitunixMobile grid_then_mobile = Some q
                /\ gate q = true)
  /\ gated_cascade grid_then_mobile <> None
  /\ parseTradeTextSmart grid_then_mobile
     = Gemini grid_then_mobile (fun reply => Ret reply).
Proof.
  split; [|split; [|split]].
  - eexists. split; vm_compute; reflexivity.
  - eexists. split; vm_compute; reflexivity.
  - vm_compute. discriminate.
  - apply parseTradeTextSmart_fallback. vm_compute. reflexivity.
Qed.

(** C1, amended: the gate is applied once, to the record of the first
    detector that answers; when that record fails the gate the dispatcher
    goes to the Gemini collaborator, whatever the detectors after it
    would have answered. *)
Theorem gate_failure_falls_back
    (pre post : list detector) (d : detector) (text : text) (p : Partial.t) :
  detectors = pre ++ d :: post ->
  (forall d', In d' pre -> d' text = None) ->
  d text = Some p ->
  gate p = false ->
  parseTradeTextSmart text = Gemini text (fun reply => Ret reply).
Proof.
  intros Hds Hpre Hd Hg. apply parseTradeTextSmart_fallback.
  unfold accepted. rewrite smartParse_first_match, Hds.
  rewrite (@first_match_split pre d post text p Hpre Hd). now rewrite Hg.
Qed.

Lemma gate_failure_falls_back_witness :
  parseTradeTextSmart grid_then_mobile
  = Gemini grid_then_mobile (fun reply => Ret reply).
Proof.
  apply (@gate_failure_falls_back
           [parseFormatTabular; parseFormatVN]
           [parseFormatBitunixMobile; parseFormatAivoraEn; parseFormatBitunixWeb]
           parseFormatAivoraGrid grid_then_mobile Partial.init).
  - reflexivity.
  - intros d' [<-|[<-|[]]]; vm_compute; reflexivity.
  - vm_compute. reflexivity.
  - vm_compute. reflexivity.
Defined.

(** C2, as stated, fails: a string without a digit leaves nothing to
    parse, and [parseFloat] of the empty string is NaN. *)
Lemma parseNumber_NaN : parseNumber (lit "abc") = NaN.
Proof. vm_compute. reflexivity. Qed.

(** C2, amended: [parseNumber] returns 0 for the empty string and for a
    string that begins with a date shape.  For every other string it
    returns not-a-number exactly when the string it hands to
    [parseFloat], the cleaned token without its sign and with its
    separators settled, does not begin with a digit, or a dot and a
    digit, after one further minus sign if there is one.  In every other
    case it returns a number; so it does whenever the cleaned token
    without its sign begins with a digit. *)
Theorem parseNumber_is_number (str : text) :
  (str = [] -> parseNumber str = int 0)
  /\ (test re_iso_prefix str = true \/ test re_slash_prefix str = true ->
      parseNumber str = int 0)
  /\ (isNaN (parseNumber str) = true <->
      str <> []
      /\ test re_iso_prefix str = false
      /\ test re_slash_prefix str = false
      /\ reads_number (separators (unsigned str)) = false)
  /\ ((exists d rest, unsigned str = d :: rest /\ is_digit d = true) ->
      isNaN (parseNumber str) = false).
Proof.
  split; [intros ->; reflexivity|]. split; [|split].
  - unfold parseNumber. destruct str as [|c str]; [reflexivity|].
    destruct (test re_iso_prefix (c :: str)); [reflexivity|].
    intros [H|H]; [discriminate H|]. now rewrite H.
  - destruct str as [|c str].
    { split; [discriminate|]. intros [H _]. congruence. }
    unfold parseNumber.
    destruct (test re_iso_prefix (c :: str)).
    { split; [discriminate|]. intros (_ & H & _). discriminate H. }
    destruct (test re_slash_prefix (c :: str)).
    { split; [discriminate|]. intros (_ & _ & H & _). discriminate H. }
    assert (Hs : forall b x, isNaN (signed b x) = isNaN x)
      by (intros b [| |]; reflexivity).
    rewrite Hs, parseFloat_nan by apply separators_numeric, unsigned_numeric.
    rewrite negb_true_iff. split.
    + intros H. repeat split; [discriminate|exact H].
    + intros (_ & _ & _ & H). exact H.
  - intros (d & rest & Hu & Hd).
    unfold parseNumber. destruct str as [|c str]; [reflexivity|].
    destruct (test re_iso_prefix (c :: str)); [reflexivity|].
    destruct (test re_slash_prefix (c :: str)); [reflexivity|].
    rewrite Hu. destruct (@separators_head_digit d rest Hd) as (s' & ->).
    destruct (@parseFloat_digit_first d s' Hd) as (neg & m & e & ->).
    reflexivity.
Qed.

Lemma parseNumber_is_number_witness :
  isNaN (parseNumber (lit "-$501,75")) = false
  /\ isNaN (parseNumber (lit ".5")) = false
  /\ isNaN (parseNumber (lit ",5")) = false
  /\ isNaN (parseNumber (lit "-.5")) = false
  /\ isNaN (parseNumber (lit "--5")) = false
  /\ isNaN (parseNumber (lit "..5")) = true
  /\ isNaN (parseNumber (lit "-")) = true.
Proof.
  assert (Hnum : forall str,
            reads_number (separators (unsigned str)) = true ->
            isNaN (parseNumber str) = false).
  { intros str H. destruct (isNaN (parseNumber str)) eqn:E; [|reflexivity].
    apply (proj1 (proj2 (proj2 (parseNumber_is_number str)))) in E
      as (_ & _ & _ & E).
    congruence. }
  assert (Hnan : forall str,
            str <> [] -> test re_iso_prefix str = false ->
            test re_slash_prefix str = false ->
            reads_number (separators (unsigned str)) = false ->
            isNaN (parseNumber str) = true).
  { intros str H1 H2 H3 H4.
    apply (proj1 (proj2 (proj2 (parseNumber_is_number str)))). auto. }
  split; [apply (proj2 (proj2 (proj2 (parseNumber_is_number (lit "-$501,75")))));
          exists 53%N, (lit "01,75"); split; reflexivity|].
  repeat split;
    first [ apply Hnum; vm_compute; reflexivity
          | apply Hnan; [discriminate|reflexivity..] ].
Defined.




(** C4, as stated, fails: a row of nine fields is matched, and so is a
    row whose first field begins with a blank. *)
Lemma tabular_beyond_eight :
  parseFormatTabular nine_fields <> None
  /\ length (split TAB nine_fields) = 9
  /\ parseFormatTabular padded_row <> None
  /\ is_digit (hd 0%N (part 0 (split TAB padded_row))) = false.
Proof. repeat split; vm_compute; discriminate. Qed.

(** C4, amended: the tabular detector matches exactly the texts that
    split on tabs into at least eight fields and whose first field, once
    trimmed, begins with a digit; the first eight fields give openPrice,
    closePrice, openTime, closeTime, quantity, symbol, fee (as an
    absolute value) and pnl, and further fields are ignored. *)
Theorem tabular_fields (text : text) :
  let parts := split TAB text in
  (parseFormatTabular text <> None <->
   8 <= length parts
   /\ exists d rest, trim (part 0 parts) = d :: rest /\ is_digit d = true)
  /\ forall trade,
       parseFormatTabular text = Some trade ->
       Partial.openPrice trade = Some (parseNumber (part 0 parts))
       /\ Partial.closePrice trade = Some (parseNumber (part 1 parts))
       /\ Partial.openTime trade = Some (parseCustomDate (part 2 parts))
       /\ Partial.closeTime trade = Some (parseCustomDate (part 3 parts))
       /\ Partial.quantity trade = Some (parseNumber (part 4 parts))
       /\ Partial.coin trade = Some (trim (part 5 parts))
       /\ Partial.fee trade = Some (abs (parseNumber (part 6 parts)))
       /\ Partial.pnl trade = Some (parseNumber (part 7 parts)).
Proof.
  intros parts. split.
  - apply tabular_some.
  - intros trade H. rewrite (@tabular_record text trade H). repeat split.
Qed.

Lemma tabular_fields_witness :
  exists trade,
    parseFormatTabular sample_row = Some trade
    /\ holds (Partial.openPrice trade) 2860.90
    /\ holds (Partial.closePrice trade) 2827.45
    /\ Partial.openTime trade = Some (Some (lit "2025-12-01T10:19:16"))
    /\ Partial.closeTime trade = Some (Some (lit "2025-12-01T10:39:12"))
    /\ holds (Partial.quantity trade) 15.00
    /\ Partial.coin trade = Some (lit "ETH")
    /\ holds (Partial.fee trade) 42.66
    /\ holds (Partial.pnl trade) (-501.75).
Proof.
  destruct (parseFormatTabular sample_row) as [trade|] eqn:E;
    [|vm_compute in E; discriminate E].
  exists trade. split; [reflexivity|].
  destruct (proj2 (tabular_fields sample_row) trade E)
    as (H0 & H1 & H2 & H3 & H4 & H5 & H6 & H7).
  rewrite H0, H1, H2, H3, H4, H5, H6, H7.
  repeat split; vm_compute; reflexivity.
Defined.




(** C6: when no detector yields a record that passes the gate, the
    dispatcher calls Gemini once, with the text as it received it, and
    its result is Gemini's answer. *)
Theorem fallback_forwards_text (text : text) :
  none_passes text = true ->
  parseTradeTextSmart text = Gemini text (fun reply => Ret reply)
  /\ forall e,
       events e (parseTradeTextSmart text) = [CallGemini text]
       /\ result e (parseTradeTextSmart text) = gemini e text.
Proof.
  intros H. apply none_passes_accepted in H.
  rewrite (@parseTradeTextSmart_fallback text H). split; [reflexivity|].
  intros e. split; reflexivity.
Qed.

Lemma fallback_forwards_text_witness :
  events morning (parseTradeTextSmart (lit "hello")) = [CallGemini (lit "hello")]
  /\ result morning (parseTradeTextSmart (lit "hello")) = Rejected [].
Proof.
  destruct (@fallback_forwards_text (lit "hello")) as [_ H].
  - vm_compute. reflexivity.
  - destruct (H morning) as [H1 H2]. split; [exact H1|exact H2].
Defined.

(** C7: a token D(D)/M(M)/YYYY, white space, H(H):MM:SS, and then,
    after optional white space, nothing or SA or CH in any letter case,
    is turned into YYYY-MM-DDTHH:MM:SS: day, month and hour are padded
    with zeros to two digits, CH adds 12 to an hour below 12 and SA turns
    hour 12 into 0. *)
Theorem parseCustomDate_token day month year hour minute second ws1 ws2 mer :
  forallb is_digit day = true -> 1 <= length day <= 2 ->
  forallb is_digit month = true -> 1 <= length month <= 2 ->
  forallb is_digit year = true -> length year = 4 ->
  forallb is_space ws1 = true -> ws1 <> [] ->
  forallb is_digit hour = true -> 1 <= length hour <= 2 ->
  forallb is_digit minute = true -> length minute = 2 ->
  forallb is_digit second = true -> length second = 2 ->
  forallb is_space ws2 = true ->
  meridiem_token mer ->
  parseCustomDate (date_token day month year hour minute second ws1 ws2 mer)
  = Some (canonical day month year hour minute second mer)
  /\ length (canonical day month year hour minute second mer) = 19.
Proof.
  intros Hday Lday Hmonth Lmonth Hyear Lyear Hws1 Nws1 Hhour Lhour
         Hmin Lmin Hsec Lsec Hws2 Hmer.
  split.
  - destruct (@custom_date_match day month year hour minute second ws1 ws2 mer)
      as (m & Hm & G1 & G2 & G3 & G4 & G5 & G6 & G7); try assumption.
    unfold parseCustomDate, date_token. rewrite Hm, G1, G2, G3, G4, G5, G6, G7.
    rewrite parseInt_digits; [| destruct hour; [simpl in Lhour; lia|discriminate]
                              | assumption].
    rewrite hour24_token by assumption. rewrite int_toString_N.
    rewrite !padStart2_digits by assumption.
    rewrite padStart2_digits_of
      by (apply hour_of_small, two_digits_value; assumption).
    reflexivity.
  - unfold canonical, two_digits. rewrite !length_app. simpl. lia.
Qed.

Lemma parseCustomDate_token_witness :
  parseCustomDate (lit "17/12/2025 10:16:52 SA")
  = Some (lit "2025-12-17T10:16:52")
  /\ parseCustomDate (lit "17/12/2025 10:16:52 CH")
     = Some (lit "2025-12-17T22:16:52").
Proof.
  split.
  - apply (@parseCustomDate_token (lit "17") (lit "12") (lit "2025")
             (lit "10") (lit "16") (lit "52") [SP] [SP] (lit "SA"));
      try reflexivity; try (split; repeat constructor); try discriminate.
    right; left; reflexivity.
  - apply (@parseCustomDate_token (lit "17") (lit "12") (lit "2025")
             (lit "10") (lit "16") (lit "52") [SP] [SP] (lit "CH"));
      try reflexivity; try (split; repeat constructor); try discriminate.
    right; right; reflexivity.
Defined.

(** C8, as stated, fails: the detector finds a closing PnL only when a
    line break stands between the caption and the value and the value
    begins the next line.  With the value on the line of the caption, or
    behind a currency sign, the PnL comes from "Position PnL" although
    "Closing PnL" and its number are there; and without 'Time Opened'
    the detector does not answer at all. *)
Lemma closing_pnl_needs_own_line :
  option_map Partial.pnl (parseFormatBitunixMobile pnl_same_line)
  = Some (Some (int 7))
  /\ option_map Partial.pnl (parseFormatBitunixMobile pnl_currency)
     = Some (Some (int 7))
  /\ parseFormatBitunixMobile pnl_no_anchor = None.
Proof. vm_compute. repeat split. Qed.

(** C8, amended: when the mobile detector answers, its pnl is the number
    under the first "Closing PnL" caption (white space with a line break
    behind the caption, and then at once a run of signs, digits, dots
    and commas), whatever the text says under "Position PnL"; the number
    under "Position PnL" is used only when "Closing PnL" is not found.
    The same in terms of the two patterns of the detector: the value of
    [closing_pnl] when it matches, that of [position_pnl] only when it
    does not. *)
Theorem mobile_pnl_source (text : text) (trade : Partial.t) :
  parseFormatBitunixMobile text = Some trade ->
  (forall pre v,
     first_labelled (lit "Closing PnL") pnl_num text pre v ->
     Partial.pnl trade = Some (parseNumber v))
  /\ (caption_absent (lit "Closing PnL") text ->
      forall pre v,
        first_labelled (lit "Position PnL") pnl_num text pre v ->
        Partial.pnl trade = Some (parseNumber v))
  /\ (forall mc,
        exec closing_pnl text = Some mc ->
        Partial.pnl trade = Some (parseNumber (group 1 mc)))
  /\ (exec closing_pnl text = None ->
      forall mp,
        exec position_pnl text = Some mp ->
        Partial.pnl trade = Some (parseNumber (group 1 mp))).
Proof.
  unfold parseFormatBitunixMobile.
  destruct (negb (includes (lit "Time Opened") text)); [discriminate|].
  cbv zeta. intros H. injection H as <-.
  match goal with
  | |- context [on_match mob_fee text ?f (mobile_pnl text ?t)] =>
      assert (Hpnl : Partial.pnl (on_match mob_fee text f (mobile_pnl text t))
                     = Partial.pnl (mobile_pnl text t))
        by (unfold on_match; destruct (exec mob_fee text); reflexivity);
      rewrite Hpnl; clear Hpnl; generalize t; intros t0
  end.
  assert (Hregex :
    (forall mc,
       exec closing_pnl text = Some mc ->
       Partial.pnl (mobile_pnl text t0) = Some (parseNumber (group 1 mc)))
    /\ (exec closing_pnl text = None ->
        forall mp,
          exec position_pnl text = Some mp ->
          Partial.pnl (mobile_pnl text t0) = Some (parseNumber (group 1 mp)))).
  { unfold mobile_pnl, on_match. split.
    - intros mc ->. reflexivity.
    - intros -> mp ->. reflexivity. }
  destruct Hregex as [Hclosing Hposition].
  split; [|split; [|split]]; try assumption.
  - intros pre v Hv.
    destruct (@labelled_exec (lit "Closing PnL") pnl_num pnl_num_visible
                text pre v Hv) as (m & Hm & <-).
    now apply Hclosing.
  - intros Habs pre v Hv.
    destruct (@labelled_exec (lit "Position PnL") pnl_num pnl_num_visible
                text pre v Hv) as (m & Hm & <-).
    apply Hposition; [|exact Hm].
    now apply (@labelled_exec_absent (lit "Closing PnL") pnl_num).
Qed.

(** Checking that a caption does not start before position [n]. *)
Lemma no_caption_before cap (text : text) n :
  forallb (fun i => negb (ci_prefix cap (skipn i text))) (List.seq 0 n) = true ->
  forall i, i < n -> ci_prefix cap (skipn i text) = false.
Proof.
  intros H i Hi. rewrite forallb_forall in H.
  specialize (H i). rewrite in_seq in H.
  apply negb_true_iff, H. lia.
Qed.

Lemma mobile_pnl_source_witness :
  exists trade,
    parseFormatBitunixMobile two_pnl = Some trade
    /\ Partial.pnl trade = Some (parseNumber (lit "-5,5"))
    /\ holds (Partial.pnl trade) (-5.5).
Proof.
  destruct (parseFormatBitunixMobile two_pnl) as [trade|] eqn:E;
    [|vm_compute in E; discriminate E].
  exists trade. split; [reflexivity|].
  assert (H : Partial.pnl trade = Some (parseNumber (lit "-5,5"))).
  { apply (proj1 (@mobile_pnl_source two_pnl trade E)
             (lines [lit "ETHUSDT 20X"; lit "Time Opened";
                     lit "2025-01-01 10:00:00"; lit "Entry Price"; lit "100";
                     lit "Max held"; lit "2"; lit "Position PnL";
                     lit "+7 USDT"; lit ""])).
    exists (lit "Closing PnL"), [], [], (lit " USDT" ++ [LF] ++ lit "Fees" ++ [LF] ++ lit "-0.3").
    split; [vm_compute; reflexivity|].
    split; [reflexivity|]. split; [reflexivity|].
    split; [apply no_caption_before; vm_compute; reflexivity|].
    split; [reflexivity|]. split; [reflexivity|].
    split; [intros []|]. split; [discriminate|].
    split; vm_compute; reflexivity. }
  split; [exact H|]. rewrite H. vm_compute. reflexivity.
Defined.

(** C9, as stated, fails: a fee that cannot be read is NaN, its absolute
    value is NaN, and NaN is not at least 0. *)
Lemma fee_not_a_number :
  match result morning (parseTradeTextSmart unreadable_fee) with
  | Resolved trade =>
      Trade.fee trade = NaN /\ nonnegative (Trade.fee trade) = false
  | Rejected _ => False
  end.
Proof. vm_compute. split; reflexivity. Qed.

(** C9, amended: in every record the cascade produces the fee is never
    negative: it is at least 0, or it is NaN. *)
Theorem fee_never_negative (text : text) (p : Partial.t) (e : env) :
  accepted text = Some p ->
  exists trade,
    result e (parseTradeTextSmart text) = Resolved trade
    /\ negative (Trade.fee trade) = false
    /\ (nonnegative (Trade.fee trade) = true \/ isNaN (Trade.fee trade) = true).
Proof.
  intros H. rewrite (@parseTradeTextSmart_accepted text p H). simpl.
  eexists. split; [reflexivity|]. simpl.
  destruct (@accepted_In text p H) as (_ & d & Hin & Hd).
  pose proof (@fee_abs_detectors d text p Hin Hd) as Hfee.
  unfold fee_abs in Hfee. destruct (Partial.fee p) as [f|]; simpl.
  - destruct Hfee as (x & ->). apply abs_not_negative.
  - auto.
Qed.

Lemma fee_never_negative_witness :
  exists trade,
    result morning (parseTradeTextSmart sample_row) = Resolved trade
    /\ negative (Trade.fee trade) = false
    /\ (nonnegative (Trade.fee trade) = true \/ isNaN (Trade.fee trade) = true).
Proof.
  destruct (accepted sample_row) as [p|] eqn:E;
    [|vm_compute in E; discriminate E].
  exact (@fee_never_negative sample_row p morning E).
Defined.




(* ===================================================================== *)
(** * The number normalizer: separators, sign and guards *)
(* ===================================================================== *)

(** X1 (parseNumber, both separators).  A whole part written in two or
    more groups of digits and a run of decimals [c] are read as the same
    number in both notations, dots between the groups and a comma before
    the decimals, or commas between the groups and a dot before the
    decimals: the digits of the groups and of [c], with the point
    [length c] places from the right.  The groups need not have three
    digits. *)
Theorem both_encodings g0 gs c :
  g0 <> [] -> forallb is_digit g0 = true ->
  gs <> [] -> Forall (fun g => forallb is_digit g = true) gs ->
  forallb is_digit c = true ->
  parseNumber (grouped DOT g0 gs ++ COMMA :: c)
  = Dec false (digits_value (ungrouped g0 gs ++ c)) (- Z.of_nat (length c))
  /\ parseNumber (grouped COMMA g0 gs ++ DOT :: c)
     = Dec false (digits_value (ungrouped g0 gs ++ c)) (- Z.of_nat (length c)).
Proof.
  intros Hne H0 Hgs Hs Hc.
  assert (HcC : ~ In COMMA c) by (apply digits_no; [assumption|unfold COMMA; lia]).
  assert (HcD : ~ In DOT c) by (apply digits_no; [assumption|unfold DOT; lia]).
  assert (HcM : ~ In MINUS c) by (apply digits_no; [assumption|unfold MINUS; lia]).
  assert (Hu : ungrouped g0 gs <> []).
  { unfold ungrouped. destruct g0; [congruence|discriminate]. }
  pose proof (@ungrouped_digits g0 gs H0 Hs) as Hud.
  split.
  - rewrite parseNumber_clean.
    + rewrite separators_comma_last;
        [|apply grouped_sep; assumption|assumption|assumption].
      rewrite remove_all_app.
      rewrite remove_all_grouped by (try assumption; unfold DOT; lia).
      unfold remove_all at 1. cbn [filter]. cbn [N.eqb COMMA DOT Pos.eqb negb].
      fold (remove_all DOT c).
      rewrite (@remove_all_run DOT c Hc) by (unfold DOT; lia).
      rewrite replace_first_run by (try assumption; unfold COMMA; lia).
      now apply parseFloat_decimal.
    + unfold grouped. destruct g0 as [|d g0']; [congruence|].
      simpl in H0. apply andb_true_iff in H0 as [Hd _]. exact Hd.
    + rewrite forallb_app, grouped_numeric by (try assumption; now left).
      cbn [forallb andb]. now rewrite (@digits_numeric c Hc).
    + intros Hin. apply in_app_or in Hin as [Hin|[Hin|Hin]].
      * revert Hin. apply grouped_other; try assumption;
          [discriminate|unfold MINUS; lia].
      * discriminate Hin.
      * tauto.
  - rewrite parseNumber_clean.
    + rewrite separators_dot_last;
        [|apply grouped_sep; assumption|assumption|assumption].
      rewrite remove_all_app.
      rewrite remove_all_grouped by (try assumption; unfold COMMA; lia).
      unfold remove_all at 1. cbn [filter]. cbn [N.eqb COMMA DOT Pos.eqb negb].
      fold (remove_all COMMA c).
      rewrite (@remove_all_run COMMA c Hc) by (unfold COMMA; lia).
      now apply parseFloat_decimal.
    + unfold grouped. destruct g0 as [|d g0']; [congruence|].
      simpl in H0. apply andb_true_iff in H0 as [Hd _]. exact Hd.
    + rewrite forallb_app, grouped_numeric by (try assumption; now right).
      cbn [forallb andb]. now rewrite (@digits_numeric c Hc).
    + intros Hin. apply in_app_or in Hin as [Hin|[Hin|Hin]].
      * revert Hin. apply grouped_other; try assumption;
          [discriminate|unfold MINUS; lia].
      * discriminate Hin.
      * tauto.
Qed.

Lemma both_encodings_witness :
  parseNumber (lit "1.234.567,89") = Dec false 123456789 (-2)
  /\ parseNumber (lit "1,234,567.89") = Dec false 123456789 (-2).
Proof.
  apply (@both_encodings (lit "1") [lit "234"; lit "567"] (lit "89"));
    try discriminate; try reflexivity.
  repeat constructor.
Defined.

(** X2 (parseNumber, the sign).  A minus sign in front of a token, with
    or without characters that are neither digits, dots, commas nor
    minus signs before it, negates what the token is read as, provided
    that the token is not empty, has neither date shape and does not
    itself begin with a minus sign once it is stripped. *)
Theorem leading_minus_negates pre rest :
  forallb (fun c => negb (numeric c)) pre = true ->
  rest <> [] ->
  test re_iso_prefix rest = false ->
  test re_slash_prefix rest = false ->
  isNegative rest = false ->
  parseNumber (pre ++ MINUS :: rest) = signed true (parseNumber rest).
Proof.
  intros Hpre Hne Hiso Hslash Hneg.
  assert (Hhead : match pre ++ MINUS :: rest with
                  | c :: _ => is_digit c = false
                  | [] => True
                  end).
  { destruct pre as [|x pre]; [reflexivity|].
    simpl in Hpre. apply andb_true_iff in Hpre as [Hx _].
    apply numeric_digit. now destruct (numeric x). }
  destruct (@shape_head (pre ++ MINUS :: rest) Hhead) as [G1 G2].
  rewrite parseNumber_unguarded;
    [|destruct pre; discriminate|assumption|assumption].
  rewrite (@parseNumber_unguarded rest) by assumption.
  assert (Hstrip : strip (pre ++ MINUS :: rest) = MINUS :: strip rest).
  { rewrite !strip_filter, filter_app, (@filter_numeric_none pre Hpre).
    reflexivity. }
  unfold unsigned, isNegative in *. rewrite Hstrip, Hneg.
  cbn [startsWith]. rewrite N.eqb_refl. cbn [andb skipn].
  now rewrite signed_false.
Qed.

Lemma leading_minus_negates_witness :
  parseNumber (lit "$-501,75") = signed true (parseNumber (lit "501,75"))
  /\ parseNumber (lit "$-501,75") = Dec true 50175 (-2).
Proof.
  split; [|vm_compute; reflexivity].
  apply (@leading_minus_negates (lit "$") (lit "501,75"));
    solve [reflexivity | discriminate].
Defined.

(** X3 (parseNumber, where the guards look).  The date guards test the
    beginning of the raw string only.  A date YYYY-MM-DD, and any run of
    digits followed by a minus sign, that stands behind one character
    which is not a digit, a dot, a comma or a minus sign (a blank, for
    one) is not caught: the value is the number before the first minus
    sign, when no dot or comma follows. *)
Theorem guard_only_at_start c y rest :
  numeric c = false ->
  y <> [] -> forallb is_digit y = true ->
  ~ In DOT rest -> ~ In COMMA rest ->
  parseNumber (c :: y ++ MINUS :: rest) = int (digits_value y).
Proof.
  intros Hc Hne Hy HD HC.
  destruct (@shape_head (c :: y ++ MINUS :: rest) (@numeric_digit c Hc))
    as [G1 G2].
  rewrite parseNumber_unguarded; [|discriminate|assumption|assumption].
  assert (Hstrip : strip (c :: y ++ MINUS :: rest)
                   = y ++ MINUS :: filter numeric rest).
  { rewrite strip_filter. cbn [filter]. rewrite Hc.
    rewrite filter_app, (@filter_numeric_digits y Hy). reflexivity. }
  assert (Hneg : isNegative (c :: y ++ MINUS :: rest) = false).
  { unfold isNegative. rewrite Hstrip. destruct y as [|d y]; [congruence|].
    simpl in Hy. apply andb_true_iff in Hy as [Hd _].
    simpl app. rewrite startsWith_cons, N.eqb_sym.
    now rewrite (@digit_neq d MINUS Hd) by (unfold MINUS; lia). }
  unfold unsigned. rewrite Hneg, Hstrip, signed_false.
  rewrite separators_plain.
  - apply parseFloat_int_prefix; try assumption; try reflexivity; discriminate.
  - intros Hin. apply in_app_or in Hin as [Hin|[Hin|Hin]].
    + revert Hin. apply digits_no; [assumption|unfold COMMA; lia].
    + discriminate Hin.
    + apply filter_In in Hin as [Hin _]. tauto.
  - intros Hin. apply in_app_or in Hin as [Hin|[Hin|Hin]].
    + revert Hin. apply digits_no; [assumption|unfold DOT; lia].
    + discriminate Hin.
    + apply filter_In in Hin as [Hin _]. tauto.
Qed.

Lemma guard_only_at_start_witness :
  parseNumber (lit "2025-12-17") = int 0
  /\ parseNumber (lit " 2025-12-17") = int 2025.
Proof.
  split; [vm_compute; reflexivity|].
  apply (@guard_only_at_start SP (lit "2025") (lit "12-17"));
    try reflexivity; try discriminate;
    intros H; repeat (destruct H as [H|H]; [discriminate H|]); exact H.
Defined.

(** X4 (the two generations of parseNumber).  The earlier [parseNumber]
    and the current one return the same number for every string whose
    cleaned token holds a dot, or holds no comma, or has exactly three
    characters behind its last comma. *)
Theorem legacy_agrees str :
  In DOT (unsigned str) \/ ~ In COMMA (unsigned str)
  \/ length (last (split COMMA (unsigned str)) []) = 3 ->
  Legacy.parseNumber str = parseNumber str.
Proof.
  intros H. unfold Legacy.parseNumber, parseNumber.
  destruct str as [|x str]; [reflexivity|].
  destruct (test re_iso_prefix (x :: str)); [reflexivity|].
  destruct (test re_slash_prefix (x :: str)); [reflexivity|].
  f_equal. f_equal. unfold Legacy.separators, separators.
  destruct (-1 <? lastIndexOf COMMA (unsigned (x :: str)))%Z eqn:Ec;
    [|reflexivity].
  destruct (-1 <? lastIndexOf DOT (unsigned (x :: str)))%Z eqn:Ed;
    [reflexivity|].
  cbn [andb]. destruct H as [H|[H|H]].
  - apply lastIndexOf_present in H. congruence.
  - apply lastIndexOf_absent in H. rewrite H in Ec. discriminate.
  - now rewrite H.
Qed.

Lemma legacy_agrees_witness :
  Legacy.parseNumber (lit "$1,234") = parseNumber (lit "$1,234").
Proof.
  apply (@legacy_agrees (lit "$1,234")). right. right. reflexivity.
Defined.

(** X5 (the earlier parseNumber on a decimal comma).  On digits, a
    comma and digits the earlier [parseNumber] removes the comma and
    returns the whole number all the digits make, where the current one
    returns it only when three digits follow the comma and puts the
    point at the comma otherwise. *)
Theorem legacy_drops_decimal_comma a b :
  a <> [] -> forallb is_digit a = true -> forallb is_digit b = true ->
  Legacy.parseNumber (a ++ COMMA :: b) = int (digits_value (a ++ b))
  /\ parseNumber (a ++ COMMA :: b)
     = if Nat.eqb (length b) 3 then int (digits_value (a ++ b))
       else Dec false (digits_value (a ++ b)) (- Z.of_nat (length b)).
Proof.
  intros Hne Ha Hb. split; [|now apply parseNumber_one_comma].
  assert (HnoM : ~ In MINUS (a ++ COMMA :: b)).
  { intros Hin. apply in_app_or in Hin as [Hin|[Hin|Hin]].
    - revert Hin. apply digits_no; [assumption|unfold MINUS; lia].
    - discriminate Hin.
    - revert Hin. apply digits_no; [assumption|unfold MINUS; lia]. }
  assert (HnoS : ~ In SLASH (a ++ COMMA :: b)).
  { intros Hin. apply in_app_or in Hin as [Hin|[Hin|Hin]].
    - revert Hin. apply digits_no; [assumption|unfold SLASH; lia].
    - discriminate Hin.
    - revert Hin. apply digits_no; [assumption|unfold SLASH; lia]. }
  assert (HnoD : ~ In DOT (a ++ COMMA :: b)).
  { intros Hin. apply in_app_or in Hin as [Hin|[Hin|Hin]].
    - revert Hin. apply digits_no; [assumption|unfold DOT; lia].
    - discriminate Hin.
    - revert Hin. apply digits_no; [assumption|unfold DOT; lia]. }
  rewrite legacy_unguarded;
    [| destruct a; [congruence|discriminate]
     | now apply not_iso_without_minus
     | now apply not_slash_without_slash ].
  assert (Hnum : forallb numeric (a ++ COMMA :: b) = true).
  { rewrite forallb_app. cbn [forallb].
    now rewrite (@digits_numeric a Ha), (@digits_numeric b Hb). }
  assert (Hneg : isNegative (a ++ COMMA :: b) = false).
  { unfold isNegative. rewrite (@strip_numeric (a ++ COMMA :: b) Hnum).
    destruct a as [|d a]; [congruence|].
    simpl in Ha. apply andb_true_iff in Ha as [Hd _].
    simpl app. rewrite startsWith_cons, N.eqb_sym.
    now rewrite (@digit_neq d MINUS Hd) by (unfold MINUS; lia). }
  unfold unsigned. rewrite Hneg, (@strip_numeric (a ++ COMMA :: b) Hnum), signed_false.
  unfold Legacy.separators.
  rewrite (@lastIndexOf_absent DOT _ HnoD).
  rewrite lastIndexOf_present by apply in_elt.
  cbn [andb Z.ltb Z.compare].
  destruct (filter_app_digits a b Ha Hb) as [-> _].
  apply parseFloat_digits.
  - destruct a; [congruence|discriminate].
  - now rewrite forallb_app, Ha, Hb.
Qed.

Lemma legacy_drops_decimal_comma_witness :
  Legacy.parseNumber (lit "2930,63") = int 293063
  /\ parseNumber (lit "2930,63") = Dec false 293063 (-2).
Proof.
  apply (@legacy_drops_decimal_comma (lit "2930") (lit "63"));
    solve [reflexivity | discriminate].
Defined.

(* ===================================================================== *)
(** * The date normalizer on arbitrary input *)
(* ===================================================================== *)

(** X6 (parseCustomDate, what it returns).  [parseCustomDate] returns
    the string [out] exactly when the input holds a token
    D(D)/M(M)/YYYY, white space, H(H):MM:SS before which no such token
    begins, and [out] is the canonical form of that token with the SA or
    CH that stands behind the seconds and the white space after them, if
    one does: the year, the month and the day on two digits, the letter
    T, the hour of the 24-hour clock on two digits, the minutes and the
    seconds.  The token, and with it [out], is fixed by the input: the
    white space behind the seconds is taken whole, and SA or CH is taken
    whenever it is there.  What is returned has nineteen characters. *)
Theorem parseCustomDate_exact dateStr out :
  (parseCustomDate dateStr = Some out <->
   exists pre day month year hour minute second ws1 ws2 mer tail,
     dateStr
     = pre ++ date_token day month year hour minute second ws1 ws2 mer ++ tail
     /\ (forall i, i < length pre -> ~ starts_date_token (skipn i dateStr))
     /\ (forallb is_digit day = true /\ 1 <= length day <= 2)
     /\ (forallb is_digit month = true /\ 1 <= length month <= 2)
     /\ (forallb is_digit year = true /\ length year = 4)
     /\ (forallb is_space ws1 = true /\ ws1 <> [])
     /\ (forallb is_digit hour = true /\ 1 <= length hour <= 2)
     /\ (forallb is_digit minute = true /\ length minute = 2)
     /\ (forallb is_digit second = true /\ length second = 2)
     /\ forallb is_space ws2 = true
     /\ meridiem_token mer
     /\ (mer = [] ->
         match tail with [] => True | c :: _ => is_space c = false end
         /\ ci_prefix (lit "SA") tail = false
         /\ ci_prefix (lit "CH") tail = false)
     /\ out = canonical day month year hour minute second mer)
  /\ (parseCustomDate dateStr = Some out -> length out = 19).
Proof.
  split; [split|].
  - apply parseCustomDate_decompose.
  - intros (pre & day & month & year & hour & minute & second & ws1 & ws2
            & mer & tail & -> & Hleft & [Hd Ld] & [Hm Lm] & [Hy Ly]
            & [Hw Nw] & [Hh Lh] & [Hmi Lmi] & [Hs Ls] & Hws2 & Hmer & Htail
            & ->).
    now apply parseCustomDate_of_token.
  - intros H. apply parseCustomDate_decompose in H
      as (pre & day & month & year & hour & minute & second & ws1 & ws2
          & mer & tail & _ & _ & _ & _ & [_ Ly] & _ & _ & [_ Lmi] & [_ Ls]
          & _ & _ & _ & ->).
    unfold canonical. rewrite !length_app.
    cbn [length two_digits lit map list_ascii_of_string].
    rewrite Ly, Lmi, Ls. reflexivity.
Qed.

Lemma parseCustomDate_exact_witness :
  parseCustomDate (lit "on 23/4/2025 1:00:00 ch.")
  = Some (lit "2025-04-23T13:00:00")
  /\ parseCustomDate (lit "1/2/2025 10:00:00 CH")
     = Some (lit "2025-02-01T22:00:00")
  /\ length (lit "2025-04-23T13:00:00") = 19.
Proof.
  split; [vm_compute; reflexivity|]. split.
  - apply (proj2 (proj1 (@parseCustomDate_exact
                           (lit "1/2/2025 10:00:00 CH")
                           (lit "2025-02-01T22:00:00")))).
    exists [], (lit "1"), (lit "2"), (lit "2025"), (lit "10"), (lit "00"),
           (lit "00"), (lit " "), (lit " "), (lit "CH"), [].
    split; [reflexivity|]. split; [intros i Hi; inversion Hi|].
    repeat split; try reflexivity; try (cbn; lia); try discriminate.
    right; right; reflexivity.
  - apply (proj2 (@parseCustomDate_exact (lit "on 23/4/2025 1:00:00 ch.")
                    (lit "2025-04-23T13:00:00"))).
    vm_compute. reflexivity.
Defined.

(** X7 (parseCustomDate, completeness).  A text in which a day and a
    month of one or two digits, a year of four digits, white space, an
    hour of one or two digits, and minutes and seconds of two digits
    stand in the form D/M/YYYY H:MM:SS is never answered with
    [undefined], whatever stands before and behind them. *)
Theorem parseCustomDate_complete pre day month year ws1 hour minute second tail :
  forallb is_digit day = true -> 1 <= length day <= 2 ->
  forallb is_digit month = true -> 1 <= length month <= 2 ->
  forallb is_digit year = true -> length year = 4 ->
  forallb is_space ws1 = true -> ws1 <> [] ->
  forallb is_digit hour = true -> 1 <= length hour <= 2 ->
  forallb is_digit minute = true -> length minute = 2 ->
  forallb is_digit second = true -> length second = 2 ->
  parseCustomDate
    (pre ++ day ++ SLASH :: month ++ SLASH :: year ++ ws1 ++ hour ++ COLON ::
     minute ++ COLON :: second ++ tail) <> None.
Proof.
  intros. apply parseCustomDate_defined. unfold exec.
  apply search_finds. now apply custom_date_found.
Qed.

Lemma parseCustomDate_complete_witness :
  parseCustomDate (lit "at 07/03/2025  9:05:09pm") <> None.
Proof.
  apply (@parseCustomDate_complete (lit "at ") (lit "07") (lit "03")
           (lit "2025") (lit "  ") (lit "9") (lit "05") (lit "09") (lit "pm"));
    solve [reflexivity | cbn; lia | discriminate].
Defined.

(* ===================================================================== *)
(** * The cascade and the tabular detector *)
(* ===================================================================== *)

(** X8 (smartParse).  The last detector of the chain never decides:
    [parseFormatBitunixWeb] answers only texts that include
    'Time Opened', and those are answered by [parseFormatBitunixMobile],
    which stands before it.  The chain is the chain of the first five
    detectors. *)
Theorem web_never_decides text :
  (parseFormatBitunixWeb text <> None -> parseFormatBitunixMobile text <> None)
  /\ smartParse text
     = first_match [parseFormatTabular; parseFormatVN; parseFormatAivoraGrid;
                    parseFormatBitunixMobile; parseFormatAivoraEn] text.
Proof.
  assert (H : parseFormatBitunixWeb text <> None ->
              parseFormatBitunixMobile text <> None).
  { intros Hw Hm. apply Hw. apply web_anchor. right.
    now apply mobile_anchor. }
  split; [exact H|].
  unfold smartParse. cbn [first_match].
  destruct (parseFormatTabular text); [reflexivity|].
  destruct (parseFormatVN text); [reflexivity|].
  destruct (parseFormatAivoraGrid text); [reflexivity|].
  destruct (parseFormatBitunixMobile text) eqn:Em; [reflexivity|].
  destruct (parseFormatAivoraEn text); [reflexivity|].
  cbn [or_else].
  destruct (parseFormatBitunixWeb text) eqn:Ew; [|reflexivity].
  exfalso. apply H; [discriminate|reflexivity].
Qed.

(** X9 (smartParse, which detector decides).  The answer of the chain
    is the answer of one detector, chosen by the shape and the anchors
    of the text alone: the tabular detector for a tabular row; otherwise
    [parseFormatVN] when the text includes 'Giá Mở' or 'Giá Đóng';
    otherwise [parseFormatAivoraGrid] when it includes 'Open Time';
    otherwise [parseFormatBitunixMobile] when it includes 'Time Opened';
    otherwise [parseFormatAivoraEn] when it includes 'Opening Average
    Price'; and nothing otherwise, in which case the text goes to Gemini
    unchanged.  The anchors are looked for in this very letter case. *)
Theorem cascade_by_anchor text :
  smartParse text
  = (if tabular_shape text then parseFormatTabular text
     else if includes GiaMo text || includes GiaDong text
     then parseFormatVN text
     else if includes (lit "Open Time") text then parseFormatAivoraGrid text
     else if includes (lit "Time Opened") text
     then parseFormatBitunixMobile text
     else if includes (lit "Opening Average Price") text
     then parseFormatAivoraEn text
     else None)
  /\ (smartParse text = None
      <-> tabular_shape text = false
          /\ includes GiaMo text = false
          /\ includes GiaDong text = false
          /\ includes (lit "Open Time") text = false
          /\ includes (lit "Time Opened") text = false
          /\ includes (lit "Opening Average Price") text = false)
  /\ (smartParse text = None ->
      forall e, events e (parseTradeTextSmart text) = [CallGemini text]).
Proof.
  split; [|split].
  - unfold smartParse.
    rewrite (@or_else_guard (tabular_shape text)) by apply tabular_anchor.
    destruct (tabular_shape text); [reflexivity|].
    rewrite (@or_else_guard (includes GiaMo text || includes GiaDong text)).
    2:{ rewrite vn_anchor. now rewrite orb_false_iff. }
    destruct (includes GiaMo text || includes GiaDong text); [reflexivity|].
    rewrite (@or_else_guard (includes (lit "Open Time") text))
      by apply grid_anchor.
    destruct (includes (lit "Open Time") text); [reflexivity|].
    rewrite (@or_else_guard (includes (lit "Time Opened") text))
      by apply mobile_anchor.
    destruct (includes (lit "Time Opened") text) eqn:Eto; [reflexivity|].
    rewrite (@or_else_guard (includes (lit "Opening Average Price") text)).
    2:{ rewrite en_anchor, Eto. intuition discriminate. }
    destruct (includes (lit "Opening Average Price") text); [reflexivity|].
    apply web_anchor. right. exact Eto.
  - unfold smartParse. rewrite !or_else_None.
    rewrite tabular_anchor, vn_anchor, grid_anchor, mobile_anchor, en_anchor,
      web_anchor.
    destruct (includes (lit "Time Opened") text),
             (includes (lit "Opening Average Price") text); intuition congruence.
  - intros H e. unfold parseTradeTextSmart. now rewrite H.
Qed.

(** X10 (parseFormatTabular, further columns).  Once a text has eight
    tab-separated fields, whatever is added behind a further tab changes
    nothing in what the tabular detector answers: only the first eight
    fields are read. *)
Theorem tabular_extra_columns text extra :
  8 <= length (split TAB text) ->
  parseFormatTabular (text ++ TAB :: extra) = parseFormatTabular text.
Proof.
  intros H. unfold parseFormatTabular.
  rewrite split_app.
  replace (Nat.ltb (length (split TAB text ++ split TAB extra)) 8) with false
    by (symmetry; apply Nat.ltb_ge; rewrite length_app; lia).
  replace (Nat.ltb (length (split TAB text)) 8) with false
    by (symmetry; apply Nat.ltb_ge; lia).
  rewrite !part_app by lia. reflexivity.
Qed.

Lemma tabular_extra_columns_witness :
  parseFormatTabular (sample_row ++ TAB :: lit "closed by hand")
  = parseFormatTabular sample_row.
Proof.
  apply (@tabular_extra_columns sample_row (lit "closed by hand")).
  vm_compute. lia.
Defined.

(** X11 (parseTradeTextSmart on a tabular row).  When the tabular
    detector answers and its record passes the gate, the trade resolved
    carries as opening time what [parseCustomDate] makes of the third
    field, also when that is [undefined]: the clock is read, and its
    value is not used.  The closing time is what [parseCustomDate] makes
    of the fourth field. *)
Theorem tabular_time_not_defaulted text p :
  parseFormatTabular text = Some p -> gate p = true ->
  forall e,
    exists tr,
      result e (parseTradeTextSmart text) = Resolved tr
      /\ events e (parseTradeTextSmart text) = [ReadClock]
      /\ Trade.openTime tr = parseCustomDate (part 2 (split TAB text))
      /\ Trade.closeTime tr = Some (parseCustomDate (part 3 (split TAB text))).
Proof.
  intros Hp Hg e.
  assert (Ha : accepted text = Some p).
  { unfold accepted, smartParse. rewrite Hp. cbn [or_else]. now rewrite Hg. }
  rewrite (@parseTradeTextSmart_accepted text p Ha).
  exists (merge (clock e) p). cbn [result events].
  apply tabular_record in Hp. cbv zeta in Hp. subst p.
  repeat split.
Qed.

Lemma tabular_time_not_defaulted_witness :
  parseCustomDate (part 2 (split TAB undated_row)) = None
  /\ exists tr,
       result morning (parseTradeTextSmart undated_row) = Resolved tr
       /\ events morning (parseTradeTextSmart undated_row) = [ReadClock]
       /\ Trade.openTime tr = parseCustomDate (part 2 (split TAB undated_row))
       /\ Trade.closeTime tr
          = Some (parseCustomDate (part 3 (split TAB undated_row))).
Proof.
  split; [vm_compute; reflexivity|].
  refine (@tabular_time_not_defaulted undated_row _ _ _ morning);
    vm_compute; reflexivity.
Defined.

(* ===================================================================== *)
(** * What the records of the detectors hold *)
(* ===================================================================== *)



(** X13 (the times of the caption layouts).  In the record of a detector
    that reads captions an opening or closing time that is set is a
    string, never [undefined]: what [parseFormatVN] takes under 'Ngày'
    is always read by [parseCustomDate].  The trade made from such a
    record has a string as opening time, its own or the clock's. *)
Theorem caption_times_defined d text p :
  In d caption_detectors -> d text = Some p ->
  times_defined p
  /\ forall now,
       Trade.openTime (merge now p) <> None
       /\ Trade.closeTime (merge now p) <> Some None.
Proof.
  intros Hin Hd.
  pose proof (@times_defined_detectors d text p Hin Hd) as Ht.
  split; [exact Ht|]. destruct Ht as [Ho Hc]. intros now.
  unfold merge. cbn [Trade.openTime Trade.closeTime]. split; [|exact Hc].
  destruct (Partial.openTime p) as [[x|]|]; cbn; congruence.
Qed.

Lemma caption_times_defined_witness :
  (times_defined vn_sample_record
   /\ forall now,
        Trade.openTime (merge now vn_sample_record) <> None
        /\ Trade.closeTime (merge now vn_sample_record) <> Some None)
  /\ Partial.openTime vn_sample_record
     = Some (Some (lit "2025-12-17T10:16:52"))
  /\ Partial.closeTime vn_sample_record
     = Some (Some (lit "2025-12-17T22:38:23"))
  /\ (times_defined mobile_no_time_record
      /\ forall now,
           Trade.openTime (merge now mobile_no_time_record) <> None
           /\ Trade.closeTime (merge now mobile_no_time_record) <> Some None).
Proof.
  split; [|split; [reflexivity|split; [reflexivity|]]].
  - apply (@caption_times_defined parseFormatVN vn_sample).
    + now left.
    + vm_compute. reflexivity.
  - apply (@caption_times_defined parseFormatBitunixMobile mobile_no_time).
    + right. right. now left.
    + vm_compute. reflexivity.
Defined.

(** X14 (what the dispatcher resolves to on its own).  A trade that
    [parseTradeTextSmart] resolves to without Gemini has an empty uid,
    an opening price that is neither zero nor not-a-number, and a
    quantity that is neither zero nor not-a-number or else a coin that
    is not the empty string. *)
Theorem heuristic_trade_valid text p :
  accepted text = Some p ->
  forall e,
    exists tr,
      result e (parseTradeTextSmart text) = Resolved tr
      /\ Trade.uid tr = []
      /\ truthy (Trade.openPrice tr) = true
      /\ (truthy (Trade.quantity tr) = true \/ Trade.coin tr <> []).
Proof.
  intros Ha e. rewrite (@parseTradeTextSmart_accepted text p Ha).
  exists (merge (clock e) p). cbn [result]. split; [reflexivity|].
  split; [reflexivity|].
  apply accepted_In in Ha as [Hg _]. unfold gate in Hg.
  apply andb_true_iff in Hg as [Hop Hqc].
  unfold merge. cbn [Trade.openPrice Trade.quantity Trade.coin]. split.
  - destruct (Partial.openPrice p); [exact Hop|discriminate].
  - apply orb_true_iff in Hqc as [Hq|Hc].
    + left. destruct (Partial.quantity p); [exact Hq|discriminate].
    + right. destruct (Partial.coin p) as [[|x l]|]; try discriminate.
Qed.

Lemma heuristic_trade_valid_witness :
  exists tr,
    result morning (parseTradeTextSmart sample_row) = Resolved tr
    /\ Trade.uid tr = []
    /\ truthy (Trade.openPrice tr) = true
    /\ (truthy (Trade.quantity tr) = true \/ Trade.coin tr <> []).
Proof.
  refine (@heuristic_trade_valid sample_row _ _ morning).
  vm_compute. reflexivity.
Defined.

(* ===================================================================== *)
(** * The end of the earlier chain *)
(* ===================================================================== *)

(** X15 (the earlier chain, its last detector).  In the earlier
    generation [parseFormatBitunix] stands behind [parseFormatFixed] and
    never decides: it answers only texts that include 'Entry Price', and
    those are answered by [parseFormatFixed]. *)
Theorem legacy_bitunix_shadowed text :
  (Legacy.parseFormatBitunix text <> None ->
   Legacy.parseFormatFixed text <> None)
  /\ or_else (Legacy.parseFormatFixed text) (Legacy.parseFormatBitunix text)
     = Legacy.parseFormatFixed text.
Proof.
  assert (H : Legacy.parseFormatBitunix text <> None ->
              Legacy.parseFormatFixed text <> None).
  { unfold Legacy.parseFormatBitunix, Legacy.parseFormatFixed.
    destruct (includes (lit "Entry Price") text),
             (includes (lit "Time Opened") text); simpl; congruence. }
  split; [exact H|].
  destruct (Legacy.parseFormatFixed text) eqn:Ef; [reflexivity|].
  cbn [or_else].
  destruct (Legacy.parseFormatBitunix text) eqn:Eb; [|reflexivity].
  exfalso. apply H; [discriminate|reflexivity].
Qed.

(** X16 (the earlier parseFormatFixed, quantity and coin).  The earlier
    [parseFormatFixed] takes the quantity and the coin under
    'Closed Qty' only.  On a text that reads 'Closed Qty' nowhere, in
    any letter case, its record has neither, and fails the gate of the
    dispatcher whatever else it holds. *)
Theorem legacy_fixed_needs_closed_qty text p :
  mentions (lit "Closed Qty") text = false ->
  Legacy.parseFormatFixed text = Some p ->
  Partial.quantity p = None /\ Partial.coin p = None /\ gate p = false.
Proof.
  intros Hcap Hp.
  assert (Hq : exec Legacy.fixed_qty text = None).
  { apply (@caption_exec_absent Legacy.fixed_qty (lit "Closed Qty")
             (Re.seq [maybe (Lit DOT); nl; Grp 1 (plus num);
                      Alt nl (plus Space); Grp 2 (plus AZ)]));
      [reflexivity|reflexivity|now apply mentions_absent]. }
  assert (H : Partial.quantity p = None /\ Partial.coin p = None).
  { unfold Legacy.parseFormatFixed in Hp.
    destruct (negb (includes (lit "Time Opened") text)
              && negb (includes (lit "Entry Price") text)); [discriminate|].
    cbv zeta in Hp. injection Hp as <-.
    unfold on_match. rewrite Hq.
    repeat match goal with
           | |- context [match exec ?q text with _ => _ end] =>
               destruct (exec q text)
           end; split; reflexivity. }
  destruct H as [H1 H2]. repeat split; try assumption.
  unfold gate. rewrite H1, H2. apply andb_false_r.
Qed.

Lemma legacy_fixed_needs_closed_qty_witness :
  exists p,
    Legacy.parseFormatFixed bitunix_standard = Some p
    /\ Partial.quantity p = None /\ Partial.coin p = None /\ gate p = false.
Proof.
  destruct (Legacy.parseFormatFixed bitunix_standard) as [p|] eqn:E;
    [|vm_compute in E; discriminate E].
  exists p. split; [reflexivity|].
  apply (@legacy_fixed_needs_closed_qty bitunix_standard p);
    [vm_compute; reflexivity|exact E].
Defined.
